(** * Carpool planner: the commute-matching route (server/src/routes/matches.ts)

    A shallow embedding of the matching code of the carpool planner and the
    properties its specification states about it.

    JavaScript numbers are IEEE-754 binary64 values, modelled by Rocq's
    primitive floats; strings are byte strings (UTF-8); the database, the
    routing service and the identifier generator are explicit arguments of
    the request handler, whose effects are recorded as a trace of events. *)

From Stdlib Require Import Floats ZArith List String Ascii Bool Lia.
From Stdlib Require Import Sorted Permutation DecimalString.
Import ListNotations.

Set Warnings "-inexact-float".

(* ================================================================== *)
(** * The JavaScript runtime, as far as the route uses it              *)
(* ================================================================== *)

Module JS.

Local Open Scope float_scope.

(** A [number]. *)
Definition number := float.

Definition is_pos_zero (x : float) : bool := is_zero x && negb (get_sign x).
Definition is_neg_zero (x : float) : bool := is_zero x && get_sign x.

(** The integer [n] as a number (round to nearest, ties to even). *)
Definition of_Z (n : Z) : float := SF2Prim (binary_normalize prec emax n 0 false).

(** [ToNumber] of a value of type [number | null]: [null] converts to [+0]. *)
Definition num (v : option float) : float :=
  match v with Some x => x | None => 0 end.

(** [!v] for a value of type [number | null | undefined]: [null], [undefined],
    [+0], [-0] and [NaN] are falsy. *)
Definition falsy (v : option float) : bool :=
  match v with
  | None => true
  | Some x => is_zero x || is_nan x
  end.

(** ** Math.max and Math.min

    ECMAScript: start from -Infinity (+Infinity); for each argument in turn,
    a NaN argument makes the result NaN; +0 replaces a current -0 (-0 replaces
    a current +0); a strictly larger (smaller) argument replaces the current
    value. *)

Definition max_step (highest : option float) (n : float) : option float :=
  match highest with
  | None => None
  | Some h =>
      if is_nan n then None
      else
        let h := if is_pos_zero n && is_neg_zero h then PrimFloat.zero else h in
        Some (if PrimFloat.ltb h n then n else h)
  end.

Definition Math_max_of (args : list float) : float :=
  match fold_left max_step args (Some neg_infinity) with
  | Some h => h
  | None => nan
  end.

Definition Math_max (a b : float) : float := Math_max_of [a; b].

Definition min_step (lowest : option float) (n : float) : option float :=
  match lowest with
  | None => None
  | Some l =>
      if is_nan n then None
      else
        let l := if is_neg_zero n && is_pos_zero l then neg_zero else l in
        Some (if PrimFloat.ltb n l then n else l)
  end.

Definition Math_min_of (args : list float) : float :=
  match fold_left min_step args (Some infinity) with
  | Some l => l
  | None => nan
  end.

Definition Math_min (a b : float) : float := Math_min_of [a; b].

(** ** Math.round

    The integral number closest to [x], the one closer to +Infinity on a tie;
    [x] itself when it is not finite or already integral; [-0] for
    [-0.5 <= x < 0].  A finite [x] is [±m * 2^e]; for [e < 0] the result is
    [floor (x + 1/2)], computed on integers. *)
Definition Math_round (x : float) : float :=
  match Prim2SF x with
  | S754_finite s m e =>
      if (0 <=? e)%Z then x
      else
        let v := cond_Zopp s (Zpos m) in
        let n := Z.shiftr (2 * v + 2 ^ (- e)) (- e + 1) in
        SF2Prim (binary_normalize prec emax n 0 s)
  | _ => x
  end.

Definition Math_sqrt (x : float) : float := PrimFloat.sqrt x.

(** [Math.PI], the binary64 value nearest to pi. *)
Definition Math_PI : float := 0x1.921fb54442d18p+1.

(** What ECMAScript leaves to the implementation, the model takes from the
    engine: [Math.sin], [Math.cos] and [Math.atan2] are
    implementation-approximated, and the order in which
    [Array.prototype.sort] leaves the elements is implementation-defined when
    the comparison function is not consistent.  [Array_sort_next comparefn
    items rest] is the index, among the elements [rest] not placed yet, of
    the element that the engine's sort of [items] places next (counted
    modulo the number of elements left). *)
Class MathImpl := {
  Math_sin : float -> float;
  Math_cos : float -> float;
  Math_atan2 : float -> float -> float;
  Array_sort_next : forall A : Type, (A -> A -> float) -> list A -> list A -> nat
}.

(** ** Strings *)

(** [s.split(c)] for a one-character separator [c]: the pieces between the
    occurrences of [c], in order; never empty. *)
Fixpoint split (sep : ascii) (s : string) : list string :=
  match s with
  | EmptyString => [EmptyString]
  | String c s' =>
      if Ascii.eqb c sep then EmptyString :: split sep s'
      else
        match split sep s' with
        | [] => [String c EmptyString]
        | p :: ps => String c p :: ps
        end
  end.

(** *** Number(string): ECMAScript's StringToNumber *)

Definition code (c : ascii) : nat := nat_of_ascii c.

Definition is_digit (c : ascii) : bool :=
  (48 <=? code c)%nat && (code c <=? 57)%nat.

Definition digit_val (c : ascii) : Z := Z.of_nat (code c) - 48.

(** Value of a digit of a hexadecimal, octal or binary literal, if [c] is a
    digit in that [radix]. *)
Definition radix_digit (radix : Z) (c : ascii) : option Z :=
  let n := code c in
  let v :=
    if (48 <=? n)%nat && (n <=? 57)%nat then Some (Z.of_nat n - 48)%Z
    else if (97 <=? n)%nat && (n <=? 102)%nat then Some (Z.of_nat n - 87)%Z
    else if (65 <=? n)%nat && (n <=? 70)%nat then Some (Z.of_nat n - 55)%Z
    else None in
  match v with
  | Some d => if (d <? radix)%Z then Some d else None
  | None => None
  end.

(** StrWhiteSpaceChar: WhiteSpace and LineTerminator code points, in UTF-8. *)
Definition ws1 (a : nat) : bool :=
  (a =? 9)%nat || (a =? 10)%nat || (a =? 11)%nat || (a =? 12)%nat
  || (a =? 13)%nat || (a =? 32)%nat.

Definition ws2 (a b : nat) : bool := (a =? 194)%nat && (b =? 160)%nat.

Definition ws3 (a b c : nat) : bool :=
  ((a =? 225)%nat && (b =? 154)%nat && (c =? 128)%nat)
  || ((a =? 226)%nat && (b =? 128)%nat
      && (((128 <=? c)%nat && (c <=? 138)%nat)
          || (c =? 168)%nat || (c =? 169)%nat || (c =? 175)%nat))
  || ((a =? 226)%nat && (b =? 129)%nat && (c =? 159)%nat)
  || ((a =? 227)%nat && (b =? 128)%nat && (c =? 128)%nat)
  || ((a =? 239)%nat && (b =? 187)%nat && (c =? 191)%nat).

(** The string without its leading white space. *)
Fixpoint skip_ws (s : string) : string :=
  match s with
  | String a r1 =>
      if ws1 (code a) then skip_ws r1
      else
        match r1 with
        | String b r2 =>
            if ws2 (code a) (code b) then skip_ws r2
            else
              match r2 with
              | String c r3 =>
                  if ws3 (code a) (code b) (code c) then skip_ws r3 else s
              | EmptyString => s
              end
        | EmptyString => s
        end
  | EmptyString => s
  end.

Definition all_ws (s : string) : bool :=
  match skip_ws s with EmptyString => true | _ => false end.

(** The longest prefix of decimal digits: its value, its length, the rest. *)
Fixpoint read_digits (acc : Z) (n : Z) (s : string) : Z * Z * string :=
  match s with
  | String c r =>
      if is_digit c then read_digits (acc * 10 + digit_val c) (n + 1) r
      else (acc, n, s)
  | EmptyString => (acc, n, s)
  end.

Fixpoint read_radix (radix : Z) (acc : Z) (n : Z) (s : string) : Z * Z * string :=
  match s with
  | String c r =>
      match radix_digit radix c with
      | Some d => read_radix radix (acc * radix + d) (n + 1) r
      | None => (acc, n, s)
      end
  | EmptyString => (acc, n, s)
  end.

(** The number nearest to [±(m / d)] for integers [m >= 0], [d > 0]: the
    quotient is taken with at least 64 significant bits and a sticky bit, and
    then rounded to nearest-even. *)
Definition round_ratio (neg : bool) (m d : Z) : float :=
  if (m =? 0)%Z then (if neg then PrimFloat.neg_zero else PrimFloat.zero)
  else
    let k := Z.max 0 (64 + Z.log2 d - Z.log2 m) in
    let q := (m * 2 ^ k / d)%Z in
    let r := ((m * 2 ^ k) mod d)%Z in
    let n := (if (r =? 0)%Z then 2 * q else 2 * q + 1)%Z in
    SF2Prim (binary_normalize prec emax (cond_Zopp neg n) (- k - 1) false).

(** The number for the mathematical value [±(m * 10^e10)]. *)
Definition decimal_value (neg : bool) (m e10 : Z) : float :=
  if (0 <=? e10)%Z then round_ratio neg (m * 10 ^ e10) 1
  else round_ratio neg m (10 ^ (- e10)).

(** ExponentPart (optional), followed by white space only. *)
Definition read_exponent (s : string) : option Z :=
  match s with
  | String c r =>
      if Ascii.eqb c "e" || Ascii.eqb c "E" then
        let '(neg, r') :=
          match r with
          | String sg r'' =>
              if Ascii.eqb sg "-" then (true, r'')
              else if Ascii.eqb sg "+" then (false, r'')
              else (false, r)
          | EmptyString => (false, r)
          end in
        let '(v, n, rest) := read_digits 0 0 r' in
        if (0 <? n)%Z && all_ws rest then Some (if neg then (- v)%Z else v)
        else None
      else if all_ws s then Some 0%Z else None
  | EmptyString => Some 0%Z
  end.

(** StrUnsignedDecimalLiteral, followed by white space only. *)
Definition unsigned_decimal (neg : bool) (s : string) : float :=
  if String.prefix "Infinity" s then
    if all_ws (substring 8 (String.length s - 8) s)
    then (if neg then neg_infinity else infinity) else nan
  else
    let '(ip, n1, r1) := read_digits 0 0 s in
    let '(m, n2, r2) :=
      match r1 with
      | String c r =>
          if Ascii.eqb c "." then read_digits ip 0 r else (ip, 0%Z, r1)
      | EmptyString => (ip, 0%Z, r1)
      end in
    if (0 <? n1 + n2)%Z then
      match read_exponent r2 with
      | Some e => decimal_value neg m (e - n2)
      | None => nan
      end
    else nan.

(** NonDecimalIntegerLiteral after its two-character prefix. *)
Definition radix_literal (radix : Z) (s : string) : float :=
  let '(v, n, rest) := read_radix radix 0 0 s in
  if (0 <? n)%Z && all_ws rest then round_ratio false v 1 else nan.

(** [Number(s)] for a string [s]. *)
Definition Number (s : string) : float :=
  match skip_ws s with
  | EmptyString => 0
  | String c r as t =>
      if Ascii.eqb c "-" then unsigned_decimal true r
      else if Ascii.eqb c "+" then unsigned_decimal false r
      else
        match r with
        | String x r' =>
            if Ascii.eqb c "0" && (Ascii.eqb x "x" || Ascii.eqb x "X")
            then radix_literal 16 r'
            else if Ascii.eqb c "0" && (Ascii.eqb x "o" || Ascii.eqb x "O")
            then radix_literal 8 r'
            else if Ascii.eqb c "0" && (Ascii.eqb x "b" || Ascii.eqb x "B")
            then radix_literal 2 r'
            else unsigned_decimal false t
        | EmptyString => unsigned_decimal false t
        end
  end.

(** Element [i] of an array of numbers read in an arithmetic context: a
    missing element is [undefined], whose [ToNumber] is [NaN]. *)
Definition nth_number (i : nat) (a : list float) : float :=
  nth i a nan.

(** ** SameValue ([Object.is]) on numbers: [NaN] is the same value as [NaN],
    and [+0] is not the same value as [-0]. *)
Definition SameValue (a b : float) : bool :=
  match Prim2SF a, Prim2SF b with
  | S754_zero s, S754_zero s' => Bool.eqb s s'
  | S754_infinity s, S754_infinity s' => Bool.eqb s s'
  | S754_nan, S754_nan => true
  | S754_finite s m e, S754_finite s' m' e' =>
      Bool.eqb s s' && Pos.eqb m m' && Z.eqb e e'
  | _, _ => false
  end.

(** ** Array.prototype.sort with a comparison function

    ECMAScript fixes the result when [comparefn] is a consistent comparison
    function for the elements: it never returns [NaN], and with [a < b],
    [a = b], [a > b] standing for a negative, zero, positive result, [=] is
    reflexive, symmetric and transitive and [<] and [>] are transitive.  Then
    the result is sorted and the sort is stable; there is exactly one such
    arrangement, and inserting the elements one by one, each before the
    first element it sorts strictly before, computes it.  For any other
    [comparefn] the order is implementation-defined: the engine chooses,
    element by element, which of the remaining ones comes next. *)
Section Sort.
Context {M : MathImpl}.
Context {A : Type}.
Variable comparefn : A -> A -> float.

Definition sorts_before (x y : A) : bool := PrimFloat.ltb (comparefn x y) 0.

(** The sign of [comparefn x y]. *)
Definition SortCompare (x y : A) : comparison :=
  if PrimFloat.ltb (comparefn x y) 0 then Lt
  else if PrimFloat.ltb 0 (comparefn x y) then Gt
  else Eq.

Definition is_Lt (c : comparison) : bool := match c with Lt => true | _ => false end.
Definition is_Eq (c : comparison) : bool := match c with Eq => true | _ => false end.
Definition is_Gt (c : comparison) : bool := match c with Gt => true | _ => false end.

(** The requirements on [comparefn] at the values [a], [b], [c]. *)
Definition consistent_at (a b c : A) : bool :=
  negb (is_nan (comparefn a b))
  && is_Eq (SortCompare a a)
  && implb (is_Eq (SortCompare a b)) (is_Eq (SortCompare b a))
  && implb (is_Eq (SortCompare a b) && is_Eq (SortCompare b c)) (is_Eq (SortCompare a c))
  && implb (is_Lt (SortCompare a b) && is_Lt (SortCompare b c)) (is_Lt (SortCompare a c))
  && implb (is_Gt (SortCompare a b) && is_Gt (SortCompare b c)) (is_Gt (SortCompare a c)).

(** [comparefn] is a consistent comparison function for the elements of
    [items]. *)
Definition consistent_comparator (items : list A) : bool :=
  forallb (fun a =>
    forallb (fun b => forallb (fun c => consistent_at a b c) items) items) items.

Fixpoint insert (x : A) (l : list A) : list A :=
  match l with
  | [] => [x]
  | y :: l' => if sorts_before x y then x :: l else y :: insert x l'
  end.

(** The stable sorted arrangement. *)
Definition stable_sort (l : list A) : list A :=
  fold_left (fun acc x => insert x acc) l [].

(** Element [i] of [l], and the other elements. *)
Fixpoint take_out (i : nat) (l : list A) : option (A * list A) :=
  match l, i with
  | [], _ => None
  | x :: l', O => Some (x, l')
  | x :: l', S i' => option_map (fun p => (fst p, x :: snd p)) (take_out i' l')
  end.

(** The arrangement the engine chooses for [items]: [n] more elements, taken
    from [rest]. *)
Fixpoint arrange (items : list A) (n : nat) (rest : list A) : list A :=
  match n with
  | O => []
  | S n' =>
      let i := (Array_sort_next A comparefn items rest mod List.length rest)%nat in
      match take_out i rest with
      | Some (x, rest') => x :: arrange items n' rest'
      | None => []
      end
  end.

Definition Array_sort (l : list A) : list A :=
  if consistent_comparator l then stable_sort l
  else arrange l (List.length l) l.

End Sort.

End JS.

(* ================================================================== *)
(** * routes/matches.ts                                                *)
(* ================================================================== *)

Module Matches.

Import JS.
Local Open Scope float_scope.
Local Open Scope string_scope.
Local Open Scope list_scope.

(** ** Geo and time primitives *)

Section Haversine.
Context {M : MathImpl}.

(** Haversine distance in miles. *)
Definition haversine (lat1 lng1 lat2 lng2 : float) : float :=
  let R := 3959 in
  let dLat := (lat2 - lat1) * Math_PI / 180 in
  let dLng := (lng2 - lng1) * Math_PI / 180 in
  let a :=
    Math_sin (dLat / 2) * Math_sin (dLat / 2) +
    Math_cos (lat1 * Math_PI / 180) * Math_cos (lat2 * Math_PI / 180) *
    Math_sin (dLng / 2) * Math_sin (dLng / 2) in
  let c := 2 * Math_atan2 (Math_sqrt a) (Math_sqrt (1 - a)) in
  R * c.

End Haversine.

(** Parse HH:MM time to minutes since midnight:
    [const [h, m] = t.split(':').map(Number); return h * 60 + m]. *)
Definition timeToMinutes (t : string) : float :=
  let parts := map Number (split ":" t) in
  let h := nth_number 0 parts in
  let m := nth_number 1 parts in
  h * 60 + m.

Record overlap := { overlapMinutes : float; commonDays : list Z }.

(** [days.includes(d)] on day indices. *)
Definition includes (days : list Z) (d : Z) : bool := existsb (Z.eqb d) days.

(** Schedule overlap in minutes. *)
Definition computeOverlap
  (earliest1 latest1 : string) (days1 : list Z)
  (earliest2 latest2 : string) (days2 : list Z) : overlap :=
  let commonDays := filter (fun d => includes days2 d) days1 in
  if (List.length commonDays =? 0)%nat then {| overlapMinutes := 0; commonDays := [] |}
  else
    let start := Math_max (timeToMinutes earliest1) (timeToMinutes earliest2) in
    let end_ := Math_min (timeToMinutes latest1) (timeToMinutes latest2) in
    let overlapMinutes := Math_max 0 (end_ - start) in
    {| overlapMinutes := overlapMinutes; commonDays := commonDays |}.

(** Check role compatibility. *)
Definition rolesCompatible (role1 role2 : string) : bool :=
  if (role1 =? "RIDER") && (role2 =? "RIDER") then false else true.

(** ** The Distance Matrix call *)

Record point := { lat : float; lng : float }.

Record dm_request := {
  origins : list point;
  destinations : list point;
  key : string
}.

(** The JSON payload of a Distance Matrix response. *)
Record dm_element := { el_status : string; duration_value : float }.
Record dm_data := { dm_status : string; dm_rows : list (list dm_element) }.

(** [await fetch(url)] then [await resp.json()]: a payload, or a rejection. *)
Inductive fetch_result :=
| FetchRejected
| FetchJson (data : dm_data).

(** A value of type [number | null], or [undefined] when an array is read
    past its end. *)
Inductive duration :=
| Minutes (x : float)
| Unavailable
| Missing.

Inductive outcome (A : Type) :=
| Returned (a : A)
| Thrown.
Arguments Returned {A} a.
Arguments Thrown {A}.

(** Durations in minutes, or [null] if the API is unavailable. *)
Definition getDistanceMatrixMinutes
  (fetch : dm_request -> fetch_result)
  (origins destinations : list point) (apiKey : string)
  : outcome (option (list (list duration))) :=
  match fetch {| origins := origins; destinations := destinations; key := apiKey |} with
  | FetchRejected => Thrown
  | FetchJson data =>
      if negb (dm_status data =? "OK") then Returned None
      else
        Returned (Some
          (map (fun row =>
             map (fun el =>
               if el_status el =? "OK" then Minutes (duration_value el / 60)
               else Unavailable) row)
             (dm_rows data)))
  end.

(** ** The database *)

Record user_row := {
  id : string;
  display_name : string;
  home_lat : option float;
  home_lng : option float
}.

Record pref_row := {
  user_id : string;
  direction : string;
  earliest_time : string;
  latest_time : string;
  days_of_week : list Z;
  role : string
}.

Record match_row := {
  match_id : string;
  user_a_id : string;
  user_b_id : string;
  match_direction : string;
  detour_minutes : float;
  time_overlap_minutes : float;
  rank_score : float
}.

Record DB := {
  users : list user_row;
  commute_preferences : list pref_row;
  match_results : list match_row
}.

Definition is_some {A} (v : option A) : bool :=
  match v with Some _ => true | None => false end.

(** SELECT * FROM users WHERE id = $1 *)
Definition select_user (db : DB) (uid : string) : list user_row :=
  filter (fun u => id u =? uid) (users db).

(** SELECT * FROM commute_preferences WHERE user_id = $1 *)
Definition select_prefs (db : DB) (uid : string) : list pref_row :=
  filter (fun p => user_id p =? uid) (commute_preferences db).

(** SELECT * FROM users WHERE id != $1 AND home_lat IS NOT NULL
    AND home_lng IS NOT NULL *)
Definition select_other_users (db : DB) (uid : string) : list user_row :=
  filter (fun u => negb (id u =? uid) && is_some (home_lat u) && is_some (home_lng u))
         (users db).

(** DELETE FROM match_results WHERE user_a_id = $1 OR user_b_id = $1 *)
Definition delete_matches (db : DB) (uid : string) : DB :=
  {| users := users db;
     commute_preferences := commute_preferences db;
     match_results :=
       filter (fun r => negb ((user_a_id r =? uid) || (user_b_id r =? uid)))
              (match_results db) |}.

(** INSERT INTO match_results (...) VALUES (...) *)
Definition insert_match (db : DB) (r : match_row) : DB :=
  {| users := users db;
     commute_preferences := commute_preferences db;
     match_results := match_results db ++ [r] |}.

Inductive query :=
| QUserById (uid : string)
| QPrefsByUser (uid : string)
| QOtherUsers (uid : string)
| QDeleteMatches (uid : string)
| QInsertMatch (r : match_row).

(** What the handler does to the outside, in order. *)
Inductive event :=
| EvQuery (q : query)
| EvFetch (r : dm_request)
| EvConsoleError.

(** ** The process environment and the outside services *)

Record World := {
  fetch : dm_request -> fetch_result;
  (** the identifiers that [uuidv4()] returns while a request is served, in
      the order they are drawn; they are random, so a later request draws
      other ones: what depends on the identifiers of two requests is stated
      with a world for each *)
  uuidv4 : nat -> string;
  (** environment variables; the numeric ones as [parseFloat] reads them *)
  GOOGLE_MAPS_API_KEY : option string;
  env_WORK_LAT : option float;
  env_WORK_LNG : option float;
  env_DETOUR_THRESHOLD_MIN : option float;
  env_DISTANCE_THRESHOLD_MI : option float
}.

Definition env_or (v : option float) (dflt : float) : float :=
  match v with Some x => x | None => dflt end.

(** Workplace destination (Epic's Verona campus). *)
Definition WORK_LAT (w : World) : float := env_or (env_WORK_LAT w) 42.9914.
Definition WORK_LNG (w : World) : float := env_or (env_WORK_LNG w) (-89.5326).

Definition DETOUR_THRESHOLD (w : World) : float := env_or (env_DETOUR_THRESHOLD_MIN w) 15.
Definition DISTANCE_THRESHOLD (w : World) : float := env_or (env_DISTANCE_THRESHOLD_MI w) 30.
Definition W_DETOUR : float := 1.0.
Definition W_OVERLAP : float := 0.5.

(** [apiKey] when it is truthy: set and not the empty string. *)
Definition apiKey (w : World) : option string :=
  match GOOGLE_MAPS_API_KEY w with
  | Some k => if k =? "" then None else Some k
  | None => None
  end.

(** ** The response *)

Record match_summary := {
  s_id : string;
  partner_name : string;
  s_direction : string;
  s_detour_minutes : float;
  s_time_overlap_minutes : float;
  s_rank_score : float
}.

Inductive body :=
| ErrorBody (error : string)
| ComputeBody (computed : nat) (matches : list match_summary).

Record response := { status : nat; json : body }.

(** ** POST /compute: compute matches for the current user *)

Section Handler.
Context {M : MathImpl}.
Variable w : World.

Definition point_of (u : user_row) : point :=
  {| lat := num (home_lat u); lng := num (home_lng u) |}.

Definition workPoint : point := {| lat := WORK_LAT w; lng := WORK_LNG w |}.

(** Haversine pre-filter: only keep candidates within DISTANCE_THRESHOLD miles. *)
Definition prefilter (currentUser : user_row) (otherUsers : list user_row)
  : list user_row :=
  filter (fun other =>
            PrimFloat.leb
              (haversine (num (home_lat currentUser)) (num (home_lng currentUser))
                         (num (home_lat other)) (num (home_lng other)))
              (DISTANCE_THRESHOLD w))
         otherUsers.

(** [driverToRiderMin], [driverToWorkMin] and [riderToWorkMin]. *)
Record drive_times := {
  driverToRiderMin : option (list duration);
  driverToWorkMin : duration;
  riderToWorkMin : option (list duration)
}.

Definition no_drive_times : drive_times :=
  {| driverToRiderMin := None; driverToWorkMin := Unavailable; riderToWorkMin := None |}.

Definition request1 (currentUser : user_row) (candidates : list user_row) (k : string)
  : dm_request :=
  {| origins := [point_of currentUser];
     destinations := map point_of candidates ++ [workPoint];
     key := k |}.

Definition request2 (candidates : list user_row) (k : string) : dm_request :=
  {| origins := map point_of candidates;
     destinations := [workPoint];
     key := k |}.

(** Fetch real drive times via the Distance Matrix API if available: the
    block [if (apiKey && candidates.length > 0) { try { ... } catch { ... } }].
    An exception leaves the variables as they were when it was thrown. *)
Definition fetch_drive_times (currentUser : user_row) (candidates : list user_row)
  : drive_times * list event :=
  match apiKey w with
  | Some k =>
      if (0 <? List.length candidates)%nat then
        let candidatePoints := map point_of candidates in
        let req1 := request1 currentUser candidates k in
        let req2 := request2 candidates k in
        (* Call 1: currentUser -> candidates + work *)
        match getDistanceMatrixMinutes (fetch w) [point_of currentUser]
                (candidatePoints ++ [workPoint]) k with
        | Thrown => (no_drive_times, [EvFetch req1; EvConsoleError])
        | Returned call1 =>
            let assigned : outcome (option (list duration) * duration) :=
              match call1 with
              | None => Returned (None, Unavailable)
              | Some rows =>
                  match rows with
                  | [] => Thrown   (* call1[0] is undefined *)
                  | row0 :: _ =>
                      Returned (Some (firstn (List.length candidates) row0),
                                nth (List.length candidates) row0 Missing)
                  end
              end in
            match assigned with
            | Thrown => (no_drive_times, [EvFetch req1; EvConsoleError])
            | Returned (d2r, d2w) =>
                (* Call 2: candidates -> work *)
                match getDistanceMatrixMinutes (fetch w) candidatePoints [workPoint] k with
                | Thrown =>
                    ({| driverToRiderMin := d2r; driverToWorkMin := d2w;
                        riderToWorkMin := None |},
                     [EvFetch req1; EvFetch req2; EvConsoleError])
                | Returned call2 =>
                    ({| driverToRiderMin := d2r; driverToWorkMin := d2w;
                        riderToWorkMin :=
                          option_map (map (fun row => nth 0 row Missing)) call2 |},
                     [EvFetch req1; EvFetch req2])
                end
            end
        end
      else (no_drive_times, [])
  | None => (no_drive_times, [])
  end.

Definition not_null (d : duration) : bool :=
  match d with Unavailable => false | _ => true end.

(** [ToNumber] of a [duration]. *)
Definition to_number (d : duration) : float :=
  match d with Minutes x => x | Unavailable => 0 | Missing => nan end.

(** Real drive times from Distance Matrix (if available), else Haversine
    fallback. *)
Definition detourMinutes_of (t : drive_times) (currentUser other : user_row) (i : nat)
  : float :=
  let fallback :=
    let directToWork :=
      haversine (num (home_lat currentUser)) (num (home_lng currentUser))
                (WORK_LAT w) (WORK_LNG w) in
    let viaOther :=
      haversine (num (home_lat currentUser)) (num (home_lng currentUser))
                (num (home_lat other)) (num (home_lng other)) +
      haversine (num (home_lat other)) (num (home_lng other))
                (WORK_LAT w) (WORK_LNG w) in
    Math_max 0 ((viaOther - directToWork) * 2) in
  match driverToRiderMin t, riderToWorkMin t with
  | Some d2r, Some r2w =>
      if not_null (driverToWorkMin t)
         && not_null (nth i d2r Missing) && not_null (nth i r2w Missing)
      then
        Math_max 0 (to_number (nth i d2r Missing) + to_number (nth i r2w Missing)
                    - to_number (driverToWorkMin t))
      else fallback
  | _, _ => fallback
  end.

(** The state the candidate loop carries. *)
Record loop_state := {
  newMatches : list match_summary;
  cur_db : DB;
  trace : list event;
  uuid_count : nat
}.

(** The body of the two inner loops, for one pair of preferences. *)
Definition pair_step (userId : string) (other : user_row) (detourMinutes : float)
  (myPref otherPref : pref_row) (st : loop_state) : loop_state :=
  if negb (direction myPref =? direction otherPref) then st
  else if negb (rolesCompatible (role myPref) (role otherPref)) then st
  else
    let ov :=
      computeOverlap
        (earliest_time myPref) (latest_time myPref) (days_of_week myPref)
        (earliest_time otherPref) (latest_time otherPref) (days_of_week otherPref) in
    if PrimFloat.eqb (overlapMinutes ov) 0 || (List.length (commonDays ov) =? 0)%nat
    then st
    else
      let rankScore := detourMinutes * W_DETOUR - overlapMinutes ov * W_OVERLAP in
      let matchId := uuidv4 w (uuid_count st) in
      let row :=
        {| match_id := matchId; user_a_id := userId; user_b_id := id other;
           match_direction := direction myPref;
           detour_minutes := detourMinutes;
           time_overlap_minutes := overlapMinutes ov;
           rank_score := rankScore |} in
      {| newMatches :=
           newMatches st ++
           [{| s_id := matchId;
               partner_name := display_name other;
               s_direction := direction myPref;
               s_detour_minutes := Math_round (detourMinutes * 10) / 10;
               s_time_overlap_minutes := overlapMinutes ov;
               s_rank_score := Math_round (rankScore * 10) / 10 |}];
         cur_db := insert_match (cur_db st) row;
         trace := trace st ++ [EvQuery (QInsertMatch row)];
         uuid_count := S (uuid_count st) |}.

(** [for (const myPref of myPrefs) for (const otherPref of otherPrefs) ...] *)
Definition pairing_loops (userId : string) (other : user_row) (detourMinutes : float)
  (myPrefs otherPrefs : list pref_row) (st : loop_state) : loop_state :=
  fold_left
    (fun st myPref =>
       fold_left (fun st otherPref => pair_step userId other detourMinutes myPref otherPref st)
                 otherPrefs st)
    myPrefs st.

(** The body of the candidate loop, for candidate [i]. *)
Definition candidate_step (userId : string) (currentUser : user_row)
  (myPrefs : list pref_row) (t : drive_times)
  (i : nat) (other : user_row) (st : loop_state) : loop_state :=
  let otherPrefs := select_prefs (cur_db st) (id other) in
  let st :=
    {| newMatches := newMatches st; cur_db := cur_db st;
       trace := trace st ++ [EvQuery (QPrefsByUser (id other))];
       uuid_count := uuid_count st |} in
  let detourMinutes := detourMinutes_of t currentUser other i in
  if PrimFloat.ltb (DETOUR_THRESHOLD w) detourMinutes then st
  else pairing_loops userId other detourMinutes myPrefs otherPrefs st.

(** [for (let i = 0; i < candidates.length; i++)], from index [i] on. *)
Fixpoint candidate_loop (userId : string) (currentUser : user_row)
  (myPrefs : list pref_row) (t : drive_times)
  (i : nat) (rest : list user_row) (st : loop_state) : loop_state :=
  match rest with
  | [] => st
  | other :: rest' =>
      candidate_loop userId currentUser myPrefs t (S i) rest'
        (candidate_step userId currentUser myPrefs t i other st)
  end.

(** The handler, for the authenticated user [userId]: the response, the
    database it leaves, and what it did. *)
Definition compute (db : DB) (userId : string) : response * DB * list event :=
  let userRows := select_user db userId in
  let tr := [EvQuery (QUserById userId)] in
  let no_home :=
    ({| status := 400; json := ErrorBody "Please set your home address first" |},
     db, tr) in
  match userRows with
  | [] => no_home
  | currentUser :: _ =>
      if falsy (home_lat currentUser) || falsy (home_lng currentUser) then no_home
      else
        let myPrefs := select_prefs db userId in
        let tr := tr ++ [EvQuery (QPrefsByUser userId)] in
        if (List.length myPrefs =? 0)%nat then
          ({| status := 400;
              json := ErrorBody "Please set your commute preferences first" |},
           db, tr)
        else
          (* Get all other users with addresses *)
          let otherUsers := select_other_users db userId in
          let tr := tr ++ [EvQuery (QOtherUsers userId)] in
          (* Clear old matches for this user *)
          let db := delete_matches db userId in
          let tr := tr ++ [EvQuery (QDeleteMatches userId)] in
          let candidates := prefilter currentUser otherUsers in
          let '(t, fetched) := fetch_drive_times currentUser candidates in
          let st :=
            candidate_loop userId currentUser myPrefs t 0 candidates
              {| newMatches := []; cur_db := db; trace := tr ++ fetched;
                 uuid_count := 0 |} in
          let sorted :=
            Array_sort (fun a b => s_rank_score a - s_rank_score b) (newMatches st) in
          ({| status := 200; json := ComputeBody (List.length sorted) sorted |},
           cur_db st, trace st)
  end.

End Handler.

End Matches.

(* ================================================================== *)
(** * A reference engine                                               *)
(* ================================================================== *)

(** An instance of what is left to the implementation, used to run the
    route on concrete inputs.  The theorems below hold for every engine; only
    the worked examples name this one.  Sine and cosine reduce the argument
    by multiples of pi/2 and sum a Taylor polynomial; the arc tangent halves
    the angle three times and sums its series. *)
Module RefEngine.

Import JS.
Local Open Scope float_scope.

(** [c0 + x * (c1 + x * (c2 + ...))] *)
Fixpoint horner (cs : list float) (x : float) : float :=
  match cs with
  | [] => 0
  | c :: cs' => c + x * horner cs' x
  end.

(** [1/1!, -1/3!, 1/5!, ...] and [1/0!, -1/2!, 1/4!, ...] *)
Fixpoint alternating_inverse_factorials (n : nat) (k : float) (term : float)
  : list float :=
  match n with
  | O => []
  | S n' =>
      term :: alternating_inverse_factorials n' (k + 2)
                (- term / ((k + 1) * (k + 2)))
  end.

Definition sin_coefficients : list float := alternating_inverse_factorials 11 1 1.
Definition cos_coefficients : list float := alternating_inverse_factorials 11 0 1.

Definition sin_poly (r : float) : float := r * horner sin_coefficients (r * r).
Definition cos_poly (r : float) : float := horner cos_coefficients (r * r).

(** The integer a finite integral number stands for. *)
Definition to_Z (x : float) : Z :=
  match Prim2SF x with
  | S754_finite s m e => cond_Zopp s (Z.shiftl (Zpos m) e)
  | _ => 0%Z
  end.

Definition half_pi : float := Math_PI / 2.

(** Sine of the angle [x + q * pi/2]. *)
Definition sin_shifted (q : Z) (x : float) : float :=
  if is_finite x then
    let k := Math_round (x / half_pi) in
    let r := x - k * half_pi in
    match ((to_Z k + q) mod 4)%Z with
    | 0%Z => sin_poly r
    | 1%Z => cos_poly r
    | 2%Z => - sin_poly r
    | _ => - cos_poly r
    end
  else nan.

Definition sin (x : float) : float := if is_zero x then x else sin_shifted 0 x.
Definition cos (x : float) : float := sin_shifted 1 x.

(** [1, -1/3, 1/5, ...] *)
Fixpoint alternating_inverse_odds (n : nat) (k : float) (sign : float) : list float :=
  match n with
  | O => []
  | S n' => sign / k :: alternating_inverse_odds n' (k + 2) (- sign)
  end.

Definition atan_coefficients : list float := alternating_inverse_odds 12 1 1.

Definition halve_angle (t : float) : float := t / (1 + PrimFloat.sqrt (1 + t * t)).

(** Arc tangent of [t] for [|t| <= 1]. *)
Definition atan_unit (t : float) : float :=
  let t := halve_angle (halve_angle (halve_angle t)) in
  8 * (t * horner atan_coefficients (t * t)).

(** Arc tangent of [y / x] for [x > 0], [y >= 0] (or a zero [y] of either sign). *)
Definition atan_ratio (y x : float) : float :=
  if PrimFloat.leb y x then
    (if is_infinity x then (if is_infinity y then Math_PI / 4 else y / x)
     else atan_unit (y / x))
  else half_pi - (if is_infinity y then 0 else atan_unit (x / y)).

(** The angle of the point [(x, y)], in [-pi, pi]. *)
Definition atan2 (y x : float) : float :=
  if is_nan y || is_nan x then nan
  else
    let ay := abs y in
    let ax := abs x in
    let first :=
      if is_zero ax then (if is_zero ay then 0 else half_pi)
      else atan_ratio ay ax in
    let upper := if get_sign x then Math_PI - first else first in
    if get_sign y then - upper else upper.

(** With a comparison function that is not consistent, this engine leaves
    the elements in the order it found them. *)
Definition engine : MathImpl :=
  {| Math_sin := sin; Math_cos := cos; Math_atan2 := atan2;
     Array_sort_next := fun _ _ _ _ => O |}.

End RefEngine.

(* ================================================================== *)
(** * The specification's functions, where a claim compares them with the code *)
(* ================================================================== *)

Module Spec.

Import JS.

(** What [minutesOfDay(text)] yields according to the specification: the
    minutes since midnight, or a [FormatError]. *)
Inductive parsed :=
| MinutesOfDay (n : Z)
| FormatError.

Definition two_digits (a b : ascii) : option Z :=
  if is_digit a && is_digit b then Some (10 * digit_val a + digit_val b)%Z
  else None.

(** [minutesOfDay]: a string of two digits, a colon and two digits is read
    as hours and minutes; any other string is a [FormatError]. *)
Definition minutesOfDay (text : string) : parsed :=
  match text with
  | String h1 (String h2 (String c (String m1 (String m2 EmptyString)))) =>
      if Ascii.eqb c ":" then
        match two_digits h1 h2, two_digits m1 m2 with
        | Some h, Some m => MinutesOfDay (h * 60 + m)
        | _, _ => FormatError
        end
      else FormatError
  | _ => FormatError
  end.

End Spec.

(* ================================================================== *)
(** * Worked inputs                                                    *)
(* ================================================================== *)

(** The users, preferences and services of the worked examples; they follow
    the fixtures of the route's test suite. *)
Module Scenario.

Import JS Matches.
Local Open Scope string_scope.
Local Open Scope list_scope.

Definition uuid (n : nat) : string :=
  "match-" ++ NilEmpty.string_of_uint (Nat.to_uint n).

Definition user (uid name : string) (lat lng : float) : user_row :=
  {| id := uid; display_name := name; home_lat := Some lat; home_lng := Some lng |}.

Definition requester : user_row := user "user-1" "User" 43.07 (-89.4).
Definition jane : user_row := user "user-2" "Jane" 43.08 (-89.4).
(** about sixteen miles north *)
Definition jane_far : user_row := user "user-2" "Jane" 43.3 (-89.4).
Definition sam : user_row := user "user-3" "Sam" 43.06 (-89.41).
(** about eighty miles east *)
Definition milo : user_row := user "user-4" "Milo" 43.0389 (-87.9065).
Definition homeless : user_row :=
  {| id := "user-1"; display_name := "User"; home_lat := None; home_lng := None |}.

Definition to_work (uid r : string) : pref_row :=
  {| user_id := uid; direction := "TO_WORK";
     earliest_time := "07:00"; latest_time := "08:30";
     days_of_week := [0; 1; 2]%Z; role := r |}.

Definition stale : match_row :=
  {| match_id := "old"; user_a_id := "user-9"; user_b_id := "user-1";
     match_direction := "TO_WORK"; detour_minutes := 3;
     time_overlap_minutes := 60; rank_score := -27 |}.

Definition db_of (us : list user_row) (ps : list pref_row) : DB :=
  {| users := us; commute_preferences := ps; match_results := [stale] |}.

Definition db_near : DB :=
  db_of [requester; jane] [to_work "user-1" "EITHER"; to_work "user-2" "DRIVER"].
Definition db_far : DB :=
  db_of [requester; jane_far] [to_work "user-1" "EITHER"; to_work "user-2" "DRIVER"].
Definition db_two : DB :=
  db_of [requester; jane; sam; milo]
        [to_work "user-1" "EITHER"; to_work "user-2" "DRIVER";
         to_work "user-3" "DRIVER"; to_work "user-4" "DRIVER"].
Definition db_no_home : DB := db_of [homeless; jane] [to_work "user-1" "EITHER"].
Definition db_no_prefs : DB := db_of [requester; jane] [to_work "user-2" "DRIVER"].

(** No routing key configured. *)
Definition offline : World :=
  {| fetch := fun _ => FetchRejected;
     uuidv4 := uuid;
     GOOGLE_MAPS_API_KEY := None;
     env_WORK_LAT := None; env_WORK_LNG := None;
     env_DETOUR_THRESHOLD_MIN := None; env_DISTANCE_THRESHOLD_MI := None |}.

Definition with_fetch (f : dm_request -> fetch_result) : World :=
  {| fetch := f;
     uuidv4 := uuid;
     GOOGLE_MAPS_API_KEY := Some "test-key";
     env_WORK_LAT := None; env_WORK_LNG := None;
     env_DETOUR_THRESHOLD_MIN := None; env_DISTANCE_THRESHOLD_MI := None |}.

Definition ok (seconds : float) : dm_element :=
  {| el_status := "OK"; duration_value := seconds |}.

(** A routing service that answers the first call (one origin, several
    destinations) with the row [call1] and the second call (one destination)
    with the rows [call2]. *)
Definition routed (call1 : list dm_element) (call2 : list (list dm_element)) : World :=
  with_fetch (fun r =>
    if (List.length (destinations r) =? 1)%nat
    then FetchJson {| dm_status := "OK"; dm_rows := call2 |}
    else FetchJson {| dm_status := "OK"; dm_rows := [call1] |}).

(** Jane's first leg takes 602 s and Sam's 600 s; the other legs agree. *)
Definition tie : World :=
  routed [ok 602; ok 600; ok 1200] [[ok 900]; [ok 900]].



(** The loop state a run starts its candidates from. *)
Definition start (db : DB) (evs : list event) : loop_state :=
  {| newMatches := []; cur_db := db; trace := evs; uuid_count := 0 |}.

(** A routing service whose transport fails. *)
Definition unreachable : World := with_fetch (fun _ => FetchRejected).

(** A routing service that denies every request. *)
Definition denied : World :=
  with_fetch (fun _ => FetchJson {| dm_status := "REQUEST_DENIED"; dm_rows := [] |}).

End Scenario.

(* ================================================================== *)
(** * The tables, with the columns the other routes name               *)
(* ================================================================== *)

Module Tables.

Import JS Matches.

(** A row of [users]: the columns the matching code reads, as a [user_row],
    and the others the routes name.  [updated_at] is a reading of the
    database clock. *)
Record account := {
  user : user_row;
  google_id : string;
  email : string;
  avatar_url : option string;
  home_address : option string;
  home_neighborhood : option string;
  notify_email : bool;
  updated_at : nat
}.

(** A row of [commute_preferences]: its primary key and the columns the
    matching code reads.  [days_of_week] is written as [JSON.stringify] of an
    array of day indices and read back as that array. *)
Record pref_entry := {
  pref_id : string;
  pref : pref_row
}.

(** A row of [interests]; (from_user_id, to_user_id, direction) is unique. *)
Record interest_row := {
  interest_id : string;
  from_user_id : string;
  to_user_id : string;
  interest_direction : string
}.

(** The truthiness of a value of type [string | null | undefined]. *)
Definition truthy (v : option string) : bool :=
  match v with
  | Some s => negb (String.eqb s EmptyString)
  | None => false
  end.

(** [a || b] on values of type [string | null | undefined]. *)
Definition or_else (a b : option string) : option string :=
  if truthy a then a else b.

(** [v || null]. *)
Definition or_null (v : option string) : option string := or_else v None.

(** [v || dflt] for a string default. *)
Definition or_default (v : option string) (dflt : string) : string :=
  match or_null v with Some s => s | None => dflt end.

(** SELECT * FROM users WHERE id = $1 *)
Definition select_account (accounts : list account) (uid : string) : list account :=
  filter (fun a => String.eqb (id (user a)) uid) accounts.

(** The database the matching code sees. *)
Definition view (accounts : list account) (preferences : list pref_entry)
  (matches : list match_row) : DB :=
  {| users := map user accounts;
     commute_preferences := map pref preferences;
     match_results := matches |}.

End Tables.

(* ================================================================== *)
(** * routes/matches.ts: GET /                                         *)
(* ================================================================== *)

Module MatchList.

Import JS Matches Tables.
Local Open Scope string_scope.
Local Open Scope list_scope.

(** An element of the response: the columns of the match row ([mr.*]) and
    the partner's columns, [partner_neighborhood] replaced by
    [partner_address]. *)
Record item := {
  mr : match_row;
  partner_name : string;
  partner_avatar : option string;
  partner_id : string;
  i_expressed_interest : bool;
  they_expressed_interest : bool;
  partner_address : option string
}.

(** The order of [double precision] values in PostgreSQL: NaN is equal to
    itself and greater than every other value; the two zeros are equal. *)
Definition float8_lt (a b : float) : bool :=
  if is_nan a then false
  else if is_nan b then true
  else PrimFloat.ltb a b.

Section OrderBy.
Context {A : Type}.
Variable column : A -> float.

Fixpoint insert_row (x : A) (sorted : list A) : list A :=
  match sorted with
  | [] => [x]
  | y :: rest =>
      if float8_lt (column y) (column x) then y :: insert_row x rest
      else x :: sorted
  end.

(** ORDER BY column ASC.  SQL leaves the order of rows with equal keys
    open; the model keeps them in the order of the input. *)
Definition order_by (rows : list A) : list A := fold_right insert_row [] rows.

End OrderBy.

(** EXISTS(SELECT 1 FROM interests i WHERE i.from_user_id = [from]
    AND i.to_user_id = [to] AND i.direction = [dir]) *)
Definition interest_exists (interests : list interest_row) (from to dir : string) : bool :=
  existsb (fun i => (from_user_id i =? from) && (to_user_id i =? to)
                    && (interest_direction i =? dir))
          interests.

(** FROM match_results mr JOIN users u1 ON mr.user_a_id = u1.id
    JOIN users u2 ON mr.user_b_id = u2.id
    WHERE mr.user_a_id = $1 OR mr.user_b_id = $1 *)
Definition joined (accounts : list account) (matches : list match_row) (userId : string)
  : list (match_row * account * account) :=
  flat_map (fun r =>
    flat_map (fun u1 =>
      flat_map (fun u2 =>
        if (user_a_id r =? id (user u1)) && (user_b_id r =? id (user u2))
           && ((user_a_id r =? userId) || (user_b_id r =? userId))
        then [(r, u1, u2)] else [])
        accounts)
      accounts)
    matches.

(** The select list, with its CASE expressions, followed by the handler's
    [sanitized] mapping: [partner_address: partner_neighborhood || null]. *)
Definition select_item (interests : list interest_row) (userId : string)
  (j : match_row * account * account) : item :=
  let '(r, u1, u2) := j in
  let mine := user_a_id r =? userId in
  let partner := if mine then u2 else u1 in
  let partnerId := if mine then user_b_id r else user_a_id r in
  {| mr := r;
     partner_name := display_name (user partner);
     partner_avatar := avatar_url partner;
     partner_id := partnerId;
     i_expressed_interest := interest_exists interests userId partnerId (match_direction r);
     they_expressed_interest := interest_exists interests partnerId userId (match_direction r);
     partner_address := or_null (home_neighborhood partner) |}.

(** Get matches for current user: the body of the 200 response. *)
Definition get_matches (accounts : list account) (matches : list match_row)
  (interests : list interest_row) (userId : string) : list item :=
  map (select_item interests userId)
      (order_by (fun j => rank_score (fst (fst j))) (joined accounts matches userId)).

End MatchList.

(* ================================================================== *)
(** * routes/profile.ts                                                *)
(* ================================================================== *)

Module Profile.

Import JS Matches Tables.
Local Open Scope string_scope.
Local Open Scope list_scope.

(** The body of a PUT request: each field absent (or null), or of the type
    the client sends. *)
Record put_body := {
  b_home_address : option string;
  b_home_lat : option float;
  b_home_lng : option float
}.

(** The geocoding request: the address, which the URL carries through
    [encodeURIComponent], and the key as the environment has it. *)
Record geocode_request := {
  address : string;
  geocode_key : option string
}.

(** The JSON payload of a geocoding response. *)
Record address_component := {
  types : list string;
  long_name : string
}.

Record geocode_hit := {
  location : point;
  address_components : option (list address_component)
}.

Record geocode_data := { results : option (list geocode_hit) }.

(** [await fetch(url)] then [await resp.json()]: a payload, or a rejection. *)
Inductive geocode_result :=
| GeocodeRejected
| GeocodeJson (data : geocode_data).

Inductive event :=
| EvGeocode (r : geocode_request)
| EvConsoleError.

Inductive body :=
| ErrorBody (error : string)
| UserBody (row : option account).

Record response := { status : nat; json : body }.

(** Get profile. *)
Definition get (accounts : list account) (userId : string) : response :=
  match select_account accounts userId with
  | [] => {| status := 404; json := ErrorBody "User not found" |}
  | row :: _ => {| status := 200; json := UserBody (Some row) |}
  end.

(** [components.find(c => c.types.includes(type))?.long_name] *)
Definition find_component (components : list address_component) (type : string)
  : option string :=
  option_map long_name (find (fun c => existsb (String.eqb type) (types c)) components).

(** Extract neighborhood from address_components.
    Priority: neighborhood > sublocality > locality. *)
Definition neighborhood_of (components : list address_component) : option string :=
  or_null
    (or_else (find_component components "neighborhood")
       (or_else (find_component components "sublocality_level_1")
          (or_else (find_component components "sublocality")
             (find_component components "locality")))).

(** [v || null] for a coordinate. *)
Definition coordinate_or_null (v : option float) : option float :=
  if falsy v then None else v.

(** The values of [lat], [lng] and [neighborhood] when the UPDATE is issued,
    and what the handler did to get them. *)
Definition resolve (geocode : geocode_request -> geocode_result) (apiKey : option string)
  (b : put_body) : option float * option float * option string * list event :=
  let lat := b_home_lat b in
  let lng := b_home_lng b in
  match b_home_address b with
  | Some home_address =>
      if truthy (Some home_address) && (falsy lat || falsy lng) then
        let req := {| address := home_address; geocode_key := apiKey |} in
        match geocode req with
        | GeocodeRejected => (lat, lng, None, [EvGeocode req; EvConsoleError])
        | GeocodeJson data =>
            match results data with
            | Some (result :: _) =>
                let components :=
                  match address_components result with
                  | Some cs => cs
                  | None => []
                  end in
                (Some (Matches.lat (location result)), Some (Matches.lng (location result)),
                 neighborhood_of components, [EvGeocode req])
            | _ => (lat, lng, None, [EvGeocode req])
            end
        end
      else (lat, lng, None, [])
  | None => (lat, lng, None, [])
  end.

(** UPDATE users SET home_address = $1, home_lat = $2, home_lng = $3,
    home_neighborhood = $4, updated_at = NOW() WHERE id = $5 *)
Definition update_home (now : nat) (accounts : list account) (userId : string)
  (address : option string) (lat lng : option float) (neighborhood : option string)
  : list account :=
  map (fun a =>
         if id (user a) =? userId then
           {| user := {| id := id (user a);
                         display_name := display_name (user a);
                         home_lat := lat;
                         home_lng := lng |};
              google_id := google_id a;
              email := email a;
              avatar_url := avatar_url a;
              home_address := address;
              home_neighborhood := neighborhood;
              notify_email := notify_email a;
              updated_at := now |}
         else a)
      accounts.

(** Update profile (home address + geocoded coordinates): the response, the
    table it leaves, and what it did. *)
Definition put (geocode : geocode_request -> geocode_result) (apiKey : option string)
  (now : nat) (accounts : list account) (userId : string) (b : put_body)
  : response * list account * list event :=
  let '(lat, lng, neighborhood, evs) := resolve geocode apiKey b in
  let accounts :=
    update_home now accounts userId (or_null (b_home_address b))
                (coordinate_or_null lat) (coordinate_or_null lng) neighborhood in
  ({| status := 200; json := UserBody (hd_error (select_account accounts userId)) |},
   accounts, evs).

End Profile.

(* ================================================================== *)
(** * routes/preferences.ts                                            *)
(* ================================================================== *)

Module Preferences.

Import JS Matches Tables.
Local Open Scope string_scope.
Local Open Scope list_scope.

(** The [days_of_week] field of a body: an array of day indices, or another
    JSON value, of which only its truthiness matters. *)
Inductive days_value :=
| DaysArray (days : list Z)
| NotAnArray (is_truthy : bool).

(** A field of the body where the route expects a string: a string, or
    another JSON value (a number, a boolean, an array or an object).  Of
    such a value the route sees its truthiness and the string that
    [ToString] makes of it, as [["07:00"]] gives ["07:00"]; [ToString]
    throws when an object has own [toString] and [valueOf] members, which
    JSON cannot make callable. *)
Inductive text_value :=
| Text (s : string)
| NotText (is_truthy : bool) (to_string : option string).

Definition truthy_text (v : option text_value) : bool :=
  match v with
  | Some (Text s) => truthy (Some s)
  | Some (NotText t _) => t
  | None => false
  end.

(** The body of a PUT request, as [express.json()] parses it: each field
    absent (or null), or a JSON value. *)
Record put_body := {
  b_direction : option text_value;
  b_earliest_time : option text_value;
  b_latest_time : option text_value;
  b_days_of_week : option days_value;
  b_role : option text_value
}.

Definition truthy_days (v : option days_value) : bool :=
  match v with
  | Some (DaysArray _) => true
  | Some (NotAnArray t) => t
  | None => false
  end.

Inductive body :=
| ErrorBody (error : string)
| RowsBody (rows : list pref_entry)
| OkBody.

Record response := { status : nat; json : body }.

(** SELECT * FROM commute_preferences WHERE user_id = $1 *)
Definition select_entries (table : list pref_entry) (uid : string) : list pref_entry :=
  filter (fun r => user_id (pref r) =? uid) table.

(** Get preferences for current user. *)
Definition get (table : list pref_entry) (userId : string) : response :=
  {| status := 200; json := RowsBody (select_entries table userId) |}.

(** [/^\d{2}:\d{2}$/.test(s)] *)
Definition timeRe_test (s : string) : bool :=
  match s with
  | String h1 (String h2 (String c (String m1 (String m2 EmptyString)))) =>
      is_digit h1 && is_digit h2 && Ascii.eqb c ":" && is_digit m1 && is_digit m2
  | _ => false
  end.

(** [timeRe.test(v)]: the pattern is tested on [ToString(v)]. *)
Definition timeRe_test_value (v : text_value) : outcome bool :=
  match v with
  | Text s => Returned (timeRe_test s)
  | NotText _ (Some s) => Returned (timeRe_test s)
  | NotText _ None => Thrown
  end.

(** [list.includes(s)] on strings. *)
Definition includes_string (l : list string) (s : string) : bool :=
  existsb (String.eqb s) l.

(** [list.includes(v)] for a list of strings: no other value is strictly
    equal to a string. *)
Definition includes_value (l : list string) (v : text_value) : bool :=
  match v with
  | Text s => includes_string l s
  | NotText _ _ => false
  end.

(** SELECT id FROM commute_preferences WHERE user_id = $1 AND direction = $2 *)
Definition select_existing (table : list pref_entry) (uid dir : string) : list pref_entry :=
  filter (fun r => (user_id (pref r) =? uid) && (direction (pref r) =? dir)) table.

(** UPDATE commute_preferences SET earliest_time = $1, latest_time = $2,
    days_of_week = $3, role = $4 WHERE id = $5 *)
Definition update_entry (table : list pref_entry)
  (earliest latest : string) (days : list Z) (r : string) (pid : string)
  : list pref_entry :=
  map (fun e =>
         if pref_id e =? pid then
           {| pref_id := pref_id e;
              pref := {| user_id := user_id (pref e);
                         direction := direction (pref e);
                         earliest_time := earliest;
                         latest_time := latest;
                         days_of_week := days;
                         role := r |} |}
         else e)
      table.

(** INSERT INTO commute_preferences (id, user_id, direction, earliest_time,
    latest_time, days_of_week, role) VALUES (...) *)
Definition insert_entry (table : list pref_entry) (e : pref_entry) : list pref_entry :=
  table ++ [e].

Definition reject (table : list pref_entry) (error : string)
  : outcome response * list pref_entry :=
  (Returned {| status := 400; json := ErrorBody error |}, table).

(** The handler throws (a [TypeError]) and sends no response. *)
Definition throw (table : list pref_entry) : outcome response * list pref_entry :=
  (Thrown, table).

(** The rest of the handler, once the fields are validated: the comparison
    of the two times and the upsert. *)
Definition upsert (w : World) (table : list pref_entry) (userId : string)
  (direction earliest_time latest_time : string) (days : list Z) (role : string)
  : outcome response * list pref_entry :=
  let e := map Number (split ":" earliest_time) in
  let l := map Number (split ":" latest_time) in
  let eh := nth_number 0 e in
  let em := nth_number 1 e in
  let lh := nth_number 0 l in
  let lm := nth_number 1 l in
  if PrimFloat.leb (lh * 60 + lm)%float (eh * 60 + em)%float
  then reject table "Latest departure must be after earliest departure"
  else
    let existing := select_existing table userId direction in
    let table :=
      match existing with
      | first :: _ =>
          update_entry table earliest_time latest_time days role (pref_id first)
      | [] =>
          insert_entry table
            {| pref_id := uuidv4 w 0;
               pref := {| user_id := userId;
                          Matches.direction := direction;
                          earliest_time := earliest_time;
                          latest_time := latest_time;
                          days_of_week := days;
                          Matches.role := role |} |}
      end in
    (Returned {| status := 200; json := RowsBody (select_entries table userId) |}, table).

(** Upsert preference (by direction): the response, if the handler sends
    one, and the table it leaves. *)
Definition put (w : World) (table : list pref_entry) (userId : string) (b : put_body)
  : outcome response * list pref_entry :=
  match b_direction b, b_earliest_time b, b_latest_time b, b_days_of_week b, b_role b with
  | Some direction, Some earliest_time, Some latest_time, Some days_of_week, Some role =>
      if negb (truthy_text (Some direction)) || negb (truthy_text (Some earliest_time))
         || negb (truthy_text (Some latest_time)) || negb (truthy_days (Some days_of_week))
         || negb (truthy_text (Some role))
      then reject table "Missing required fields"
      else if negb (includes_value ["TO_WORK"; "FROM_WORK"] direction)
      then reject table "Invalid direction"
      else if negb (includes_value ["DRIVER"; "RIDER"; "EITHER"] role)
      then reject table "Invalid role"
      else
        match days_of_week with
        | NotAnArray _ => reject table "Select at least one day"
        | DaysArray days =>
            if (List.length days =? 0)%nat then reject table "Select at least one day"
            else
              (* !timeRe.test(earliest_time) || !timeRe.test(latest_time) *)
              match timeRe_test_value earliest_time with
              | Thrown => throw table
              | Returned false => reject table "Invalid time format"
              | Returned true =>
                  match timeRe_test_value latest_time with
                  | Thrown => throw table
                  | Returned false => reject table "Invalid time format"
                  | Returned true =>
                      (* earliest_time.split(':'), latest_time.split(':') *)
                      match direction, earliest_time, latest_time, role with
                      | Text direction, Text earliest_time, Text latest_time, Text role =>
                          upsert w table userId direction earliest_time latest_time
                                 days role
                      | _, _, _, _ => throw table
                      end
                  end
              end
        end
  | _, _, _, _, _ => reject table "Missing required fields"
  end.

(** Delete a preference:
    DELETE FROM commute_preferences WHERE user_id = $1 AND direction = $2 *)
Definition delete (table : list pref_entry) (userId direction : string)
  : response * list pref_entry :=
  ({| status := 200; json := OkBody |},
   filter (fun r => negb ((user_id (pref r) =? userId)
                          && (Matches.direction (pref r) =? direction)))
          table).

End Preferences.

(* ================================================================== *)
(** * email.ts                                                         *)
(* ================================================================== *)

Module Email.

Import Tables.
Local Open Scope string_scope.
Local Open Scope list_scope.

Record InterestEmailParams := {
  toEmail : string;
  toName : string;
  fromName : string;
  direction : string;
  appUrl : string;
  isMutual : bool
}.

(** The message handed to [sgMail.send]. *)
Record message := {
  to : string;
  from : string;
  subject : string;
  text : string
}.

(** The mail service as the module sees it: the two environment variables,
    and whether [sgMail.send] resolves for a message. *)
Record Mailer := {
  SENDGRID_API_KEY : option string;
  FROM_EMAIL : option string;
  delivers : message -> bool
}.

Definition quote : string := String (ascii_of_nat 34) EmptyString.
Definition newline : string := String (ascii_of_nat 10) EmptyString.

Definition dirLabel (p : InterestEmailParams) : string :=
  if direction p =? "TO_WORK" then "to work" else "from work".

Definition subject_of (p : InterestEmailParams) : string :=
  if isMutual p
  then "Mutual carpool match with " ++ fromName p ++ "!"
  else fromName p ++ " is interested in carpooling with you".

Definition body_of (p : InterestEmailParams) : string :=
  if isMutual p
  then "Great news! You and " ++ fromName p
       ++ " have both expressed interest in carpooling " ++ dirLabel p ++ ". "
       ++ "Reply to each other's emails to coordinate — your email addresses are now mutually visible."
       ++ newline ++ newline
       ++ "View your matches: " ++ appUrl p ++ "/matches"
  else fromName p ++ " is interested in carpooling with you " ++ dirLabel p ++ "."
       ++ newline ++ newline
       ++ "If you're also interested, click " ++ quote ++ "Interested" ++ quote
       ++ " on their card and you'll both get each other's contact info."
       ++ newline ++ newline
       ++ "View your matches: " ++ appUrl p ++ "/matches".

(** [sendInterestEmail(params)]: the messages handed to the mail service,
    and whether the promise resolves. *)
Definition sendInterestEmail (mailer : Mailer) (p : InterestEmailParams)
  : list message * bool :=
  match SENDGRID_API_KEY mailer, FROM_EMAIL mailer with
  | Some apiKey, Some fromEmail =>
      if negb (truthy (Some apiKey)) || negb (truthy (Some fromEmail))
      then ([], true)   (* email not configured: skip silently *)
      else
        let m := {| to := toEmail p; from := fromEmail;
                    subject := subject_of p; text := body_of p |} in
        ([m], delivers mailer m)
  | _, _ => ([], true)
  end.

End Email.

(* ================================================================== *)
(** * routes/interests.ts                                              *)
(* ================================================================== *)

Module Interests.

Import Matches Tables.
Local Open Scope string_scope.
Local Open Scope list_scope.

(** The body of a request: each field absent (or null), or a string. *)
Record interest_body := {
  b_to_user_id : option string;
  b_direction : option string
}.

Inductive body :=
| ErrorBody (error : string)
| OkBody
| MutualBody (mutual : bool).

Record response := { status : nat; json : body }.

Inductive event :=
| EvSend (m : Email.message)
| EvConsoleError.

Definition reject (code : nat) (error : string) (interests : list interest_row)
  : response * list interest_row * list event :=
  ({| status := code; json := ErrorBody error |}, interests, []).

(** SELECT 1 FROM interests WHERE from_user_id = $1 AND to_user_id = $2
    AND direction = $3 *)
Definition select_interest (interests : list interest_row) (from to dir : string)
  : list interest_row :=
  filter (fun i => (from_user_id i =? from) && (to_user_id i =? to)
                   && (interest_direction i =? dir))
         interests.

(** INSERT INTO interests (id, from_user_id, to_user_id, direction)
    VALUES ($1, $2, $3, $4)
    ON CONFLICT (from_user_id, to_user_id, direction) DO NOTHING *)
Definition insert_interest (interests : list interest_row) (i : interest_row)
  : list interest_row :=
  match select_interest interests (from_user_id i) (to_user_id i) (interest_direction i) with
  | [] => interests ++ [i]
  | _ :: _ => interests
  end.

(** Express interest in a user for a given direction: the response, the
    [interests] table it leaves, and the mail it hands over. *)
Definition post (w : World) (mailer : Email.Mailer) (BASE_URL : option string)
  (accounts : list account) (interests : list interest_row)
  (fromUserId : string) (b : interest_body)
  : response * list interest_row * list event :=
  match b_to_user_id b, b_direction b with
  | Some to_user_id, Some direction =>
      if negb (truthy (Some to_user_id)) || negb (truthy (Some direction))
      then reject 400 "to_user_id and direction are required" interests
      else if negb (existsb (String.eqb direction) ["TO_WORK"; "FROM_WORK"])
      then reject 400 "direction must be TO_WORK or FROM_WORK" interests
      else if to_user_id =? fromUserId
      then reject 400 "Cannot express interest in yourself" interests
      else
        (* Verify target user exists *)
        match select_account accounts to_user_id with
        | [] => reject 404 "User not found" interests
        | targetUser :: _ =>
            (* Upsert interest (ignore duplicates) *)
            let interests :=
              insert_interest interests
                {| interest_id := uuidv4 w 0; from_user_id := fromUserId;
                   Tables.to_user_id := to_user_id;
                   interest_direction := direction |} in
            (* Check for mutual interest *)
            let mutualRows := select_interest interests to_user_id fromUserId direction in
            let isMutual := (0 <? List.length mutualRows)%nat in
            (* Send email notification if target has notify_email enabled *)
            let evs :=
              if notify_email targetUser then
                let fromRows := select_account accounts fromUserId in
                let fromName :=
                  or_default (option_map (fun a => display_name (user a)) (hd_error fromRows))
                             "Someone" in
                let appUrl := or_default BASE_URL "http://localhost:3000" in
                let '(sent, resolved) :=
                  Email.sendInterestEmail mailer
                    {| Email.toEmail := email targetUser;
                       Email.toName := display_name (user targetUser);
                       Email.fromName := fromName;
                       Email.direction := direction;
                       Email.appUrl := appUrl;
                       Email.isMutual := isMutual |} in
                map EvSend sent ++ (if resolved then [] else [EvConsoleError])
              else [] in
            ({| status := 200; json := MutualBody isMutual |}, interests, evs)
        end
  | _, _ => reject 400 "to_user_id and direction are required" interests
  end.

(** Withdraw interest. *)
Definition delete (interests : list interest_row) (fromUserId : string) (b : interest_body)
  : response * list interest_row :=
  match b_to_user_id b, b_direction b with
  | Some to_user_id, Some direction =>
      if negb (truthy (Some to_user_id)) || negb (truthy (Some direction))
      then ({| status := 400; json := ErrorBody "to_user_id and direction are required" |},
            interests)
      else
        ({| status := 200; json := OkBody |},
         filter (fun i => negb ((from_user_id i =? fromUserId) && (Tables.to_user_id i =? to_user_id)
                                && (interest_direction i =? direction)))
                interests)
  | _, _ => ({| status := 400; json := ErrorBody "to_user_id and direction are required" |},
             interests)
  end.

End Interests.

(* ================================================================== *)
(** * Worked inputs of the other routes                                *)
(* ================================================================== *)

(** Accounts, preferences and services for the worked examples of the
    profile, preferences, interests and match-list routes; they follow the
    fixtures of the routes' test suites and extend those of [Scenario]. *)
Module Fixtures.

Import JS Matches Tables.
Local Open Scope string_scope.
Local Open Scope list_scope.

Definition account_of (u : user_row) (mail : string) (neighborhood : option string)
  (notify : bool) : account :=
  {| user := u; google_id := "g-" ++ id u; email := mail; avatar_url := None;
     home_address := None; home_neighborhood := neighborhood;
     notify_email := notify; updated_at := 0 |}.

(** The users of [Scenario.db_two]. *)
Definition accounts : list account :=
  [account_of Scenario.requester "u@test.com" (Some "Willy Street") true;
   account_of Scenario.jane "jane@test.com" None true;
   account_of Scenario.sam "sam@test.com" (Some "Downtown") false;
   account_of Scenario.milo "milo@test.com" None true].

(** A user who has not set a home yet. *)
Definition newcomer : list account :=
  [account_of Scenario.homeless "u@test.com" None true].

Definition preferences : list pref_entry :=
  [{| pref_id := "pref-1"; pref := Scenario.to_work "user-1" "EITHER" |};
   {| pref_id := "pref-2"; pref := Scenario.to_work "user-2" "DRIVER" |}].

(** The valid body of the preferences tests. *)
Definition validPref : Preferences.put_body :=
  {| Preferences.b_direction := Some (Preferences.Text "TO_WORK");
     Preferences.b_earliest_time := Some (Preferences.Text "07:00");
     Preferences.b_latest_time := Some (Preferences.Text "08:30");
     Preferences.b_days_of_week := Some (Preferences.DaysArray [0; 1; 2; 3; 4]%Z);
     Preferences.b_role := Some (Preferences.Text "EITHER") |}.

Definition match_of (mid a b : string) (score : float) : match_row :=
  {| match_id := mid; user_a_id := a; user_b_id := b; match_direction := "TO_WORK";
     detour_minutes := 5; time_overlap_minutes := 90; rank_score := score |}.

Definition matches : list match_row :=
  [match_of "m-1" "user-1" "user-2" (-39.5);
   match_of "m-2" "user-3" "user-1" (-41);
   match_of "m-3" "user-2" "user-3" (-45)].

(** The request of the interests tests: user-2, to work. *)
Definition toJane : Interests.interest_body :=
  {| Interests.b_to_user_id := Some "user-2"; Interests.b_direction := Some "TO_WORK" |}.

Definition toRequester : Interests.interest_body :=
  {| Interests.b_to_user_id := Some "user-1"; Interests.b_direction := Some "TO_WORK" |}.

(** A configured mail service that delivers. *)
Definition mailer : Email.Mailer :=
  {| Email.SENDGRID_API_KEY := Some "SG.test";
     Email.FROM_EMAIL := Some "noreply@epic.com";
     Email.delivers := fun _ => true |}.

(** A geocoder whose transport fails. *)
Definition no_geocoder (r : Profile.geocode_request) : Profile.geocode_result :=
  Profile.GeocodeRejected.

Definition address_only : Profile.put_body :=
  {| Profile.b_home_address := Some "123 Main St";
     Profile.b_home_lat := None; Profile.b_home_lng := None |}.

End Fixtures.

Import JS Matches.

(* ================================================================== *)
(** * Auxiliary definitions of the proofs                              *)
(* ================================================================== *)

(** The mantissa of a finite number aligned to the exponent [ez], with its
    sign: the number is [signed_mantissa s m e ez * 2^ez]. *)
Definition signed_mantissa (s : bool) (m : positive) (e ez : Z) : Z :=
  cond_Zopp s (Zpos (fst (shl_align m e ez))).

(** A finite number as an integer, in units of [2^-1074]: the order of
    finite numbers is the order of these integers. *)
Definition order_key (x : float) : Z :=
  match Prim2SF x with
  | S754_finite s m e => cond_Zopp s (Zpos m * 2 ^ (e + 1074))
  | _ => 0
  end.

(** The exact lookup is unavailable for candidate [i]: a call failed as a
    whole, or one of the three durations of the candidate is [null]. *)
Definition lookup_unavailable (t : drive_times) (i : nat) : Prop :=
  driverToRiderMin t = None
  \/ riderToWorkMin t = None
  \/ driverToWorkMin t = Unavailable
  \/ (exists d2r, driverToRiderMin t = Some d2r /\ nth i d2r Missing = Unavailable)
  \/ (exists r2w, riderToWorkMin t = Some r2w /\ nth i r2w Missing = Unavailable).



(** The world [w] with other identifiers: the same services and the same
    environment, where [uuidv4()] returns [ids 0], [ids 1], ... *)
Definition with_uuid (w : World) (ids : nat -> string) : World :=
  {| fetch := fetch w;
     uuidv4 := ids;
     GOOGLE_MAPS_API_KEY := GOOGLE_MAPS_API_KEY w;
     env_WORK_LAT := env_WORK_LAT w;
     env_WORK_LNG := env_WORK_LNG w;
     env_DETOUR_THRESHOLD_MIN := env_DETOUR_THRESHOLD_MIN w;
     env_DISTANCE_THRESHOLD_MI := env_DISTANCE_THRESHOLD_MI w |}.

(** A match row without its identifier. *)
Definition row_content (r : match_row)
  : string * string * string * float * float * float :=
  (user_a_id r, user_b_id r, match_direction r,
   detour_minutes r, time_overlap_minutes r, rank_score r).

(** The users whose preferences a trace loads, in order. *)
Definition loaded_prefs (evs : list event) : list string :=
  flat_map (fun e => match e with EvQuery (QPrefsByUser u) => [u] | _ => [] end) evs.

(** The match rows a trace inserts, in order. *)
Definition inserted_rows (evs : list event) : list match_row :=
  flat_map (fun e => match e with EvQuery (QInsertMatch r) => [r] | _ => [] end) evs.

Definition is_fetch (e : event) : bool :=
  match e with EvFetch _ => true | _ => false end.

(** Two states of the candidate loop that differ only in the identifiers
    of the rows written so far, the second one in a world whose identifiers
    are [ids]. *)
Definition same_but_ids (ids : nat -> string) (st st' : loop_state) : Prop :=
  users (cur_db st) = users (cur_db st')
  /\ commute_preferences (cur_db st) = commute_preferences (cur_db st')
  /\ map row_content (inserted_rows (trace st))
     = map row_content (inserted_rows (trace st'))
  /\ map match_id (inserted_rows (trace st')) = map ids (seq 0 (uuid_count st')).

(** The summary pushed on [newMatches] for a stored row: the same
    identifier, direction and overlap, and the detour and the score rounded
    to one decimal place. *)
Definition summary_of (partner : string) (r : match_row) : match_summary :=
  {| s_id := match_id r;
     partner_name := partner;
     s_direction := match_direction r;
     s_detour_minutes := (Math_round (detour_minutes r * 10) / 10)%float;
     s_time_overlap_minutes := time_overlap_minutes r;
     s_rank_score := (Math_round (rank_score r * 10) / 10)%float |}.

(** The strings of two digits, a colon and two digits, and the minutes they
    stand for. *)
Definition decimal_digits : list ascii :=
  ["0"; "1"; "2"; "3"; "4"; "5"; "6"; "7"; "8"; "9"]%char.

Definition HHMM (h1 h2 m1 m2 : ascii) : string :=
  String h1 (String h2 (String ":"%char (String m1 (String m2 EmptyString)))).

Definition HHMM_minutes (h1 h2 m1 m2 : ascii) : Z :=
  ((10 * digit_val h1 + digit_val h2) * 60 + (10 * digit_val m1 + digit_val m2))%Z.

Section RunDefinitions.

Context {M : MathImpl}.
Variable w : World.

Local Open Scope string_scope.
Local Open Scope list_scope.

(** The haversine fallback of [detourMinutes_of], written out. *)
Definition estimated_detour (currentUser other : user_row) : float :=
  Math_max 0
    ((haversine (num (home_lat currentUser)) (num (home_lng currentUser))
                (num (home_lat other)) (num (home_lng other))
      + haversine (num (home_lat other)) (num (home_lng other))
                  (WORK_LAT w) (WORK_LNG w)
      - haversine (num (home_lat currentUser)) (num (home_lng currentUser))
                  (WORK_LAT w) (WORK_LNG w)) * 2)%float.

(** What a stretch of the candidate loop does: it appends rows to
    [match_results], their summaries to [newMatches] and events to the
    trace, and draws one identifier per row.  [P] holds of every row. *)
Definition loop_effect (P : match_row -> Prop) (st st' : loop_state) : Prop :=
  exists (added : list (string * match_row)) (evs : list event),
    newMatches st' = newMatches st ++ map (fun pr => summary_of (fst pr) (snd pr)) added
    /\ match_results (cur_db st') = match_results (cur_db st) ++ map snd added
    /\ users (cur_db st') = users (cur_db st)
    /\ commute_preferences (cur_db st') = commute_preferences (cur_db st)
    /\ trace st' = trace st ++ evs
    /\ inserted_rows evs = map snd added
    /\ existsb is_fetch evs = false
    /\ uuid_count st' = (uuid_count st + List.length added)%nat
    /\ Forall P (map snd added).

(** The row [r] is what the pairing loops write for the pair of preferences
    [myPref], [otherPref]: the two have the same direction, which is the
    row's, their roles are compatible, and their schedules overlap on a
    common day by the row's non-zero number of minutes. *)
Definition accepted_pair (myPref otherPref : pref_row) (r : match_row) : Prop :=
  let ov :=
    computeOverlap
      (earliest_time myPref) (latest_time myPref) (days_of_week myPref)
      (earliest_time otherPref) (latest_time otherPref) (days_of_week otherPref) in
  direction myPref = direction otherPref
  /\ match_direction r = direction myPref
  /\ rolesCompatible (role myPref) (role otherPref) = true
  /\ time_overlap_minutes r = overlapMinutes ov
  /\ PrimFloat.eqb (overlapMinutes ov) 0 = false
  /\ commonDays ov <> [].

(** A row as the pairing loops write it for a candidate: the candidate's
    detour, unrounded, the score computed from it, and a pair of preferences
    that it comes from. *)
Definition raw_row (userId : string) (other : user_row) (detourMinutes : float)
  (myPrefs otherPrefs : list pref_row) (r : match_row) : Prop :=
  detour_minutes r = detourMinutes
  /\ user_a_id r = userId /\ user_b_id r = id other
  /\ rank_score r
     = (detour_minutes r * W_DETOUR - time_overlap_minutes r * W_OVERLAP)%float
  /\ exists myPref otherPref,
       In myPref myPrefs /\ In otherPref otherPrefs
       /\ accepted_pair myPref otherPref r.

(** A row of the run: it pairs the user with one of the candidates, its
    detour is that candidate's, unrounded, and does not exceed the
    threshold, and it comes from one of the user's preferences and one of
    the candidate's. *)
Definition row_of_run (userId : string) (currentUser : user_row)
  (myPrefs prefs : list pref_row)
  (candidates : list user_row) (t : drive_times) (r : match_row) : Prop :=
  user_a_id r = userId
  /\ PrimFloat.ltb (DETOUR_THRESHOLD w) (detour_minutes r) = false
  /\ rank_score r
     = (detour_minutes r * W_DETOUR - time_overlap_minutes r * W_OVERLAP)%float
  /\ exists other i,
       nth_error candidates i = Some other
       /\ user_b_id r = id other
       /\ detour_minutes r = detourMinutes_of w t currentUser other i
       /\ exists myPref otherPref,
            In myPref myPrefs
            /\ In otherPref (filter (fun p => user_id p =? id other) prefs)
            /\ accepted_pair myPref otherPref r.

(** The preconditions of a run: the user has a row with a home location
    (both coordinates truthy) and at least one commute preference. *)
Definition preconditions (db : DB) (userId : string) (currentUser : user_row) : Prop :=
  hd_error (select_user db userId) = Some currentUser
  /\ falsy (home_lat currentUser) = false
  /\ falsy (home_lng currentUser) = false
  /\ select_prefs db userId <> [].

End RunDefinitions.

(** ** Auxiliary definitions for the other routes *)

Section RouteDefinitions.

Local Open Scope string_scope.
Local Open Scope list_scope.

(** *** Matches *)

(** The match row involves the user, on either side of the pair. *)
Definition involves (userId : string) (r : match_row) : bool :=
  (user_a_id r =? userId) || (user_b_id r =? userId).

(** The partner of a user in a match row. *)
Definition partner_of (userId : string) (r : match_row) : string :=
  if user_a_id r =? userId then user_b_id r else user_a_id r.

Definition account_id (a : Tables.account) : string := id (Tables.user a).

(** The rows the join of the match list produces for one match row. *)
Definition joined_row (accounts : list Tables.account) (userId : string) (r : match_row)
  : list (match_row * Tables.account * Tables.account) :=
  MatchList.joined accounts [r] userId.

(** The summary [s] is the one pushed for the stored row [r]: it carries
    the display name of the candidate of [pool] the row pairs the user with. *)
Definition named (pool : list user_row) (s : match_summary) (r : match_row) : Prop :=
  exists other,
    In other pool /\ user_b_id r = id other /\ s = summary_of (display_name other) r.

(** The summaries pushed so far are those of the rows inserted so far, in
    order. *)
Definition names_kept (pool : list user_row) (st : loop_state) : Prop :=
  Forall2 (named pool) (newMatches st) (inserted_rows (trace st)).

(** *** Preferences *)

(** A preference the route accepts: a direction and a role among the known
    ones, a non-empty array of days, and two times that the specification's
    [minutesOfDay] parses, the latest strictly after the earliest. *)
Definition valid_preference
  (direction earliest latest : string) (days : list Z) (role : string) : Prop :=
  In direction ["TO_WORK"; "FROM_WORK"]
  /\ In role ["DRIVER"; "RIDER"; "EITHER"]
  /\ days <> []
  /\ exists ne nl,
       Spec.minutesOfDay earliest = Spec.MinutesOfDay ne
       /\ Spec.minutesOfDay latest = Spec.MinutesOfDay nl
       /\ (ne < nl)%Z.

(** The body that carries a preference. *)
Definition preference_body
  (direction earliest latest : string) (days : list Z) (role : string)
  : Preferences.put_body :=
  {| Preferences.b_direction := Some (Preferences.Text direction);
     Preferences.b_earliest_time := Some (Preferences.Text earliest);
     Preferences.b_latest_time := Some (Preferences.Text latest);
     Preferences.b_days_of_week := Some (Preferences.DaysArray days);
     Preferences.b_role := Some (Preferences.Text role) |}.

(** The body that carries a preference whose times are sent as the JSON
    values [earliest] and [latest]. *)
Definition preference_body_with
  (direction : string) (earliest latest : Preferences.text_value)
  (days : list Z) (role : string) : Preferences.put_body :=
  {| Preferences.b_direction := Some (Preferences.Text direction);
     Preferences.b_earliest_time := Some earliest;
     Preferences.b_latest_time := Some latest;
     Preferences.b_days_of_week := Some (Preferences.DaysArray days);
     Preferences.b_role := Some (Preferences.Text role) |}.

(** A JSON value that is not a string and that [ToString] turns into [s],
    as the array [[s]] is. *)
Definition not_a_string (s : string) : Preferences.text_value :=
  Preferences.NotText true (Some s).

Definition valid_body (b : Preferences.put_body) : Prop :=
  exists direction earliest latest days role,
    b = preference_body direction earliest latest days role
    /\ valid_preference direction earliest latest days role.

(** A stored preference is well formed when the route would accept it. *)
Definition wellformed (p : pref_row) : Prop :=
  valid_preference (direction p) (earliest_time p) (latest_time p)
                   (days_of_week p) (role p).

(** The key of the upsert: the user and the direction. *)
Definition pref_key (e : Tables.pref_entry) : string * string :=
  (user_id (Tables.pref e), direction (Tables.pref e)).

(** The row that stores a preference. *)
Definition preference_entry (pid userId direction earliest latest : string)
  (days : list Z) (role : string) : Tables.pref_entry :=
  {| Tables.pref_id := pid;
     Tables.pref := {| user_id := userId; Matches.direction := direction;
                       earliest_time := earliest; latest_time := latest;
                       days_of_week := days; Matches.role := role |} |}.

(** What the UPDATE of the route does to one row. *)
Definition update_fn (earliest latest : string) (days : list Z) (r pid : string)
  (e : Tables.pref_entry) : Tables.pref_entry :=
  if Tables.pref_id e =? pid then
    {| Tables.pref_id := Tables.pref_id e;
       Tables.pref := {| user_id := user_id (Tables.pref e);
                         direction := direction (Tables.pref e);
                         earliest_time := earliest;
                         latest_time := latest;
                         days_of_week := days;
                         role := r |} |}
  else e.

(** *** Interests *)

(** The unique key of an interest. *)
Definition interest_key (i : Tables.interest_row) : string * string * string :=
  (Tables.from_user_id i, Tables.to_user_id i, Tables.interest_direction i).

(** A request the interests route accepts from [fromUserId]: both fields
    given, a known direction, another user, who exists. *)
Definition valid_interest (accounts : list Tables.account) (fromUserId : string)
  (b : Interests.interest_body) (to_user_id direction : string) : Prop :=
  b = {| Interests.b_to_user_id := Some to_user_id;
         Interests.b_direction := Some direction |}
  /\ to_user_id <> EmptyString
  /\ In direction ["TO_WORK"; "FROM_WORK"]
  /\ to_user_id <> fromUserId
  /\ Tables.select_account accounts to_user_id <> [].

(** What the route hands to the mail service for an accepted request, and
    the error it logs when the service rejects the message. *)
Definition notification (mailer : Email.Mailer) (BASE_URL : option string)
  (accounts : list Tables.account) (target : Tables.account)
  (fromUserId direction : string) (mutual : bool) : list Interests.event :=
  if Tables.notify_email target then
    let '(sent, resolved) :=
      Email.sendInterestEmail mailer
        {| Email.toEmail := Tables.email target;
           Email.toName := display_name (Tables.user target);
           Email.fromName :=
             Tables.or_default
               (option_map (fun a => display_name (Tables.user a))
                           (hd_error (Tables.select_account accounts fromUserId)))
               "Someone";
           Email.direction := direction;
           Email.appUrl := Tables.or_default BASE_URL "http://localhost:3000";
           Email.isMutual := mutual |} in
    map Interests.EvSend sent ++ (if resolved then [] else [Interests.EvConsoleError])
  else [].

(** The messages a trace hands to the mail service. *)
Definition sent_mail (evs : list Interests.event) : list Email.message :=
  flat_map (fun e => match e with Interests.EvSend m => [m] | _ => [] end) evs.

(** *** Profile *)

(** The columns of an account that the profile route never writes. *)
Definition identity_columns (a : Tables.account)
  : string * string * string * string * option string * bool :=
  (id (Tables.user a), display_name (Tables.user a), Tables.google_id a,
   Tables.email a, Tables.avatar_url a, Tables.notify_email a).

(** The geocoder is needed: an address is given and a coordinate is missing
    (absent, null or zero). *)
Definition needs_geocoding (b : Profile.put_body) : bool :=
  Tables.truthy (Profile.b_home_address b)
  && (falsy (Profile.b_home_lat b) || falsy (Profile.b_home_lng b)).

(** The home columns of the rows of a user: address, latitude, longitude
    and neighborhood. *)
Definition homes (accounts : list Tables.account) (userId : string)
  : list (option string * option float * option float * option string) :=
  map (fun a => (Tables.home_address a, home_lat (Tables.user a),
                 home_lng (Tables.user a), Tables.home_neighborhood a))
      (Tables.select_account accounts userId).

(** The types of address component a neighborhood is taken from, by
    priority. *)
Definition neighborhood_types : list string :=
  ["neighborhood"; "sublocality_level_1"; "sublocality"; "locality"].

End RouteDefinitions.

(* ================================================================== *)
(** * Facts about binary64 arithmetic                                  *)
(* ================================================================== *)

Section FloatFacts.

Local Open Scope float_scope.

Lemma SFcompare_refl_not_nan (x : spec_float) :
  x <> S754_nan -> SFcompare x x = Some Eq.
Proof.
  destruct x as [s | s | | s m e]; simpl; intros H; try congruence.
  - now destruct s.
  - rewrite Z.compare_refl, Pos.compare_cont_refl. now destruct s.
Qed.

Lemma is_nan_false_iff (x : float) :
  is_nan x = false <-> Prim2SF x <> S754_nan.
Proof.
  unfold is_nan. rewrite FloatAxioms.eqb_spec. unfold SFeqb. split.
  - intros H E. rewrite E in H. discriminate.
  - intros H. now rewrite SFcompare_refl_not_nan.
Qed.

Lemma ltb_true_not_nan (a b : float) :
  PrimFloat.ltb a b = true -> is_nan a = false /\ is_nan b = false.
Proof.
  rewrite FloatAxioms.ltb_spec. unfold SFltb. intros H.
  split; apply is_nan_false_iff; intros E; rewrite E in H;
    destruct (Prim2SF a), (Prim2SF b); discriminate.
Qed.

Lemma SFcompare_Lt_Gt (x y : spec_float) :
  SFcompare x y = Some Lt -> SFcompare y x = Some Gt.
Proof.
  destruct x as [s1 | s1 | | s1 m1 e1], y as [s2 | s2 | | s2 m2 e2]; simpl;
    try discriminate;
    try (destruct s1; (discriminate || reflexivity));
    try (destruct s2; (discriminate || reflexivity));
    try (destruct s1, s2; (discriminate || reflexivity)).
  assert (Hm : Pos.compare_cont Eq m2 m1 = CompOpp (Pos.compare_cont Eq m1 m2))
    by (rewrite Pos.compare_cont_antisym; reflexivity).
  rewrite Hm, (Z.compare_antisym e1 e2).
  destruct s1, s2; try (discriminate || reflexivity);
    destruct (e1 ?= e2)%Z; simpl; try (discriminate || reflexivity);
    destruct (Pos.compare_cont Eq m1 m2); simpl; (discriminate || reflexivity).
Qed.

Lemma ltb_asym (a b : float) :
  PrimFloat.ltb a b = true -> PrimFloat.ltb b a = false.
Proof.
  rewrite !FloatAxioms.ltb_spec. unfold SFltb.
  destruct (SFcompare (Prim2SF a) (Prim2SF b)) as [[ | | ] | ] eqn:E;
    try discriminate.
  intros _. now rewrite (SFcompare_Lt_Gt _ _ E).
Qed.

(** A number strictly between two others is finite. *)
Lemma between_finite (a x b : float) :
  PrimFloat.ltb a x = true -> PrimFloat.ltb x b = true ->
  exists s, Prim2SF x = S754_zero s \/ exists m e, Prim2SF x = S754_finite s m e.
Proof.
  intros H1 H2. rewrite FloatAxioms.ltb_spec in H1, H2. unfold SFltb in H1, H2.
  destruct (Prim2SF x) as [s | s | | s m e] eqn:E.
  - exists s. now left.
  - exfalso. destruct s.
    + destruct (Prim2SF a) as [ | [ | ] | | ]; discriminate.
    + destruct (Prim2SF b) as [ | [ | ] | | ]; discriminate.
  - exfalso. destruct (Prim2SF a); discriminate.
  - exists s. right. now exists m, e.
Qed.

(** [x - x] is [+0] for every finite [x]. *)
Lemma sub_diag_finite (x : float) :
  (exists s, Prim2SF x = S754_zero s \/ exists m e, Prim2SF x = S754_finite s m e) ->
  x - x = 0.
Proof.
  intros [s [E | [m [e E]]]]; apply Prim2SF_inj; rewrite FloatAxioms.sub_spec, E.
  - now destruct s.
  - unfold SF64sub, SFsub. rewrite Z.sub_diag. reflexivity.
Qed.


(** The first step of [Math.min] and of [Math.max] keeps a first argument
    that is not [NaN]. *)
Lemma min_first_step (a : float) :
  is_nan a = false ->
  (if PrimFloat.ltb a infinity then a else infinity) = a.
Proof.
  intros Ha. destruct (PrimFloat.ltb a infinity) eqn:E; [reflexivity|].
  apply is_nan_false_iff in Ha.
  apply Prim2SF_inj. rewrite FloatAxioms.ltb_spec in E. unfold SFltb in E.
  change (Prim2SF infinity) with (S754_infinity false) in *.
  destruct (Prim2SF a) as [s | [|] | | s m e]; try discriminate;
    reflexivity || contradiction.
Qed.

Lemma max_first_step (a : float) :
  is_nan a = false ->
  (if PrimFloat.ltb neg_infinity a then a else neg_infinity) = a.
Proof.
  intros Ha. destruct (PrimFloat.ltb neg_infinity a) eqn:E; [reflexivity|].
  apply is_nan_false_iff in Ha.
  apply Prim2SF_inj. rewrite FloatAxioms.ltb_spec in E. unfold SFltb in E.
  change (Prim2SF neg_infinity) with (S754_infinity true) in *.
  destruct (Prim2SF a) as [s | [|] | | s m e]; try discriminate;
    try reflexivity; try contradiction; destruct s; discriminate.
Qed.

Lemma is_zero_spec (x : float) :
  is_zero x = match Prim2SF x with S754_zero _ => true | _ => false end.
Proof.
  unfold is_zero. rewrite FloatAxioms.eqb_spec.
  change (Prim2SF 0) with (S754_zero false).
  destruct (Prim2SF x) as [s | s | | s m e]; try reflexivity; now destruct s.
Qed.

Lemma zeros_not_lt (a b : float) :
  is_zero a = true -> is_zero b = true -> PrimFloat.ltb a b = false.
Proof.
  rewrite !is_zero_spec, FloatAxioms.ltb_spec.
  destruct (Prim2SF a), (Prim2SF b); try discriminate. reflexivity.
Qed.

(** Two numbers of which one is strictly below the other are not a pair of
    zeros of opposite signs. *)
Lemma no_signed_zero_pair (a b : float) (p q : bool) :
  PrimFloat.ltb a b = true \/ PrimFloat.ltb b a = true ->
  (is_zero a && p) && (is_zero b && q) = false.
Proof.
  intros H.
  destruct (is_zero a) eqn:Ea, (is_zero b) eqn:Eb; simpl;
    rewrite ?andb_false_r; try reflexivity.
  destruct H as [H | H];
    [rewrite (zeros_not_lt a b Ea Eb) in H | rewrite (zeros_not_lt b a Eb Ea) in H];
    discriminate.
Qed.

Lemma Math_min_lt_l (a b : float) :
  PrimFloat.ltb a b = true -> Math_min a b = a.
Proof.
  intros H. destruct (ltb_true_not_nan _ _ H) as [Ha Hb].
  unfold Math_min, Math_min_of, fold_left, min_step. rewrite Ha, Hb.
  replace (is_pos_zero infinity) with false by reflexivity.
  rewrite andb_false_r, (min_first_step a Ha).
  unfold is_neg_zero, is_pos_zero.
  rewrite (no_signed_zero_pair b a) by now right.
  now rewrite (ltb_asym _ _ H).
Qed.

Lemma Math_min_lt_r (a b : float) :
  PrimFloat.ltb b a = true -> Math_min a b = b.
Proof.
  intros H. destruct (ltb_true_not_nan _ _ H) as [Hb Ha].
  unfold Math_min, Math_min_of, fold_left, min_step. rewrite Ha, Hb.
  replace (is_pos_zero infinity) with false by reflexivity.
  rewrite andb_false_r, (min_first_step a Ha).
  unfold is_neg_zero, is_pos_zero.
  rewrite (no_signed_zero_pair b a) by now left.
  now rewrite H.
Qed.

Lemma Math_max_lt_r (a b : float) :
  PrimFloat.ltb a b = true -> Math_max a b = b.
Proof.
  intros H. destruct (ltb_true_not_nan _ _ H) as [Ha Hb].
  unfold Math_max, Math_max_of, fold_left, max_step. rewrite Ha, Hb.
  replace (is_neg_zero neg_infinity) with false by reflexivity.
  rewrite andb_false_r, (max_first_step a Ha).
  unfold is_neg_zero, is_pos_zero.
  rewrite (no_signed_zero_pair b a) by now right.
  now rewrite H.
Qed.

Lemma Math_max_lt_l (a b : float) :
  PrimFloat.ltb b a = true -> Math_max a b = a.
Proof.
  intros H. destruct (ltb_true_not_nan _ _ H) as [Hb Ha].
  unfold Math_max, Math_max_of, fold_left, max_step. rewrite Ha, Hb.
  replace (is_neg_zero neg_infinity) with false by reflexivity.
  rewrite andb_false_r, (max_first_step a Ha).
  unfold is_neg_zero, is_pos_zero.
  rewrite (no_signed_zero_pair b a) by now left.
  now rewrite (ltb_asym _ _ H).
Qed.

End FloatFacts.

(* ================================================================== *)
(** * The sign of a difference                                         *)
(* ================================================================== *)

(** [a - b] is negative exactly when [a < b]: a difference of two distinct
    finite numbers is a non-zero multiple of the smallest subnormal, so it
    never rounds to zero, and rounding keeps its sign. *)
Section SubtractionSign.

Local Open Scope Z_scope.

Lemma digits2_pos_bounds (m : positive) :
  2 ^ (Zpos (digits2_pos m) - 1) <= Zpos m < 2 ^ Zpos (digits2_pos m).
Proof.
  induction m as [m IH | m IH | ]; simpl digits2_pos.
  - rewrite Pos2Z.inj_succ.
    replace (Z.succ (Zpos (digits2_pos m)) - 1) with (Zpos (digits2_pos m) - 1 + 1) by lia.
    rewrite Z.pow_succ_r by lia.
    destruct (Z.eq_dec (Zpos (digits2_pos m)) 1) as [E|E].
    + rewrite E in *. simpl in *. lia.
    + rewrite Z.pow_add_r by lia. lia.
  - rewrite Pos2Z.inj_succ.
    replace (Z.succ (Zpos (digits2_pos m)) - 1) with (Zpos (digits2_pos m) - 1 + 1) by lia.
    rewrite Z.pow_succ_r by lia.
    rewrite Z.pow_add_r by lia. lia.
  - simpl. lia.
Qed.

Lemma iter_xO_pow (m d : positive) : Zpos (Pos.iter xO m d) = Zpos m * 2 ^ Zpos d.
Proof.
  induction d as [|d IH] using Pos.peano_ind.
  - simpl. lia.
  - rewrite Pos.iter_succ, Pos2Z.inj_succ, Z.pow_succ_r by lia.
    rewrite Pos2Z.inj_xO, IH. lia.
Qed.

Lemma shl_align_value (m : positive) (e e' : Z) :
  e' <= e -> Zpos (fst (shl_align m e e')) = Zpos m * 2 ^ (e - e').
Proof.
  intros H. unfold shl_align.
  destruct (e' - e) as [|p|p] eqn:E; try lia.
  - replace (e - e') with 0 by lia. simpl. lia.
  - simpl fst. rewrite iter_xO_pow. f_equal. f_equal. lia.
Qed.

(** Halving [p] times keeps a mantissa of at least [2^p] positive. *)
Lemma shr_1_lower (k : Z) (mrs : shr_record) :
  0 <= k -> 2 ^ (k + 1) <= shr_m mrs -> 2 ^ k <= shr_m (shr_1 mrs).
Proof.
  intros Hk. destruct mrs as [m r s]. simpl. rewrite Z.pow_add_r by lia.
  assert (0 < 2 ^ k) by (apply Z.pow_pos_nonneg; lia).
  destruct m as [|[p|p|]|[p|p|]]; simpl; lia.
Qed.

Lemma iter_shr_1_lower (p : positive) :
  forall (k : Z) (mrs : shr_record),
    0 <= k -> 2 ^ (k + Zpos p) <= shr_m mrs -> 2 ^ k <= shr_m (SpecFloat.iter_pos shr_1 p mrs).
Proof.
  induction p as [p IH | p IH | ]; intros k mrs Hk H; simpl.
  - apply IH; [lia|]. apply IH; [lia|]. apply shr_1_lower; [lia|].
    replace (k + Zpos p + Zpos p + 1) with (k + Zpos p~1) by lia. exact H.
  - apply IH; [lia|]. apply IH; [lia|].
    replace (k + Zpos p + Zpos p) with (k + Zpos p~0) by lia. exact H.
  - apply shr_1_lower; assumption.
Qed.

Lemma shr_fexp_positive (m : positive) (e : Z) (l : location) :
  SpecFloat.emin prec emax <= e ->
  0 < shr_m (fst (shr_fexp prec emax (Zpos m) e l))
  /\ SpecFloat.emin prec emax <= snd (shr_fexp prec emax (Zpos m) e l).
Proof.
  intros He. unfold shr_fexp, shr.
  assert (Hm : shr_m (shr_record_of_loc (Zpos m) l) = Zpos m)
    by (destruct l as [|[ | | ]]; reflexivity).
  destruct (SpecFloat.fexp prec emax (Zdigits2 (Zpos m) + e) - e) as [|p|p] eqn:E; simpl fst; simpl snd.
  - rewrite Hm. split; [lia | assumption].
  - pose proof (digits2_pos_bounds m) as [Hlo _].
    unfold SpecFloat.fexp in E. simpl Zdigits2 in E.
    assert (Hp : Zpos p = Zpos (digits2_pos m) - prec).
    { unfold SpecFloat.emin, prec, emax in *. lia. }
    split.
    + assert (2 ^ 0 <= shr_m (SpecFloat.iter_pos shr_1 p (shr_record_of_loc (Zpos m) l))).
      { apply iter_shr_1_lower; [lia|]. rewrite Hm. simpl Z.add.
        eapply Z.le_trans; [|exact Hlo].
        apply Z.pow_le_mono_r; [lia|]. unfold prec in Hp. lia. }
      simpl in H. lia.
    + unfold SpecFloat.emin, prec, emax in *. lia.
  - rewrite Hm. split; [lia | assumption].
Qed.

Lemma round_nearest_even_positive (m : Z) (l : location) :
  0 < m -> 0 < round_nearest_even m l.
Proof.
  intros H. unfold round_nearest_even.
  destruct l as [|[ | | ]]; try lia. destruct (Z.even m); lia.
Qed.

Lemma binary_round_aux_sign (sx : bool) (m : positive) (e : Z) (l : location) :
  SpecFloat.emin prec emax <= e ->
  exists m' e', binary_round_aux prec emax sx (Zpos m) e l = S754_finite sx m' e'
             \/ binary_round_aux prec emax sx (Zpos m) e l = S754_infinity sx.
Proof.
  intros He. unfold binary_round_aux.
  pose proof (shr_fexp_positive m e l He) as [H1 H2].
  destruct (shr_fexp prec emax (Zpos m) e l) as [mrs' e1]. simpl in H1, H2.
  pose proof (round_nearest_even_positive (shr_m mrs') (loc_of_shr_record mrs') H1) as H3.
  destruct (round_nearest_even (shr_m mrs') (loc_of_shr_record mrs')) as [|m2|m2]; try lia.
  pose proof (shr_fexp_positive m2 e1 loc_Exact H2) as [H4 H5].
  destruct (shr_fexp prec emax (Zpos m2) e1 loc_Exact) as [mrs'' e2]. simpl in H4, H5.
  destruct (shr_m mrs'') as [|m3|m3]; try lia.
  exists m3, e2. destruct (e2 <=? emax - prec); auto.
Qed.

Lemma binary_round_sign (sx : bool) (m : positive) (e : Z) :
  SpecFloat.emin prec emax <= e ->
  exists m' e', binary_round prec emax sx m e = S754_finite sx m' e'
             \/ binary_round prec emax sx m e = S754_infinity sx.
Proof.
  intros He. unfold binary_round.
  destruct (shl_align m e (SpecFloat.fexp prec emax (Zpos (digits2_pos m) + e)))
    as [mz ez] eqn:E.
  apply binary_round_aux_sign.
  unfold shl_align in E.
  destruct (SpecFloat.fexp prec emax (Zpos (digits2_pos m) + e) - e) eqn:E';
    injection E as _ <-; try assumption.
  unfold SpecFloat.fexp. lia.
Qed.

Lemma bounded_facts (m : positive) (e : Z) :
  bounded prec emax m e = true ->
  SpecFloat.emin prec emax <= e
  /\ Zpos (digits2_pos m) <= prec
  /\ (SpecFloat.emin prec emax < e -> Zpos (digits2_pos m) = prec).
Proof.
  unfold bounded, canonical_mantissa, SpecFloat.fexp. intros H.
  apply andb_prop in H. destruct H as [H _]. apply Z.eqb_eq in H.
  unfold SpecFloat.emin, prec, emax in *. lia.
Qed.

Lemma canonical_lt (mx my : positive) (ex ey : Z) :
  bounded prec emax mx ex = true -> bounded prec emax my ey = true ->
  ex < ey -> Zpos mx < Zpos my * 2 ^ (ey - ex).
Proof.
  intros Hx Hy Hlt.
  destruct (bounded_facts _ _ Hx) as (Hex & Hdx & _).
  destruct (bounded_facts _ _ Hy) as (_ & _ & Hdy).
  specialize (Hdy ltac:(lia)).
  destruct (digits2_pos_bounds mx) as [_ Hmx].
  destruct (digits2_pos_bounds my) as [Hmy _].
  rewrite Hdy in Hmy.
  assert (H1 : 2 ^ Zpos (digits2_pos mx) <= 2 ^ prec)
    by (apply Z.pow_le_mono_r; unfold prec in *; lia).
  assert (H2 : 2 ^ 1 <= 2 ^ (ey - ex)) by (apply Z.pow_le_mono_r; lia).
  assert (H3 : 2 ^ prec = 2 ^ (prec - 1) * 2 ^ 1) by reflexivity.
  assert (H4 : 0 < 2 ^ (prec - 1)) by reflexivity.
  nia.
Qed.

Lemma SFcompare_finite (sx sy : bool) (mx my : positive) (ex ey : Z) :
  bounded prec emax mx ex = true -> bounded prec emax my ey = true ->
  SFcompare (S754_finite sx mx ex) (S754_finite sy my ey)
  = Some (signed_mantissa sx mx ex (Z.min ex ey) ?= signed_mantissa sy my ey (Z.min ex ey)).
Proof.
  intros Hx Hy. unfold signed_mantissa.
  rewrite !shl_align_value by lia.
  assert (Px : 0 < 2 ^ (ex - Z.min ex ey)) by (apply Z.pow_pos_nonneg; lia).
  assert (Py : 0 < 2 ^ (ey - Z.min ex ey)) by (apply Z.pow_pos_nonneg; lia).
  simpl SFcompare. f_equal.
  assert (Hcases :
    match ex ?= ey with
    | Lt => Zpos mx * 2 ^ (ex - Z.min ex ey) < Zpos my * 2 ^ (ey - Z.min ex ey)
    | Gt => Zpos my * 2 ^ (ey - Z.min ex ey) < Zpos mx * 2 ^ (ex - Z.min ex ey)
    | Eq => ex = ey
    end).
  { destruct (Z.compare_spec ex ey) as [E | E | E].
    - assumption.
    - replace (Z.min ex ey) with ex by lia. rewrite Z.sub_diag, Z.pow_0_r, Z.mul_1_r.
      now apply canonical_lt.
    - replace (Z.min ex ey) with ey by lia. rewrite Z.sub_diag, Z.pow_0_r, Z.mul_1_r.
      now apply canonical_lt. }
  destruct sx, sy; unfold cond_Zopp; symmetry.
  - destruct (ex ?= ey) eqn:E.
    + subst ey. rewrite Z.min_id, Z.sub_diag, Z.pow_0_r, !Z.mul_1_r.
      reflexivity.
    + apply Z.compare_gt_iff. lia.
    + apply Z.compare_lt_iff. lia.
  - apply Z.compare_lt_iff. lia.
  - apply Z.compare_gt_iff. lia.
  - destruct (ex ?= ey) eqn:E.
    + subst ey. rewrite Z.min_id, Z.sub_diag, Z.pow_0_r, !Z.mul_1_r.
      reflexivity.
    + apply Z.compare_lt_iff. lia.
    + apply Z.compare_gt_iff. lia.
Qed.

Lemma SFsub_negative_iff_lt (x y : spec_float) :
  SpecFloat.valid_binary prec emax x = true -> SpecFloat.valid_binary prec emax y = true ->
  SFltb (SFsub prec emax x y) (S754_zero false) = SFltb x y.
Proof.
  destruct x as [sx | sx | | sx mx ex], y as [sy | sy | | sy my ey];
    intros Hx Hy;
    try reflexivity;
    try (destruct sx; reflexivity);
    try (destruct sy; reflexivity);
    try (destruct sx, sy; reflexivity).
  simpl in Hx, Hy.
  unfold SFltb at 2. rewrite (SFcompare_finite sx sy mx my ex ey Hx Hy).
  unfold SFsub. fold (signed_mantissa sx mx ex (Z.min ex ey)).
  fold (signed_mantissa sy my ey (Z.min ex ey)).
  destruct (bounded_facts _ _ Hx) as (Hex & _).
  destruct (bounded_facts _ _ Hy) as (Hey & _).
  set (X := signed_mantissa sx mx ex (Z.min ex ey)).
  set (Y := signed_mantissa sy my ey (Z.min ex ey)).
  destruct (X - Y) as [|p|p] eqn:E; unfold binary_normalize.
  - replace (X ?= Y) with Eq by (symmetry; apply Z.compare_eq_iff; lia).
    reflexivity.
  - replace (X ?= Y) with Gt by (symmetry; apply Z.compare_gt_iff; lia).
    destruct (binary_round_sign false p (Z.min ex ey) ltac:(lia)) as (m' & e' & [R | R]);
      rewrite R; reflexivity.
  - replace (X ?= Y) with Lt by (symmetry; apply Z.compare_lt_iff; lia).
    destruct (binary_round_sign true p (Z.min ex ey) ltac:(lia)) as (m' & e' & [R | R]);
      rewrite R; reflexivity.
Qed.

Lemma sub_negative_iff_lt (a b : float) :
  PrimFloat.ltb (PrimFloat.sub a b) 0%float = PrimFloat.ltb a b.
Proof.
  rewrite !FloatAxioms.ltb_spec, FloatAxioms.sub_spec.
  change (Prim2SF 0%float) with (S754_zero false).
  apply SFsub_negative_iff_lt; apply Prim2SF_valid.
Qed.

End SubtractionSign.

(* ================================================================== *)
(** * Squares of numbers of magnitude at most one                      *)
(* ================================================================== *)

Section SquareOfUnit.
Local Open Scope Z_scope.

Lemma shr_1_le (mrs : shr_record) :
  0 <= shr_m mrs -> 0 <= shr_m (shr_1 mrs) <= shr_m mrs.
Proof.
  destruct mrs as [m r s]. simpl.
  destruct m as [|[p|p|]|[p|p|]]; simpl; lia.
Qed.

Lemma iter_shr_1_le (p : positive) :
  forall mrs, 0 <= shr_m mrs ->
              0 <= shr_m (SpecFloat.iter_pos shr_1 p mrs) <= shr_m mrs.
Proof.
  induction p as [p IH | p IH | ]; intros mrs H; simpl.
  - pose proof (shr_1_le mrs H) as H1.
    pose proof (IH _ (proj1 H1)) as H2.
    pose proof (IH _ (proj1 H2)) as H3. lia.
  - pose proof (IH _ H) as H2.
    pose proof (IH _ (proj1 H2)) as H3. lia.
  - now apply shr_1_le.
Qed.

Lemma shr_fexp_le (m e : Z) (l : location) :
  0 <= m ->
  0 <= shr_m (fst (shr_fexp prec emax m e l)) <= m
  /\ (snd (shr_fexp prec emax m e l) = e
      \/ snd (shr_fexp prec emax m e l) = SpecFloat.fexp prec emax (Zdigits2 m + e)).
Proof.
  intros Hm. unfold shr_fexp, shr.
  assert (E : shr_m (shr_record_of_loc m l) = m)
    by (destruct l as [|[ | | ]]; reflexivity).
  destruct (SpecFloat.fexp prec emax (Zdigits2 m + e) - e) as [|p|p] eqn:En;
    cbn [fst snd].
  - rewrite E. split; [lia | now left].
  - split.
    + rewrite <- E at 3. apply iter_shr_1_le. now rewrite E.
    + right. lia.
  - rewrite E. split; [lia | now left].
Qed.

Lemma Zdigits2_le (m k : Z) : 0 <= m < 2 ^ k -> 0 <= k -> Zdigits2 m <= k.
Proof.
  intros [H0 H1] Hk. destruct m as [|p|p]; simpl; try lia.
  destruct (digits2_pos_bounds p) as [Hlo _].
  assert (2 ^ (Zpos (digits2_pos p) - 1) < 2 ^ k) by lia.
  apply Z.pow_lt_mono_r_iff in H; lia.
Qed.

(** The square of a number of magnitude at most one: a zero or a finite
    number, and not negative. *)
Lemma SFmul_square_of_unit (s : bool) (m : positive) (e : Z) :
  bounded prec emax m e = true -> e <= -52 ->
  SFmul prec emax (S754_finite s m e) (S754_finite s m e) = S754_zero false
  \/ exists m' e', SFmul prec emax (S754_finite s m e) (S754_finite s m e)
                   = S754_finite false m' e'.
Proof.
  intros Hb He. unfold SFmul. rewrite xorb_nilpotent.
  destruct (bounded_facts _ _ Hb) as (_ & Hd & _).
  destruct (digits2_pos_bounds m) as [_ Hm].
  assert (Hm53 : Zpos m < 2 ^ 53).
  { eapply Z.lt_le_trans; [exact Hm|]. apply Z.pow_le_mono_r; unfold prec in Hd; lia. }
  assert (Hsq : 0 <= Zpos (m * m) < 2 ^ 106).
  { rewrite Pos2Z.inj_mul. change (2 ^ 106) with (2 ^ 53 * 2 ^ 53). nia. }
  unfold binary_round_aux.
  pose proof (shr_fexp_le (Zpos (m * m)) (e + e) loc_Exact (proj1 Hsq)) as [H1 H2].
  pose proof (Zdigits2_le _ 106 Hsq ltac:(lia)) as Hd1.
  destruct (shr_fexp prec emax (Zpos (m * m)) (e + e) loc_Exact) as [mrs' e1].
  cbn [fst snd] in H1, H2.
  assert (He1 : e1 <= -51).
  { destruct H2 as [-> | ->]; [lia|].
    unfold SpecFloat.fexp, SpecFloat.emin, prec, emax. lia. }
  set (m1 := round_nearest_even (shr_m mrs') (loc_of_shr_record mrs')).
  assert (Hm1 : 0 <= m1 < 2 ^ 107).
  { subst m1. unfold round_nearest_even.
    change (2 ^ 107) with (2 ^ 106 + 2 ^ 106).
    destruct (loc_of_shr_record mrs') as [|[ | | ]]; try lia.
    destruct (Z.even (shr_m mrs')); lia. }
  pose proof (shr_fexp_le m1 e1 loc_Exact (proj1 Hm1)) as [H3 H4].
  pose proof (Zdigits2_le _ 107 Hm1 ltac:(lia)) as Hd2.
  destruct (shr_fexp prec emax m1 e1 loc_Exact) as [mrs'' e2].
  cbn [fst snd] in H3, H4.
  assert (He2 : e2 <= 3).
  { destruct H4 as [-> | ->]; [lia|].
    unfold SpecFloat.fexp, SpecFloat.emin, prec, emax. lia. }
  destruct (shr_m mrs'') as [|m2|m2]; [now left | | lia].
  right. exists m2, e2.
  replace (e2 <=? emax - prec) with true; [reflexivity|].
  symmetry. apply Z.leb_le. unfold emax, prec. lia.
Qed.

End SquareOfUnit.

(* ================================================================== *)
(** * Negation and rounding                                            *)
(* ================================================================== *)

Section Negation.

Lemma binary_round_aux_opp (s : bool) (m e : Z) (l : location) :
  binary_round_aux prec emax (negb s) m e l
  = SFopp (binary_round_aux prec emax s m e l).
Proof.
  unfold binary_round_aux.
  destruct (shr_fexp prec emax m e l) as [mrs' e1].
  destruct (shr_fexp prec emax _ e1 loc_Exact) as [mrs'' e2].
  destruct (shr_m mrs''); try reflexivity.
  destruct (e2 <=? emax - prec)%Z; reflexivity.
Qed.

Lemma binary_round_opp (s : bool) (m : positive) (e : Z) :
  binary_round prec emax (negb s) m e = SFopp (binary_round prec emax s m e).
Proof.
  unfold binary_round.
  destruct (shl_align m e _) as [mz ez]. apply binary_round_aux_opp.
Qed.

Lemma SFopp_involutive (x : spec_float) : SFopp (SFopp x) = x.
Proof. destruct x as [s | s | | s m e]; simpl; now rewrite ?negb_involutive. Qed.

(** Swapping the operands of a subtraction negates the result, unless the
    result is the [+0] of two equal operands. *)
Lemma SFsub_swap (x y : spec_float) :
  SFsub prec emax y x = SFopp (SFsub prec emax x y)
  \/ (SFsub prec emax x y = S754_zero false /\ SFsub prec emax y x = S754_zero false).
Proof.
  destruct x as [sx | sx | | sx mx ex], y as [sy | sy | | sy my ey];
    try (left; reflexivity);
    try (destruct sx, sy; simpl; auto; fail);
    try (destruct sx; simpl; auto; fail);
    try (destruct sy; simpl; auto; fail).
  unfold SFsub. rewrite (Z.min_comm ey ex).
  set (X := cond_Zopp sx (Zpos (fst (shl_align mx ex (Z.min ex ey))))).
  set (Y := cond_Zopp sy (Zpos (fst (shl_align my ey (Z.min ex ey))))).
  replace (Y - X)%Z with (- (X - Y))%Z by lia.
  destruct (X - Y)%Z as [|p|p]; simpl Z.opp; unfold binary_normalize.
  - now right.
  - left. apply (binary_round_opp false).
  - left. rewrite <- (SFopp_involutive (binary_round prec emax false p _)).
    f_equal. symmetry. apply (binary_round_opp false).
Qed.

Lemma SFmul_opp_l (x y : spec_float) :
  SFmul prec emax (SFopp x) y = SFopp (SFmul prec emax x y).
Proof.
  destruct x as [sx | sx | | sx mx ex], y as [sy | sy | | sy my ey];
    try reflexivity; simpl; try (now destruct sx, sy).
  rewrite <- binary_round_aux_opp. now destruct sx, sy.
Qed.

Lemma SFmul_comm (x y : spec_float) : SFmul prec emax x y = SFmul prec emax y x.
Proof.
  destruct x as [sx | sx | | sx mx ex], y as [sy | sy | | sy my ey];
    try reflexivity; simpl; try (now destruct sx, sy).
  now rewrite xorb_comm, Pos.mul_comm, Z.add_comm.
Qed.

Lemma SFdiv_opp_l (x y : spec_float) :
  SFdiv prec emax (SFopp x) y = SFopp (SFdiv prec emax x y).
Proof.
  destruct x as [sx | sx | | sx mx ex], y as [sy | sy | | sy my ey];
    try reflexivity; simpl; try (now destruct sx, sy).
  destruct (SFdiv_core_binary prec emax (Zpos mx) ex (Zpos my) ey) as [[mz ez] lz].
  rewrite <- binary_round_aux_opp. now destruct sx, sy.
Qed.

End Negation.

(* ================================================================== *)
(** * Geo and time primitives                                          *)
(* ================================================================== *)

Section Primitives.

Local Open Scope string_scope.
Local Open Scope list_scope.

(** ** haversine *)

Section Identical.

Context {M : MathImpl}.
Local Open Scope float_scope.

Lemma square_of_unit_times_zero (c : float) :
  PrimFloat.leb (abs c) 1 = true -> c * c * 0 * 0 = 0.
Proof.
  intros H. rewrite FloatAxioms.leb_spec, FloatAxioms.abs_spec in H.
  change (Prim2SF 1) with (S754_finite false 4503599627370496 (-52)) in H.
  pose proof (Prim2SF_valid c) as Hv.
  assert (Hsq : Prim2SF (c * c) = S754_zero false
                \/ exists m' e', Prim2SF (c * c) = S754_finite false m' e').
  { rewrite FloatAxioms.mul_spec. destruct (Prim2SF c) as [s | s | | s m e].
    - left. now destruct s.
    - discriminate.
    - discriminate.
    - apply SFmul_square_of_unit; [exact Hv|].
      unfold SFleb, SFabs, SFcompare in H.
      destruct (Z.compare_spec e (-52)); try lia; discriminate. }
  apply Prim2SF_inj. rewrite FloatAxioms.mul_spec, FloatAxioms.mul_spec.
  change (Prim2SF 0) with (S754_zero false).
  destruct Hsq as [-> | (m' & e' & ->)]; reflexivity.
Qed.

Lemma is_finite_shape (x : float) :
  is_finite x = true ->
  exists s, Prim2SF x = S754_zero s \/ exists m e, Prim2SF x = S754_finite s m e.
Proof.
  unfold is_finite, is_infinity. intros H.
  apply negb_true_iff, orb_false_elim in H. destruct H as [Hn Hi].
  apply is_nan_false_iff in Hn.
  rewrite FloatAxioms.eqb_spec, FloatAxioms.abs_spec in Hi.
  change (Prim2SF infinity) with (S754_infinity false) in Hi.
  destruct (Prim2SF x) as [s | s | | s m e]; try congruence.
  - exists s. now left.
  - discriminate.
  - exists s. right. eauto.
Qed.

(** For every engine with [sin(+0) = +0], [atan2(+0, 1) = +0] and a cosine
    of magnitude at most one at the latitude, the distance from a point with
    finite coordinates to itself is exactly [+0]. *)
Lemma haversine_identical_points (lat lng : float) :
  is_finite lat = true -> is_finite lng = true ->
  Math_sin 0 = 0 -> Math_atan2 0 1 = 0 ->
  PrimFloat.leb (abs (Math_cos (lat * Math_PI / 180))) 1 = true ->
  haversine lat lng lat lng = 0.
Proof.
  intros Hlat Hlng Hsin Hatan Hcos. unfold haversine. cbv zeta.
  rewrite (sub_diag_finite lat (is_finite_shape lat Hlat)).
  rewrite (sub_diag_finite lng (is_finite_shape lng Hlng)).
  change (0 * Math_PI / 180 / 2) with 0.
  rewrite Hsin, (square_of_unit_times_zero _ Hcos).
  unfold Math_sqrt.
  change (PrimFloat.sqrt (0 * 0 + 0)) with 0.
  change (PrimFloat.sqrt (1 - (0 * 0 + 0))) with 1.
  rewrite Hatan. reflexivity.
Qed.

Lemma fsub_swap (a b : float) : b - a = - (a - b) \/ (a - b = 0 /\ b - a = 0).
Proof.
  destruct (SFsub_swap (Prim2SF a) (Prim2SF b)) as [H | [H1 H2]].
  - left. apply Prim2SF_inj. now rewrite FloatAxioms.opp_spec, !FloatAxioms.sub_spec.
  - right. split; apply Prim2SF_inj; now rewrite FloatAxioms.sub_spec.
Qed.

Lemma fmul_opp_l (a b : float) : (- a) * b = - (a * b).
Proof.
  apply Prim2SF_inj.
  now rewrite FloatAxioms.opp_spec, !FloatAxioms.mul_spec, FloatAxioms.opp_spec, SFmul_opp_l.
Qed.

Lemma fmul_comm (a b : float) : a * b = b * a.
Proof. apply Prim2SF_inj. rewrite !FloatAxioms.mul_spec. apply SFmul_comm. Qed.

Lemma fdiv_opp_l (a b : float) : (- a) / b = - (a / b).
Proof.
  apply Prim2SF_inj.
  now rewrite FloatAxioms.opp_spec, !FloatAxioms.div_spec, FloatAxioms.opp_spec, SFdiv_opp_l.
Qed.

Lemma fopp_involutive (a : float) : - - a = a.
Proof. apply Prim2SF_inj. rewrite !FloatAxioms.opp_spec. apply SFopp_involutive. Qed.

(** The squared sine of half an angular difference does not depend on the
    order of the two coordinates, for an engine whose sine is odd at that
    angle. *)
Lemma squared_half_sine_swap (p a b : float) :
  let u := (b - a) * Math_PI / 180 / 2 in
  Math_sin (- u) = - Math_sin u ->
  p * Math_sin ((a - b) * Math_PI / 180 / 2) * Math_sin ((a - b) * Math_PI / 180 / 2)
  = p * Math_sin u * Math_sin u.
Proof.
  intros u Hodd. subst u.
  destruct (fsub_swap b a) as [E | [E1 E2]].
  - rewrite E, !fmul_opp_l, !fdiv_opp_l, Hodd.
    rewrite (fmul_comm p (- _)), fmul_opp_l, fmul_opp_l.
    rewrite (fmul_comm _ (- _)), fmul_opp_l, fopp_involutive.
    rewrite (fmul_comm (Math_sin _) p), (fmul_comm (Math_sin _) (p * _)).
    reflexivity.
  - now rewrite E1, E2.
Qed.

Lemma squared_half_sine_swap_plain (a b : float) :
  let u := (b - a) * Math_PI / 180 / 2 in
  Math_sin (- u) = - Math_sin u ->
  Math_sin ((a - b) * Math_PI / 180 / 2) * Math_sin ((a - b) * Math_PI / 180 / 2)
  = Math_sin u * Math_sin u.
Proof.
  intros u Hodd. subst u.
  destruct (fsub_swap b a) as [E | [E1 E2]].
  - rewrite E, !fmul_opp_l, !fdiv_opp_l, Hodd.
    now rewrite fmul_opp_l, (fmul_comm _ (- _)), fmul_opp_l, fopp_involutive.
  - now rewrite E1, E2.
Qed.

Lemma haversine_symmetric (lat1 lng1 lat2 lng2 : float) :
  let uLat := (lat2 - lat1) * Math_PI / 180 / 2 in
  let uLng := (lng2 - lng1) * Math_PI / 180 / 2 in
  Math_sin (- uLat) = - Math_sin uLat ->
  Math_sin (- uLng) = - Math_sin uLng ->
  haversine lat2 lng2 lat1 lng1 = haversine lat1 lng1 lat2 lng2.
Proof.
  intros uLat uLng HLat HLng. unfold haversine. cbv zeta.
  rewrite (fmul_comm (Math_cos (lat2 * Math_PI / 180)) (Math_cos (lat1 * Math_PI / 180))).
  rewrite (squared_half_sine_swap _ lng1 lng2 HLng).
  rewrite (squared_half_sine_swap_plain lat1 lat2 HLat).
  reflexivity.
Qed.




End Identical.

(** ** rolesCompatible *)

Lemma rolesCompatible_false (role1 role2 : string) :
  rolesCompatible role1 role2 = false <-> role1 = "RIDER" /\ role2 = "RIDER".
Proof.
  unfold rolesCompatible.
  destruct (String.eqb_spec role1 "RIDER") as [E1 | N1],
           (String.eqb_spec role2 "RIDER") as [E2 | N2]; simpl;
    split; intros H; try discriminate; try tauto; destruct H; contradiction.
Qed.

(** C9.  [rolesCompatible role1 role2] is false exactly when both roles are
    RIDER; hence it is true for every other pair drawn from DRIVER, RIDER
    and EITHER, whichever way round the two roles are given. *)
Theorem rolesCompatible_false_iff_both_riders :
  (forall role1 role2 : string,
      rolesCompatible role1 role2 = false <-> role1 = "RIDER" /\ role2 = "RIDER")
  /\ (forall role1 role2 : string,
         In role1 ["DRIVER"; "RIDER"; "EITHER"] ->
         In role2 ["DRIVER"; "RIDER"; "EITHER"] ->
         (role1, role2) <> ("RIDER", "RIDER") ->
         rolesCompatible role1 role2 = true /\ rolesCompatible role2 role1 = true).
Proof.
  split; [exact rolesCompatible_false|].
  intros role1 role2 _ _ Hne.
  split.
  - destruct (rolesCompatible role1 role2) eqn:E; [reflexivity|].
    apply rolesCompatible_false in E. destruct E; subst. now elim Hne.
  - destruct (rolesCompatible role2 role1) eqn:E; [reflexivity|].
    apply rolesCompatible_false in E. destruct E; subst. now elim Hne.
Qed.

(** ** computeOverlap *)

Lemma includes_In (days : list Z) (d : Z) : includes days d = true <-> In d days.
Proof.
  unfold includes. rewrite existsb_exists. split.
  - intros [x [Hin Hx]]. apply Z.eqb_eq in Hx. now subst.
  - intros H. exists d. split; [assumption | apply Z.eqb_refl].
Qed.

Lemma filter_nil_iff {A} (f : A -> bool) (l : list A) :
  filter f l = [] <-> forall x, In x l -> f x = false.
Proof.
  induction l as [|a l IH]; simpl.
  - split; [intros _ x [] | reflexivity].
  - destruct (f a) eqn:E.
    + split; [discriminate|]. intros H. specialize (H a (or_introl eq_refl)). congruence.
    + rewrite IH. split.
      * intros H x [-> | Hx]; auto.
      * intros H x Hx. apply H. now right.
Qed.

Lemma length_zero_iff {A} (l : list A) : (List.length l =? 0)%nat = true <-> l = [].
Proof. destruct l; simpl; split; congruence. Qed.

(** The overlap of two windows [e1, x] and [x, l2] that meet at [x]. *)
Lemma touching_width (e1 x l2 : float) :
  PrimFloat.ltb e1 x = true -> PrimFloat.ltb x l2 = true ->
  Math_max 0 (Math_min x l2 - Math_max e1 x)%float = 0%float
  /\ Math_max 0 (Math_min l2 x - Math_max x e1)%float = 0%float.
Proof.
  intros H1 H2.
  rewrite (Math_min_lt_l _ _ H2), (Math_max_lt_r _ _ H1).
  rewrite (Math_min_lt_r _ _ H2), (Math_max_lt_l _ _ H1).
  rewrite (sub_diag_finite x (between_finite _ _ _ H1 H2)).
  split; reflexivity.
Qed.

(** C4.  [computeOverlap] returns as [commonDays] the days of the first
    list that the second includes, that is the intersection of the two day
    sets; when the intersection is empty the result is overlap 0 with no
    common days, whatever the time windows; otherwise [overlapMinutes] is
    [max(0, min(latest1, latest2) - max(earliest1, earliest2))]; and two
    proper windows (earliest before latest) that meet exactly at an endpoint
    have overlap 0. *)
Theorem computeOverlap_intersection_and_width :
  forall (earliest1 latest1 : string) (days1 : list Z)
         (earliest2 latest2 : string) (days2 : list Z),
    let r := computeOverlap earliest1 latest1 days1 earliest2 latest2 days2 in
    let e1 := timeToMinutes earliest1 in
    let l1 := timeToMinutes latest1 in
    let e2 := timeToMinutes earliest2 in
    let l2 := timeToMinutes latest2 in
    (forall d, In d (commonDays r) <-> In d days1 /\ In d days2)
    /\ ((forall d, In d days1 -> ~ In d days2) ->
        r = {| overlapMinutes := 0; commonDays := [] |})
    /\ ((exists d, In d days1 /\ In d days2) ->
        overlapMinutes r = Math_max 0 (Math_min l1 l2 - Math_max e1 e2)%float)
    /\ ((exists d, In d days1 /\ In d days2) ->
        PrimFloat.ltb e1 l1 = true -> PrimFloat.ltb e2 l2 = true ->
        l1 = e2 \/ l2 = e1 ->
        overlapMinutes r = 0%float).
Proof.
  intros earliest1 latest1 days1 earliest2 latest2 days2 r e1 l1 e2 l2.
  assert (Hcommon : forall d, In d (filter (fun d => includes days2 d) days1)
                              <-> In d days1 /\ In d days2).
  { intros d. rewrite filter_In, includes_In. tauto. }
  assert (Hempty : (forall d, In d days1 -> ~ In d days2) ->
                   filter (fun d => includes days2 d) days1 = []).
  { intros H. apply filter_nil_iff. intros d Hd.
    destruct (includes days2 d) eqn:E; [|reflexivity].
    apply includes_In in E. now elim (H d Hd). }
  assert (Hsome : (exists d, In d days1 /\ In d days2) ->
                  (List.length (filter (fun d => includes days2 d) days1) =? 0)%nat = false).
  { intros [d Hd]. apply Hcommon in Hd.
    destruct (filter (fun d => includes days2 d) days1); [contradiction | reflexivity]. }
  assert (Hwidth : (exists d, In d days1 /\ In d days2) ->
            overlapMinutes r = Math_max 0 (Math_min l1 l2 - Math_max e1 e2)%float).
  { intros H. subst r. unfold computeOverlap. now rewrite (Hsome H). }
  split; [|split; [|split]].
  - intros d. subst r. unfold computeOverlap.
    destruct (List.length (filter (fun d => includes days2 d) days1) =? 0)%nat eqn:E.
    + apply length_zero_iff in E. simpl. rewrite <- Hcommon, E. reflexivity.
    + simpl. apply Hcommon.
  - intros H. subst r. unfold computeOverlap. now rewrite (Hempty H).
  - exact Hwidth.
  - intros H He1 He2 Htouch. rewrite (Hwidth H).
    destruct Htouch as [E | E].
    + rewrite E in *. apply (touching_width e1 e2 l2 He1 He2).
    + rewrite E in *. apply (touching_width e2 e1 l1 He2 He1).
Qed.

(** The cases of the route's test suite. *)
Example computeOverlap_tests :
  computeOverlap "07:00" "08:00" [0; 1]%Z "07:00" "08:00" [2; 3]%Z
    = {| overlapMinutes := 0; commonDays := [] |}
  /\ overlapMinutes (computeOverlap "07:00" "08:00" [0]%Z "08:30" "09:30" [0]%Z) = 0%float
  /\ computeOverlap "07:00" "08:30" [0; 1; 2]%Z "08:00" "09:00" [1; 2; 3]%Z
     = {| overlapMinutes := 30; commonDays := [1; 2]%Z |}
  /\ overlapMinutes (computeOverlap "07:00" "09:00" [0]%Z "07:30" "08:30" [0]%Z) = 60%float
  /\ computeOverlap "07:00" "08:00" [0]%Z "08:00" "09:00" [0]%Z
     = {| overlapMinutes := 0; commonDays := [0]%Z |}.
Proof. vm_compute. repeat split; reflexivity. Qed.

End Primitives.

(* ================================================================== *)
(** * timeToMinutes                                                    *)
(* ================================================================== *)

Section TimeParsing.

Local Open Scope char_scope.
Local Open Scope list_scope.

Lemma SameValue_eq (a b : float) : SameValue a b = true -> a = b.
Proof.
  unfold SameValue. intros H. apply Prim2SF_inj.
  destruct (Prim2SF a) as [s | s | | s m e], (Prim2SF b) as [s' | s' | | s' m' e'];
    try discriminate; try reflexivity.
  - apply Bool.eqb_prop in H. now subst.
  - apply Bool.eqb_prop in H. now subst.
  - apply andb_prop in H. destruct H as [H He].
    apply andb_prop in H. destruct H as [Hs Hm].
    apply Bool.eqb_prop in Hs. apply Pos.eqb_eq in Hm. apply Z.eqb_eq in He.
    now subst.
Qed.

Lemma is_digit_In (c : ascii) : is_digit c = true -> In c decimal_digits.
Proof.
  destruct c as [[] [] [] [] [] [] [] []]; intros H; vm_compute in H;
    try discriminate H; simpl; tauto.
Qed.

(** All ten thousand strings of the form dd:dd, by evaluation. *)
Lemma timeToMinutes_HHMM_checked :
  forallb (fun h1 => forallb (fun h2 => forallb (fun m1 => forallb (fun m2 =>
    SameValue (timeToMinutes (HHMM h1 h2 m1 m2)) (of_Z (HHMM_minutes h1 h2 m1 m2)))
    decimal_digits) decimal_digits) decimal_digits) decimal_digits = true.
Proof. vm_compute. reflexivity. Qed.

Lemma timeToMinutes_HHMM (h1 h2 m1 m2 : ascii) :
  is_digit h1 = true -> is_digit h2 = true ->
  is_digit m1 = true -> is_digit m2 = true ->
  timeToMinutes (HHMM h1 h2 m1 m2) = of_Z (HHMM_minutes h1 h2 m1 m2).
Proof.
  intros H1 H2 H3 H4. apply SameValue_eq.
  pose proof timeToMinutes_HHMM_checked as C.
  rewrite forallb_forall in C. specialize (C h1 (is_digit_In _ H1)).
  rewrite forallb_forall in C. specialize (C h2 (is_digit_In _ H2)).
  rewrite forallb_forall in C. specialize (C m1 (is_digit_In _ H3)).
  rewrite forallb_forall in C. exact (C m2 (is_digit_In _ H4)).
Qed.

(** C8 (as the code has it).  On every string of two digits, a colon and two
    digits -- the strings for which the specification's [minutesOfDay] yields
    minutes -- [timeToMinutes] returns that number of minutes,
    [hours * 60 + minutes]. *)
Theorem timeToMinutes_agrees_on_HHMM :
  forall (t : string) (n : Z),
    Spec.minutesOfDay t = Spec.MinutesOfDay n ->
    timeToMinutes t = of_Z n.
Proof.
  intros t n.
  destruct t as [|h1 [|h2 [|c [|m1 [|m2 [|x t]]]]]]; simpl; try discriminate.
  destruct (Ascii.eqb_spec c ":") as [-> | _]; [|discriminate].
  unfold Spec.two_digits.
  destruct (is_digit h1) eqn:H1, (is_digit h2) eqn:H2; simpl; try discriminate.
  destruct (is_digit m1) eqn:H3, (is_digit m2) eqn:H4; simpl; try discriminate.
  intros E. injection E as <-.
  exact (timeToMinutes_HHMM h1 h2 m1 m2 H1 H2 H3 H4).
Qed.

Lemma timeToMinutes_agrees_on_HHMM_witness :
  Spec.minutesOfDay "17:30" = Spec.MinutesOfDay 1050
  /\ timeToMinutes "17:30" = 1050%float.
Proof.
  split; [reflexivity|].
  exact (timeToMinutes_agrees_on_HHMM "17:30" 1050 eq_refl).
Defined.

(** The cases of the route's test suite. *)
Example timeToMinutes_tests :
  timeToMinutes "07:00" = 420%float
  /\ timeToMinutes "17:30" = 1050%float
  /\ timeToMinutes "00:00" = 0%float.
Proof. vm_compute. repeat split; reflexivity. Qed.

(** C8 (as stated) fails: for a string that does not match the pattern the
    specification demands a [FormatError], but [timeToMinutes] has no failure
    path and returns a number: 425 for "7:05", [NaN] for "0730". *)
Lemma timeToMinutes_returns_on_malformed_input :
  Spec.minutesOfDay "7:05" = Spec.FormatError
  /\ timeToMinutes "7:05" = 425%float
  /\ Spec.minutesOfDay "0730" = Spec.FormatError
  /\ timeToMinutes "0730" = nan.
Proof. vm_compute. repeat split; reflexivity. Qed.

End TimeParsing.

(* ================================================================== *)
(** * The compute handler                                              *)
(* ================================================================== *)

Section Compute.

Context {M : MathImpl}.
Variable w : World.

Local Open Scope string_scope.
Local Open Scope list_scope.

Lemma loop_effect_refl P st : loop_effect P st st.
Proof.
  exists [], []. simpl. rewrite !app_nil_r, Nat.add_0_r.
  repeat split; auto.
Qed.

Lemma loop_effect_trans P st1 st2 st3 :
  loop_effect P st1 st2 -> loop_effect P st2 st3 -> loop_effect P st1 st3.
Proof.
  intros (a1 & e1 & H1 & H2 & H3 & H4 & H5 & H6 & H7 & H8 & H9)
         (a2 & e2 & G1 & G2 & G3 & G4 & G5 & G6 & G7 & G8 & G9).
  exists (a1 ++ a2), (e1 ++ e2).
  rewrite !map_app, !app_assoc, length_app.
  repeat split; try congruence.
  - unfold inserted_rows in *. rewrite flat_map_app. congruence.
  - rewrite existsb_app, H7, G7. reflexivity.
  - lia.
  - apply Forall_app. split; assumption.
Qed.

Lemma loop_effect_weaken (P Q : match_row -> Prop) st st' :
  (forall r, P r -> Q r) -> loop_effect P st st' -> loop_effect Q st st'.
Proof.
  intros HPQ (a & e & H1 & H2 & H3 & H4 & H5 & H6 & H7 & H8 & H9).
  exists a, e. repeat split; try assumption.
  eapply Forall_impl; eauto.
Qed.

Lemma fold_left_loop_effect {A} P (f : loop_state -> A -> loop_state) (l : list A) :
  (forall st x, In x l -> loop_effect P st (f st x)) ->
  forall st, loop_effect P st (fold_left f l st).
Proof.
  induction l as [|x l IH]; intros Hf st; simpl.
  - apply loop_effect_refl.
  - eapply loop_effect_trans; [apply Hf; now left | apply IH].
    intros st0 y Hy. apply Hf. now right.
Qed.

(** One pair of preferences adds at most one row, which carries the
    candidate's detour as it was computed. *)
Lemma pair_step_effect userId other detourMinutes myPref otherPref st :
  loop_effect (raw_row userId other detourMinutes [myPref] [otherPref])
    st (pair_step w userId other detourMinutes myPref otherPref st).
Proof.
  unfold pair_step.
  destruct (direction myPref =? direction otherPref) eqn:Edir; cbn [negb];
    [|apply loop_effect_refl].
  destruct (rolesCompatible (role myPref) (role otherPref)) eqn:Erole; cbn [negb];
    [|apply loop_effect_refl].
  match goal with
  | |- context [PrimFloat.eqb ?o 0] => destruct (PrimFloat.eqb o 0) eqn:Eov
  end; [apply loop_effect_refl|].
  match goal with
  | |- context [(List.length ?c =? 0)%nat] =>
      destruct (List.length c =? 0)%nat eqn:Edays
  end; [apply loop_effect_refl|].
  cbn [orb].
  match goal with
  | |- context [insert_match _ ?row] =>
      exists [(display_name other, row)], [EvQuery (QInsertMatch row)]
  end.
  simpl. repeat split; try reflexivity.
  - lia.
  - constructor; [|constructor]. unfold raw_row. cbn [detour_minutes user_a_id
      user_b_id rank_score time_overlap_minutes].
    repeat split; try reflexivity.
    exists myPref, otherPref. unfold accepted_pair.
    cbn [match_direction time_overlap_minutes In].
    apply String.eqb_eq in Edir.
    repeat split; auto.
    intros E. rewrite E in Edays. discriminate.
Qed.

Lemma raw_row_incl userId other detourMinutes l1 l2 l1' l2' r :
  incl l1 l1' -> incl l2 l2' ->
  raw_row userId other detourMinutes l1 l2 r ->
  raw_row userId other detourMinutes l1' l2' r.
Proof.
  intros H1 H2 (Hd & Ha & Hb & Hr & myPref & otherPref & Hm & Ho & Hacc).
  unfold raw_row. repeat split; try assumption.
  exists myPref, otherPref. auto.
Qed.

Lemma pairing_loops_effect userId other detourMinutes myPrefs otherPrefs st :
  loop_effect (raw_row userId other detourMinutes myPrefs otherPrefs)
    st (pairing_loops w userId other detourMinutes myPrefs otherPrefs st).
Proof.
  unfold pairing_loops.
  apply (fold_left_loop_effect _ (fun st myPref => fold_left _ otherPrefs st)).
  intros st0 myPref HmyPref.
  apply (fold_left_loop_effect _
           (fun st otherPref => pair_step w userId other detourMinutes myPref otherPref st)).
  intros st1 otherPref HotherPref.
  eapply loop_effect_weaken; [|apply pair_step_effect].
  intros r. apply raw_row_incl; intros x [<- | []]; assumption.
Qed.

Lemma candidate_step_effect userId currentUser myPrefs prefs candidates t i other st :
  nth_error candidates i = Some other ->
  commute_preferences (cur_db st) = prefs ->
  loop_effect (row_of_run w userId currentUser myPrefs prefs candidates t) st
    (candidate_step w userId currentUser myPrefs t i other st).
Proof.
  intros Hnth Hprefs. unfold candidate_step.
  set (st1 := {| newMatches := newMatches st; cur_db := cur_db st;
                 trace := trace st ++ [EvQuery (QPrefsByUser (id other))];
                 uuid_count := uuid_count st |}).
  assert (H1 : loop_effect (row_of_run w userId currentUser myPrefs prefs candidates t)
                 st st1).
  { exists [], [EvQuery (QPrefsByUser (id other))]. simpl.
    rewrite !app_nil_r, Nat.add_0_r. repeat split; auto. }
  destruct (PrimFloat.ltb (DETOUR_THRESHOLD w) (detourMinutes_of w t currentUser other i))
    eqn:Egate; [exact H1|].
  eapply loop_effect_trans; [exact H1|].
  eapply loop_effect_weaken; [|apply pairing_loops_effect].
  intros r (Hd & Ha & Hb & Hr & myPref & otherPref & Hm & Ho & Hacc).
  unfold row_of_run. rewrite <- Hd in Egate.
  repeat split; try assumption. exists other, i. repeat split; try assumption.
  exists myPref, otherPref. split; [assumption|]. split; [|assumption].
  unfold select_prefs in Ho. now rewrite Hprefs in Ho.
Qed.

Lemma candidate_loop_effect userId currentUser myPrefs prefs candidates t rest :
  forall i st,
    (forall j other, nth_error rest j = Some other ->
                     nth_error candidates (i + j) = Some other) ->
    commute_preferences (cur_db st) = prefs ->
    loop_effect (row_of_run w userId currentUser myPrefs prefs candidates t) st
      (candidate_loop w userId currentUser myPrefs t i rest st).
Proof.
  induction rest as [|other rest IH]; intros i st Hrest Hprefs; simpl.
  - apply loop_effect_refl.
  - assert (Hstep : loop_effect (row_of_run w userId currentUser myPrefs prefs candidates t)
                      st (candidate_step w userId currentUser myPrefs t i other st)).
    { apply candidate_step_effect; [|assumption].
      specialize (Hrest 0%nat other eq_refl). now rewrite Nat.add_0_r in Hrest. }
    eapply loop_effect_trans; [exact Hstep|].
    apply IH.
    + intros j o Hj. specialize (Hrest (S j) o Hj).
      now rewrite Nat.add_succ_r in Hrest.
    + destruct Hstep as (_ & _ & _ & _ & _ & Hp & _). congruence.
Qed.

(** The shape of a run whose preconditions hold. *)
Lemma compute_success db userId currentUser :
  preconditions db userId currentUser ->
  let candidates := prefilter w currentUser (select_other_users db userId) in
  let t := fst (fetch_drive_times w currentUser candidates) in
  exists (added : list (string * match_row)) (evs : list event),
    compute w db userId =
      ({| status := 200;
          json :=
            let sorted :=
              Array_sort (fun a b => (s_rank_score a - s_rank_score b)%float)
                         (map (fun pr => summary_of (fst pr) (snd pr)) added) in
            ComputeBody (List.length sorted) sorted |},
       {| users := users db;
          commute_preferences := commute_preferences db;
          match_results := match_results (delete_matches db userId) ++ map snd added |},
       [EvQuery (QUserById userId); EvQuery (QPrefsByUser userId);
        EvQuery (QOtherUsers userId); EvQuery (QDeleteMatches userId)]
       ++ snd (fetch_drive_times w currentUser candidates) ++ evs)
    /\ inserted_rows evs = map snd added
    /\ existsb is_fetch evs = false
    /\ Forall (row_of_run w userId currentUser (select_prefs db userId)
                          (commute_preferences db) candidates t)
              (map snd added).
Proof.
  intros (Hu & Hlat & Hlng & Hp) candidates t.
  unfold compute.
  destruct (select_user db userId) as [|cu rest] eqn:Eu; [discriminate|].
  simpl in Hu. injection Hu as ->.
  rewrite Hlat, Hlng. simpl orb. cbv iota.
  destruct (select_prefs db userId) as [|p ps] eqn:Ep; [congruence|].
  change ((List.length (p :: ps) =? 0)%nat) with false. cbv iota.
  fold candidates.
  destruct (fetch_drive_times w currentUser candidates) as [t0 fetched] eqn:Ef.
  simpl in t. subst t. cbv zeta.
  match goal with
  | |- context [candidate_loop w userId currentUser ?mp t0 0 candidates ?s0] =>
      pose proof (candidate_loop_effect userId currentUser mp (commute_preferences db)
                    candidates t0 candidates 0 s0 (fun j other H => H) eq_refl) as Heff;
      remember (candidate_loop w userId currentUser mp t0 0 candidates s0) as st' eqn:Est
  end.
  clear Est.
  destruct Heff as (added & evs & H1 & H2 & H3 & H4 & H5 & H6 & H7 & H8 & H9).
  exists added, evs. simpl in H1, H2, H3, H4, H5.
  repeat split; try assumption.
  rewrite H1, H5. simpl snd.
  replace (cur_db st')
    with {| users := users db;
            commute_preferences := commute_preferences db;
            match_results := match_results (delete_matches db userId) ++ map snd added |}
    by (destruct (cur_db st') as [u c m]; simpl in *; subst; reflexivity).
  rewrite <- ?app_assoc. reflexivity.
Qed.

End Compute.

(* ================================================================== *)
(** * Array.prototype.sort                                             *)
(* ================================================================== *)

Section SortFacts.

Context {M : MathImpl}.
Context {A : Type}.
Variable comparefn : A -> A -> float.

Local Open Scope list_scope.

Lemma insert_Permutation (x : A) (l : list A) :
  Permutation (insert comparefn x l) (x :: l).
Proof.
  induction l as [|y l IH]; simpl.
  - apply Permutation_refl.
  - destruct (sorts_before comparefn x y).
    + apply Permutation_refl.
    + eapply Permutation_trans; [apply perm_skip, IH | apply perm_swap].
Qed.

Lemma fold_insert_Permutation (l acc : list A) :
  Permutation (fold_left (fun acc x => insert comparefn x acc) l acc) (acc ++ l).
Proof.
  revert acc. induction l as [|x l IH]; intros acc; simpl.
  - rewrite app_nil_r. apply Permutation_refl.
  - eapply Permutation_trans; [apply IH|].
    eapply Permutation_trans;
      [apply Permutation_app_tail, insert_Permutation|].
    simpl. apply Permutation_middle.
Qed.

Lemma stable_sort_Permutation (l : list A) : Permutation (stable_sort comparefn l) l.
Proof. apply (fold_insert_Permutation l []). Qed.

Lemma take_out_Permutation (i : nat) (l : list A) (x : A) (rest : list A) :
  take_out i l = Some (x, rest) -> Permutation l (x :: rest).
Proof.
  revert i x rest. induction l as [|y l IH]; intros i x rest H;
    [destruct i; discriminate|].
  destruct i as [|i]; simpl in H.
  - injection H as E1 E2. subst. apply Permutation_refl.
  - destruct (take_out i l) as [[z rest']|] eqn:E; [|discriminate].
    simpl in H. injection H as E1 E2. subst.
    eapply Permutation_trans; [apply perm_skip, (IH _ _ _ E) | apply perm_swap].
Qed.

Lemma take_out_some (i : nat) (l : list A) :
  (i < List.length l)%nat -> exists x rest, take_out i l = Some (x, rest).
Proof.
  revert i. induction l as [|y l IH]; intros i H; simpl in H; [lia|].
  destruct i as [|i]; simpl; [eauto|].
  destruct (IH i ltac:(lia)) as (x & rest & ->). simpl. eauto.
Qed.

Lemma arrange_Permutation (items : list A) (n : nat) :
  forall rest, List.length rest = n ->
               Permutation (arrange comparefn items n rest) rest.
Proof.
  induction n as [|n IH]; intros rest H; simpl.
  - destruct rest; [apply perm_nil | discriminate].
  - destruct (take_out_some
                (Array_sort_next A comparefn items rest mod List.length rest) rest)
      as (x & rest' & E).
    { apply Nat.mod_upper_bound. rewrite H. discriminate. }
    rewrite E. pose proof (take_out_Permutation _ _ _ _ E) as P.
    apply Permutation_sym. eapply Permutation_trans; [exact P|].
    apply perm_skip, Permutation_sym, IH.
    apply Permutation_length in P. simpl in P. lia.
Qed.

(** In every engine the result of a sort is a rearrangement of the array. *)
Lemma Array_sort_Permutation (l : list A) : Permutation (Array_sort comparefn l) l.
Proof.
  unfold Array_sort. destruct (consistent_comparator comparefn l).
  - apply stable_sort_Permutation.
  - now apply arrange_Permutation.
Qed.

Lemma Array_sort_length (l : list A) :
  List.length (Array_sort comparefn l) = List.length l.
Proof. apply Permutation_length, Array_sort_Permutation. Qed.

Lemma sorts_before_SortCompare (x y : A) :
  sorts_before comparefn x y = is_Lt (SortCompare comparefn x y).
Proof.
  unfold sorts_before, SortCompare.
  destruct (PrimFloat.ltb (comparefn x y) 0); [reflexivity|].
  now destruct (PrimFloat.ltb 0 (comparefn x y)).
Qed.

(** A comparison function that compares integer keys. *)
Variable key : A -> Z.

Lemma consistent_by_key (l : list A) :
  (forall x y, In x l -> In y l ->
               is_nan (comparefn x y) = false
               /\ SortCompare comparefn x y = (key x ?= key y)%Z) ->
  consistent_comparator comparefn l = true.
Proof.
  intros H. unfold consistent_comparator.
  apply forallb_forall. intros a Ha.
  apply forallb_forall. intros b Hb.
  apply forallb_forall. intros c Hc.
  unfold consistent_at.
  rewrite (proj1 (H a b Ha Hb)).
  rewrite (proj2 (H a a Ha Ha)), (proj2 (H a b Ha Hb)), (proj2 (H b a Hb Ha)),
    (proj2 (H b c Hb Hc)), (proj2 (H a c Ha Hc)).
  rewrite Z.compare_refl.
  destruct (Z.compare_spec (key a) (key b)), (Z.compare_spec (key b) (key a)),
    (Z.compare_spec (key b) (key c)), (Z.compare_spec (key a) (key c));
    simpl; try reflexivity; lia.
Qed.

Lemma insert_sorted_by_key (x : A) (l : list A) :
  (forall y, In y l -> sorts_before comparefn x y = (key x <? key y)%Z) ->
  StronglySorted (fun a b => (key a <= key b)%Z) l ->
  StronglySorted (fun a b => (key a <= key b)%Z) (insert comparefn x l).
Proof.
  induction l as [|y l IH]; intros H Hs; simpl.
  - repeat constructor.
  - inversion Hs as [|? ? Hs' Hall]; subst.
    rewrite (H y (or_introl eq_refl)).
    destruct (Z.ltb_spec (key x) (key y)) as [Hlt | Hge].
    + constructor; [exact Hs|].
      constructor; [lia|].
      eapply Forall_impl; [|exact Hall]. cbv beta. intros z Hz. lia.
    + constructor.
      * apply IH; [|exact Hs']. intros z Hz. apply H. now right.
      * eapply Permutation_Forall;
          [apply Permutation_sym, insert_Permutation|].
        constructor; [lia | exact Hall].
Qed.

Lemma stable_sort_sorted_by_key (l : list A) :
  (forall x y, In x l -> In y l ->
               sorts_before comparefn x y = (key x <? key y)%Z) ->
  StronglySorted (fun a b => (key a <= key b)%Z) (stable_sort comparefn l).
Proof.
  intros H. unfold stable_sort.
  assert (G : forall l' acc,
             incl l' l -> incl acc l ->
             StronglySorted (fun a b => (key a <= key b)%Z) acc ->
             StronglySorted (fun a b => (key a <= key b)%Z)
                            (fold_left (fun acc x => insert comparefn x acc) l' acc)).
  { induction l' as [|x l' IH]; intros acc Hl Hacc Hs; simpl; [assumption|].
    apply IH.
    - intros z Hz. apply Hl. now right.
    - intros z Hz.
      apply (Permutation_in _ (insert_Permutation x acc)) in Hz.
      destruct Hz as [<- | Hz]; [apply Hl; now left | now apply Hacc].
    - apply insert_sorted_by_key; [|exact Hs].
      intros y Hy. apply H; [apply Hl; now left | now apply Hacc]. }
  apply G; [apply incl_refl | intros z [] | constructor].
Qed.

End SortFacts.

(** ** Sorting by a difference of scores *)

Section ScoreOrder.

Context {M : MathImpl}.
Local Open Scope float_scope.

Lemma order_key_compare (a b : float) :
  is_finite a = true -> is_finite b = true ->
  SFcompare (Prim2SF a) (Prim2SF b) = Some (order_key a ?= order_key b)%Z.
Proof.
  intros Ha Hb. unfold order_key.
  pose proof (Prim2SF_valid a) as Va. pose proof (Prim2SF_valid b) as Vb.
  destruct (is_finite_shape a Ha) as (sa & [Ea | (ma & ea & Ea)]);
    destruct (is_finite_shape b Hb) as (sb & [Eb | (mb & eb & Eb)]);
    rewrite Ea, Eb in *; simpl in Va, Vb.
  - reflexivity.
  - cbn [SFcompare]. f_equal. symmetry.
    destruct (bounded_facts _ _ Vb) as (He & _).
    unfold SpecFloat.emin, prec, emax in He.
    assert (0 < Zpos mb * 2 ^ (eb + 1074))%Z
      by (apply Z.mul_pos_pos; [lia | apply Z.pow_pos_nonneg; lia]).
    destruct sb; unfold cond_Zopp;
      [apply Z.compare_gt_iff | apply Z.compare_lt_iff]; lia.
  - cbn [SFcompare]. f_equal. symmetry.
    destruct (bounded_facts _ _ Va) as (He & _).
    unfold SpecFloat.emin, prec, emax in He.
    assert (0 < Zpos ma * 2 ^ (ea + 1074))%Z
      by (apply Z.mul_pos_pos; [lia | apply Z.pow_pos_nonneg; lia]).
    destruct sa; unfold cond_Zopp;
      [apply Z.compare_lt_iff | apply Z.compare_gt_iff]; lia.
  - rewrite SFcompare_finite by assumption. f_equal.
    unfold signed_mantissa. rewrite !shl_align_value by lia.
    destruct (bounded_facts _ _ Va) as (Hea & _).
    destruct (bounded_facts _ _ Vb) as (Heb & _).
    unfold SpecFloat.emin, prec, emax in Hea, Heb.
    set (ez := Z.min ea eb).
    assert (Hez : (ez <= ea /\ ez <= eb /\ -1074 <= ez)%Z) by (subst ez; lia).
    assert (Hp : (2 ^ (ez + 1074) > 0)%Z)
      by (apply Z.lt_gt, Z.pow_pos_nonneg; lia).
    rewrite (Zmult_compare_compat_r _ _ _ Hp).
    f_equal.
    + replace (ea + 1074)%Z with ((ea - ez) + (ez + 1074))%Z by lia.
      rewrite (Z.pow_add_r 2 (ea - ez) (ez + 1074)) by lia.
      unfold cond_Zopp. destruct sa; ring.
    + replace (eb + 1074)%Z with ((eb - ez) + (ez + 1074))%Z by lia.
      rewrite (Z.pow_add_r 2 (eb - ez) (ez + 1074)) by lia.
      unfold cond_Zopp. destruct sb; ring.
Qed.

Lemma ltb_by_key (a b : float) :
  is_finite a = true -> is_finite b = true ->
  PrimFloat.ltb a b = (order_key a <? order_key b)%Z.
Proof.
  intros Ha Hb. rewrite FloatAxioms.ltb_spec. unfold SFltb.
  rewrite order_key_compare by assumption.
  unfold Z.ltb. now destruct (order_key a ?= order_key b)%Z.
Qed.

Lemma leb_by_key (a b : float) :
  is_finite a = true -> is_finite b = true ->
  PrimFloat.leb a b = (order_key a <=? order_key b)%Z.
Proof.
  intros Ha Hb. rewrite FloatAxioms.leb_spec. unfold SFleb.
  rewrite order_key_compare by assumption.
  unfold Z.leb. now destruct (order_key a ?= order_key b)%Z.
Qed.

Lemma ltb_zero_opp (x : float) : PrimFloat.ltb 0 (- x) = PrimFloat.ltb x 0.
Proof.
  rewrite !FloatAxioms.ltb_spec, FloatAxioms.opp_spec.
  change (Prim2SF 0) with (S754_zero false).
  destruct (Prim2SF x) as [[|]|[|]| |[|] m e]; reflexivity.
Qed.

Lemma sub_positive_iff_gt (a b : float) :
  PrimFloat.ltb 0 (a - b) = PrimFloat.ltb b a.
Proof.
  destruct (fsub_swap b a) as [E | [E1 E2]].
  - rewrite E, ltb_zero_opp. apply sub_negative_iff_lt.
  - rewrite <- (sub_negative_iff_lt b a), E1, E2. reflexivity.
Qed.

Lemma sub_finite_not_nan (a b : float) :
  is_finite a = true -> is_finite b = true -> is_nan (a - b) = false.
Proof.
  intros Ha Hb. apply is_nan_false_iff. rewrite FloatAxioms.sub_spec.
  pose proof (Prim2SF_valid a) as Va. pose proof (Prim2SF_valid b) as Vb.
  destruct (is_finite_shape a Ha) as (sa & [Ea | (ma & ea & Ea)]);
    destruct (is_finite_shape b Hb) as (sb & [Eb | (mb & eb & Eb)]);
    rewrite Ea, Eb in *; simpl in Va, Vb.
  - destruct sa, sb; discriminate.
  - discriminate.
  - discriminate.
  - unfold SF64sub, SFsub. cbv zeta.
    destruct (bounded_facts _ _ Va) as (Hea & _).
    destruct (bounded_facts _ _ Vb) as (Heb & _).
    match goal with
    | |- binary_normalize _ _ ?m ?e _ <> _ =>
        destruct m as [|p|p]; simpl binary_normalize; [discriminate | |];
          destruct (binary_round_sign false p e ltac:(lia)) as (m' & e' & [R | R]);
          destruct (binary_round_sign true p e ltac:(lia)) as (m'' & e'' & [R' | R']);
          rewrite ?R, ?R'; discriminate
    end.
Qed.

Lemma difference_compares_keys {A} (score : A -> float) (x y : A) :
  is_finite (score x) = true -> is_finite (score y) = true ->
  is_nan (score x - score y) = false
  /\ SortCompare (fun a b => score a - score b) x y
     = (order_key (score x) ?= order_key (score y))%Z.
Proof.
  intros Hx Hy. split; [now apply sub_finite_not_nan|].
  unfold SortCompare.
  rewrite sub_negative_iff_lt, sub_positive_iff_gt, !ltb_by_key by assumption.
  destruct (Z.compare_spec (order_key (score x)) (order_key (score y)));
    destruct (Z.ltb_spec (order_key (score x)) (order_key (score y)));
    destruct (Z.ltb_spec (order_key (score y)) (order_key (score x)));
    try reflexivity; lia.
Qed.

(** Sorting finite scores by their difference: the comparison function is
    consistent, so the result is the stable sorted arrangement, and every
    element has a score at most that of every later one. *)
Lemma sort_by_difference {A} (score : A -> float) (l : list A) :
  Forall (fun x => is_finite (score x) = true) l ->
  Array_sort (fun a b => score a - score b) l
  = stable_sort (fun a b => score a - score b) l
  /\ StronglySorted (fun a b => PrimFloat.leb (score a) (score b) = true)
                    (stable_sort (fun a b => score a - score b) l).
Proof.
  intros Hf. rewrite Forall_forall in Hf.
  split.
  - unfold Array_sort.
    rewrite (consistent_by_key _ (fun x => order_key (score x))); [reflexivity|].
    intros x y Hx Hy. apply difference_compares_keys; auto.
  - pose proof (stable_sort_sorted_by_key (fun a b => score a - score b)
                  (fun x => order_key (score x)) l) as Hs.
    assert (Hl : forall x, In x (stable_sort (fun a b => score a - score b) l) ->
                           is_finite (score x) = true).
    { intros x Hx. apply Hf.
      exact (Permutation_in _ (stable_sort_Permutation _ l) Hx). }
    specialize (Hs ltac:(intros x y Hx Hy;
                         rewrite sorts_before_SortCompare,
                           (proj2 (difference_compares_keys score x y (Hf x Hx) (Hf y Hy)));
                         unfold Z.ltb;
                         now destruct (order_key (score x) ?= order_key (score y))%Z)).
    revert Hl. induction Hs as [|a l' Hs IH Hall]; intros Hl; constructor.
    + apply IH. intros x Hx. apply Hl. now right.
    + rewrite Forall_forall in Hall. apply Forall_forall. intros b Hb.
      rewrite leb_by_key by (apply Hl; simpl; auto).
      apply Z.leb_le. now apply Hall.
Qed.

End ScoreOrder.

(* ================================================================== *)
(** * Properties of a compute run                                      *)
(* ================================================================== *)

Section Claims.

Context {M : MathImpl}.
Variable w : World.

Local Open Scope string_scope.
Local Open Scope list_scope.

(** ** Preconditions *)

(** C5.  When the requesting user has no row or no home location, or has no
    commute preferences, the run stops before any work on candidates: the
    handler answers 400 with a reason that names the missing piece (a
    different reason in each case), has only looked up the user (and the
    user's preferences), and leaves the database as it was. *)
Theorem compute_aborts_without_home_or_preferences :
  forall (db : DB) (userId : string),
    ((select_user db userId = []
      \/ exists currentUser rest,
           select_user db userId = currentUser :: rest
           /\ (home_lat currentUser = None \/ home_lng currentUser = None)) ->
     compute w db userId
     = ({| status := 400; json := ErrorBody "Please set your home address first" |},
        db, [EvQuery (QUserById userId)]))
    /\ (forall currentUser,
          hd_error (select_user db userId) = Some currentUser ->
          falsy (home_lat currentUser) = false ->
          falsy (home_lng currentUser) = false ->
          select_prefs db userId = [] ->
          compute w db userId
          = ({| status := 400;
                json := ErrorBody "Please set your commute preferences first" |},
             db, [EvQuery (QUserById userId); EvQuery (QPrefsByUser userId)]))
    /\ "Please set your home address first"
       <> "Please set your commute preferences first".
Proof.
  intros db userId. split; [|split].
  - intros [E | (cu & rest & E & Hnull)]; unfold compute; rewrite E.
    + reflexivity.
    + destruct Hnull as [H | H]; rewrite H; simpl; rewrite ?orb_true_r; reflexivity.
  - intros cu Hu Hlat Hlng Hp. unfold compute.
    destruct (select_user db userId) as [|cu' rest]; [discriminate|].
    simpl in Hu. injection Hu as ->.
    rewrite Hlat, Hlng, Hp. reflexivity.
  - discriminate.
Qed.

(** ** The drive-time estimator *)

Lemma detour_fallback t currentUser other i :
  lookup_unavailable t i ->
  detourMinutes_of w t currentUser other i = estimated_detour w currentUser other.
Proof.
  unfold detourMinutes_of, estimated_detour.
  intros [H | [H | [H | [(d2r & H & Hi) | (r2w & H & Hi)]]]]; rewrite H.
  - reflexivity.
  - now destruct (driverToRiderMin t).
  - now destruct (driverToRiderMin t), (riderToWorkMin t).
  - destruct (riderToWorkMin t); [|reflexivity].
    rewrite Hi. simpl. now rewrite andb_false_r.
  - destruct (driverToRiderMin t); [|reflexivity].
    rewrite Hi. simpl. now rewrite !andb_false_r.
Qed.


Lemma fetch_drive_times_no_key currentUser candidates :
  apiKey w = None -> fetch_drive_times w currentUser candidates = (no_drive_times, []).
Proof. intros H. unfold fetch_drive_times. now rewrite H. Qed.

(** The events of the lookup: its two requests, for the candidates it was
    given, and possibly the logged error. *)
Lemma fetch_drive_times_events currentUser candidates e :
  In e (snd (fetch_drive_times w currentUser candidates)) ->
  e = EvConsoleError
  \/ exists k, apiKey w = Some k
               /\ (e = EvFetch (request1 w currentUser candidates k)
                   \/ e = EvFetch (request2 w candidates k)).
Proof.
  unfold fetch_drive_times.
  destruct (apiKey w) as [k|]; [|intros []].
  destruct (0 <? List.length candidates)%nat; [|intros []].
  assert (G : forall e' : event,
             In e' [EvFetch (request1 w currentUser candidates k);
                    EvFetch (request2 w candidates k); EvConsoleError] ->
             e' = EvConsoleError
             \/ exists k0, Some k = Some k0
                  /\ (e' = EvFetch (request1 w currentUser candidates k0)
                      \/ e' = EvFetch (request2 w candidates k0))).
  { intros e' [<- | [<- | [<- | []]]]; eauto. }
  repeat match goal with
         | |- context [match ?x with _ => _ end] => destruct x
         end; simpl; intros H; apply G; simpl; tauto.
Qed.

Lemma fetch_drive_times_no_rows currentUser candidates :
  inserted_rows (snd (fetch_drive_times w currentUser candidates)) = []
  /\ loaded_prefs (snd (fetch_drive_times w currentUser candidates)) = [].
Proof.
  unfold fetch_drive_times, getDistanceMatrixMinutes;
    repeat match goal with
           | |- context [match ?x with _ => _ end] => destruct x eqn:?
           end; split; reflexivity.
Qed.



(** C2.  In estimated mode the detour of a candidate is
    [max(0, (distance(requester, candidate) + distance(candidate, destination)
    - distance(requester, destination)) * 2)] on haversine miles: this is
    what [detourMinutes_of] returns whenever the exact lookup is unavailable
    for the candidate, and in particular for every candidate when no routing
    key is configured; in that case the run issues no request at all. *)
Theorem estimated_detour_is_twice_extra_haversine_miles :
  (forall t currentUser other i,
      lookup_unavailable t i ->
      detourMinutes_of w t currentUser other i
      = Math_max 0
          ((haversine (num (home_lat currentUser)) (num (home_lng currentUser))
                      (num (home_lat other)) (num (home_lng other))
            + haversine (num (home_lat other)) (num (home_lng other))
                        (WORK_LAT w) (WORK_LNG w)
            - haversine (num (home_lat currentUser)) (num (home_lng currentUser))
                        (WORK_LAT w) (WORK_LNG w)) * 2)%float)
  /\ (apiKey w = None ->
      forall currentUser candidates other i,
        fetch_drive_times w currentUser candidates = (no_drive_times, [])
        /\ detourMinutes_of w (fst (fetch_drive_times w currentUser candidates))
                            currentUser other i
           = estimated_detour w currentUser other)
  /\ (apiKey w = None ->
      forall db userId, existsb is_fetch (snd (compute w db userId)) = false).
Proof.
  split; [|split].
  - intros t currentUser other i H.
    rewrite (detour_fallback _ _ _ _ H). reflexivity.
  - intros Hk currentUser candidates other i.
    rewrite (fetch_drive_times_no_key _ _ Hk). split; [reflexivity|].
    apply detour_fallback. now left.
  - intros Hk db userId.
    unfold compute.
    destruct (select_user db userId) as [|cu rest] eqn:Eu; [reflexivity|].
    destruct (falsy (home_lat cu) || falsy (home_lng cu)) eqn:Ef; [reflexivity|].
    destruct (List.length (select_prefs db userId) =? 0)%nat eqn:Ep; [reflexivity|].
    apply orb_false_elim in Ef. destruct Ef as [Hlat Hlng].
    assert (Hpre : preconditions db userId cu).
    { unfold preconditions. rewrite Eu. repeat split; try assumption.
      intros E. rewrite E in Ep. discriminate. }
    destruct (compute_success w db userId cu Hpre) as (added & evs & Hc & _ & Hf & _).
    unfold compute in Hc. rewrite Eu, Hlat, Hlng, Ep in Hc. simpl orb in Hc.
    cbv iota in Hc. rewrite Hc. cbn [snd].
    rewrite (fetch_drive_times_no_key _ _ Hk). simpl. exact Hf.
Qed.









(** ** The detour gate *)

Lemma inserted_rows_app (l1 l2 : list event) :
  inserted_rows (l1 ++ l2) = inserted_rows l1 ++ inserted_rows l2.
Proof. apply flat_map_app. Qed.

Lemma loaded_prefs_app (l1 l2 : list event) :
  loaded_prefs (l1 ++ l2) = loaded_prefs l1 ++ loaded_prefs l2.
Proof. apply flat_map_app. Qed.

(** The rows a run inserts are the rows of its candidate loop. *)
Lemma compute_inserted_rows db userId currentUser :
  preconditions db userId currentUser ->
  let candidates := prefilter w currentUser (select_other_users db userId) in
  let t := fst (fetch_drive_times w currentUser candidates) in
  Forall (row_of_run w userId currentUser (select_prefs db userId)
                     (commute_preferences db) candidates t)
         (inserted_rows (snd (compute w db userId)))
  /\ match_results (snd (fst (compute w db userId)))
     = match_results (delete_matches db userId)
       ++ inserted_rows (snd (compute w db userId)).
Proof.
  intros Hpre candidates t.
  destruct (compute_success w db userId currentUser Hpre)
    as (added & evs & Hc & Hins & _ & Hrows).
  rewrite Hc. cbn [fst snd match_results].
  rewrite !inserted_rows_app.
  rewrite (proj1 (fetch_drive_times_no_rows _ _)), Hins. simpl.
  split; [exact Hrows | reflexivity].
Qed.

(** C1.  A candidate whose detour exceeds [DETOUR_THRESHOLD] (15 unless the
    environment sets it) contributes nothing: the loop body loads the
    candidate's preferences and goes on to the next candidate, without
    looking at any pair of preferences, computing a score, drawing an
    identifier or writing a row.  Hence every row a run inserts is the row
    of a candidate whose detour does not exceed the threshold, and carries
    that detour. *)
Theorem detour_gate_drops_candidate :
  (forall userId currentUser myPrefs t i other st,
      PrimFloat.ltb (DETOUR_THRESHOLD w) (detourMinutes_of w t currentUser other i) = true ->
      candidate_step w userId currentUser myPrefs t i other st
      = {| newMatches := newMatches st;
           cur_db := cur_db st;
           trace := trace st ++ [EvQuery (QPrefsByUser (id other))];
           uuid_count := uuid_count st |})
  /\ (forall db userId currentUser,
        preconditions db userId currentUser ->
        let candidates := prefilter w currentUser (select_other_users db userId) in
        let t := fst (fetch_drive_times w currentUser candidates) in
        Forall (fun r =>
                  exists other i,
                    nth_error candidates i = Some other
                    /\ user_b_id r = id other
                    /\ detour_minutes r = detourMinutes_of w t currentUser other i
                    /\ PrimFloat.ltb (DETOUR_THRESHOLD w)
                         (detourMinutes_of w t currentUser other i) = false)
               (inserted_rows (snd (compute w db userId))))
  /\ (env_DETOUR_THRESHOLD_MIN w = None -> DETOUR_THRESHOLD w = 15%float).
Proof.
  split; [|split].
  - intros userId currentUser myPrefs t i other st H.
    unfold candidate_step. now rewrite H.
  - intros db userId currentUser Hpre candidates t.
    destruct (compute_inserted_rows db userId currentUser Hpre) as [H _].
    eapply Forall_impl; [|exact H].
    intros r (_ & Hgate & _ & other & i & Hnth & Hid & Hd & _).
    exists other, i. rewrite Hd in Hgate. auto.
  - intros H. unfold DETOUR_THRESHOLD. now rewrite H.
Qed.

(** ** The prefilter *)

Lemma pair_step_loaded userId other detourMinutes myPref otherPref st :
  loaded_prefs (trace (pair_step w userId other detourMinutes myPref otherPref st))
  = loaded_prefs (trace st).
Proof.
  unfold pair_step.
  repeat match goal with
         | |- context [if ?c then _ else _] => destruct c
         end; try reflexivity.
  cbn [trace]. rewrite loaded_prefs_app. simpl. now rewrite app_nil_r.
Qed.

Lemma pairing_loops_loaded userId other detourMinutes myPrefs otherPrefs st :
  loaded_prefs (trace (pairing_loops w userId other detourMinutes myPrefs otherPrefs st))
  = loaded_prefs (trace st).
Proof.
  unfold pairing_loops. revert st.
  induction myPrefs as [|myPref myPrefs IH]; intros st; simpl; [reflexivity|].
  rewrite IH. clear IH. revert st.
  induction otherPrefs as [|otherPref otherPrefs IH]; intros st; simpl; [reflexivity|].
  rewrite IH. apply pair_step_loaded.
Qed.

Lemma candidate_loop_loaded userId currentUser myPrefs t rest :
  forall i st,
    loaded_prefs (trace (candidate_loop w userId currentUser myPrefs t i rest st))
    = loaded_prefs (trace st) ++ map id rest.
Proof.
  induction rest as [|other rest IH]; intros i st; simpl.
  - now rewrite app_nil_r.
  - rewrite IH. unfold candidate_step.
    destruct (PrimFloat.ltb _ _);
      rewrite ?pairing_loops_loaded; cbn [trace];
      rewrite loaded_prefs_app; simpl; now rewrite <- app_assoc.
Qed.

(** C6.  The prefilter keeps exactly the users whose haversine distance from
    the requester is at most [DISTANCE_THRESHOLD] (30 miles unless the
    environment sets it).  It is applied whether or not a routing key is
    configured: the candidates whose preferences a run loads are the
    prefiltered users, in order, and the only requests a run sends to the
    routing service are the two built from the prefiltered users, so no
    drive time is looked up for a user beyond the threshold. *)
Theorem prefilter_keeps_users_within_distance_threshold :
  (forall currentUser otherUsers other,
      In other (prefilter w currentUser otherUsers)
      <-> In other otherUsers
          /\ PrimFloat.leb
               (haversine (num (home_lat currentUser)) (num (home_lng currentUser))
                          (num (home_lat other)) (num (home_lng other)))
               (DISTANCE_THRESHOLD w) = true)
  /\ (env_DISTANCE_THRESHOLD_MI w = None -> DISTANCE_THRESHOLD w = 30%float)
  /\ (forall db userId currentUser,
        preconditions db userId currentUser ->
        let candidates := prefilter w currentUser (select_other_users db userId) in
        loaded_prefs (snd (compute w db userId)) = userId :: map id candidates
        /\ forall r, In (EvFetch r) (snd (compute w db userId)) ->
             exists k, apiKey w = Some k
                       /\ (r = request1 w currentUser candidates k
                           \/ r = request2 w candidates k)).
Proof.
  split; [|split].
  - intros currentUser otherUsers other. unfold prefilter. apply filter_In.
  - intros H. unfold DISTANCE_THRESHOLD. now rewrite H.
  - intros db userId currentUser Hpre candidates.
    destruct (compute_success w db userId currentUser Hpre)
      as (added & evs & Hc & _ & Hf & _).
    fold candidates in Hc. split.
    + destruct Hpre as (Hu & Hlat & Hlng & Hp).
      unfold compute.
      destruct (select_user db userId) as [|cu rest'] eqn:Eu; [discriminate|].
      simpl in Hu. injection Hu as ->.
      rewrite Hlat, Hlng. simpl orb. cbv iota.
      destruct (select_prefs db userId) as [|p ps] eqn:Ep; [congruence|].
      change ((List.length (p :: ps) =? 0)%nat) with false. cbv iota.
      fold candidates.
      destruct (fetch_drive_times w currentUser candidates) as [t0 fetched] eqn:Ef.
      cbn [snd]. rewrite candidate_loop_loaded. cbn [trace].
      rewrite !loaded_prefs_app.
      pose proof (proj2 (fetch_drive_times_no_rows currentUser candidates)) as Hn.
      rewrite Ef in Hn. cbn [snd] in Hn. rewrite Hn. reflexivity.
    + intros r Hin. rewrite Hc in Hin. cbn [snd] in Hin.
      apply in_app_or in Hin. destruct Hin as [Hin | Hin].
      { simpl in Hin. repeat (destruct Hin as [Hin | Hin]; [discriminate|]).
        contradiction. }
      apply in_app_or in Hin. destruct Hin as [Hin | Hin].
      * apply fetch_drive_times_events in Hin.
        destruct Hin as [Hin | (k & Hk & [Hin | Hin])]; [discriminate| |];
          injection Hin as ->; eauto.
      * exfalso. clear Hc.
        induction evs as [|e evs IH]; [contradiction|].
        simpl in Hf. apply orb_false_elim in Hf. destruct Hf as [He Hf].
        destruct Hin as [-> | Hin]; [discriminate | now apply IH].
Qed.

(** ** Reporting *)

(** C7 (as the code has it).  A run whose preconditions hold answers 200
    with the summaries of the rows it generated, in some order, and their
    number.  Each generated row is stored with its unrounded detour and its
    unrounded score [detour * W_DETOUR - overlap * W_OVERLAP]; its summary
    carries the detour and the score rounded to one decimal place.  The
    summaries are ordered by comparing their rounded scores: when every
    reported score is a finite number, the reported list is the stable sorted
    arrangement of the generated summaries, in which every entry has a
    rounded score at most that of every later entry.  (With a score that is
    not finite the comparison function is not consistent, and the order is
    the engine's.) *)
Theorem compute_reports_sorted_by_rounded_score :
  forall db userId currentUser,
    preconditions db userId currentUser ->
    exists (added : list (string * match_row)) (reported : list match_summary),
      fst (fst (compute w db userId))
      = {| status := 200; json := ComputeBody (List.length reported) reported |}
      /\ List.length reported = List.length added
      /\ match_results (snd (fst (compute w db userId)))
         = match_results (delete_matches db userId) ++ map snd added
      /\ inserted_rows (snd (compute w db userId)) = map snd added
      /\ Forall (fun r => rank_score r
                          = (detour_minutes r * W_DETOUR
                             - time_overlap_minutes r * W_OVERLAP)%float)
                (map snd added)
      /\ Permutation reported (map (fun pr => summary_of (fst pr) (snd pr)) added)
      /\ (Forall (fun s => is_finite (s_rank_score s) = true) reported ->
          reported
          = stable_sort (fun a b => (s_rank_score a - s_rank_score b)%float)
                        (map (fun pr => summary_of (fst pr) (snd pr)) added)
          /\ StronglySorted
               (fun a b => PrimFloat.leb (s_rank_score a) (s_rank_score b) = true)
               reported).
Proof.
  intros db userId currentUser Hpre.
  destruct (compute_success w db userId currentUser Hpre)
    as (added & evs & Hc & Hins & _ & Hrows).
  exists added.
  eexists (Array_sort _ (map (fun pr => summary_of (fst pr) (snd pr)) added)).
  rewrite Hc. cbn [fst snd match_results].
  repeat split.
  - now rewrite Array_sort_length, length_map.
  - rewrite !inserted_rows_app.
    rewrite (proj1 (fetch_drive_times_no_rows _ _)), Hins. reflexivity.
  - eapply Forall_impl; [|exact Hrows]. intros r Hr. apply Hr.
  - apply Array_sort_Permutation.
  - apply (sort_by_difference s_rank_score).
    eapply Permutation_Forall; [apply Array_sort_Permutation | exact H].
  - rewrite (proj1 (sort_by_difference s_rank_score _
                      (Permutation_Forall (Array_sort_Permutation _ _) H))).
    apply (sort_by_difference s_rank_score).
    eapply Permutation_Forall; [apply Array_sort_Permutation | exact H].
Qed.

(** ** Replace on recompute *)

Lemma filter_idempotent {A} (f : A -> bool) (l : list A) :
  filter f (filter f l) = filter f l.
Proof.
  induction l as [|a l IH]; simpl; [reflexivity|].
  destruct (f a) eqn:E; simpl; rewrite ?E, IH; reflexivity.
Qed.

(** The handler reads the database only through the users, the
    preferences, and the match rows that survive its DELETE. *)
Lemma compute_reads db1 db2 userId currentUser :
  users db1 = users db2 ->
  commute_preferences db1 = commute_preferences db2 ->
  delete_matches db1 userId = delete_matches db2 userId ->
  preconditions db2 userId currentUser ->
  compute w db1 userId = compute w db2 userId.
Proof.
  intros Hu Hp Hd (Hsel & Hlat & Hlng & Hprefs).
  unfold compute, select_user, select_prefs, select_other_users in *.
  rewrite Hu, Hp, Hd.
  destruct (filter (fun u => id u =? userId) (users db2)) as [|cu rest];
    [discriminate|].
  simpl in Hsel. injection Hsel as ->. rewrite Hlat, Hlng. simpl orb. cbv iota.
  destruct (filter (fun p => user_id p =? userId) (commute_preferences db2));
    [congruence | reflexivity].
Qed.

(** A run whose preconditions hold, written out. *)
Lemma compute_unfold db userId currentUser :
  preconditions db userId currentUser ->
  let candidates := prefilter w currentUser (select_other_users db userId) in
  let st :=
    candidate_loop w userId currentUser (select_prefs db userId)
      (fst (fetch_drive_times w currentUser candidates)) 0 candidates
      {| newMatches := [];
         cur_db := delete_matches db userId;
         trace := [EvQuery (QUserById userId); EvQuery (QPrefsByUser userId);
                   EvQuery (QOtherUsers userId); EvQuery (QDeleteMatches userId)]
                  ++ snd (fetch_drive_times w currentUser candidates);
         uuid_count := 0 |} in
  compute w db userId
  = ({| status := 200;
        json :=
          let sorted :=
            Array_sort (fun a b => (s_rank_score a - s_rank_score b)%float)
                       (newMatches st) in
          ComputeBody (List.length sorted) sorted |},
     cur_db st, trace st).
Proof.
  intros (Hu & Hlat & Hlng & Hp). cbv zeta. unfold compute.
  destruct (select_user db userId) as [|cu rest] eqn:Eu; [discriminate|].
  simpl in Hu. injection Hu as ->.
  rewrite Hlat, Hlng. simpl orb. cbv iota.
  destruct (select_prefs db userId) as [|p ps] eqn:Ep; [congruence|].
  change ((List.length (p :: ps) =? 0)%nat) with false. cbv iota.
  destruct (fetch_drive_times w currentUser
              (prefilter w currentUser (select_other_users db userId))) as [t fetched].
  reflexivity.
Qed.

(** ** Pairing and scoring *)

(** Every row a run inserts pairs the user with one of the candidates, and
    comes from one of the user's preferences and one of that candidate's
    which have the same direction (the row's), compatible roles, and a
    schedule overlap on a common day of the row's non-zero number of
    minutes; its score is [detour * W_DETOUR - overlap * W_OVERLAP]. *)
Theorem inserted_rows_come_from_accepted_pairs :
  forall db userId currentUser,
    preconditions db userId currentUser ->
    let candidates := prefilter w currentUser (select_other_users db userId) in
    Forall (fun r =>
              user_a_id r = userId
              /\ rank_score r
                 = (detour_minutes r * W_DETOUR
                    - time_overlap_minutes r * W_OVERLAP)%float
              /\ exists other myPref otherPref,
                   In other candidates
                   /\ user_b_id r = id other
                   /\ In myPref (select_prefs db userId)
                   /\ In otherPref (select_prefs db (id other))
                   /\ accepted_pair myPref otherPref r)
           (inserted_rows (snd (compute w db userId))).
Proof.
  intros db userId currentUser Hpre candidates.
  destruct (compute_inserted_rows db userId currentUser Hpre) as [H _].
  eapply Forall_impl; [|exact H].
  intros r (Ha & _ & Hscore & other & i & Hnth & Hid & _ & myPref & otherPref
            & Hm & Ho & Hacc).
  split; [assumption|]. split; [assumption|].
  exists other, myPref, otherPref.
  split; [eapply nth_error_In; eassumption|].
  split; [assumption|]. split; [assumption|]. split; [exact Ho | exact Hacc].
Qed.

End Claims.

(* ================================================================== *)
(** * Replace on recompute                                             *)
(* ================================================================== *)

Section Recompute.

Context {M : MathImpl}.
Variable w : World.
Variable ids : nat -> string.

Local Open Scope string_scope.
Local Open Scope list_scope.

Lemma pair_step_same userId other d myPref otherPref st st' :
  same_but_ids ids st st' ->
  same_but_ids ids (pair_step w userId other d myPref otherPref st)
               (pair_step (with_uuid w ids) userId other d myPref otherPref st').
Proof.
  intros H. unfold pair_step.
  destruct (negb (direction myPref =? direction otherPref)); [exact H|].
  destruct (negb (rolesCompatible (role myPref) (role otherPref))); [exact H|].
  destruct (PrimFloat.eqb _ 0 || _); [exact H|].
  destruct H as (Hu & Hp & Hr & Hi).
  unfold same_but_ids.
  cbn [cur_db trace uuid_count insert_match users commute_preferences uuidv4 with_uuid].
  rewrite !inserted_rows_app, !map_app, Hr, Hi, seq_S, map_app.
  repeat split; assumption.
Qed.

Lemma pairing_loops_same userId other d myPrefs otherPrefs :
  forall st st',
    same_but_ids ids st st' ->
    same_but_ids ids (pairing_loops w userId other d myPrefs otherPrefs st)
                 (pairing_loops (with_uuid w ids) userId other d myPrefs otherPrefs st').
Proof.
  unfold pairing_loops.
  induction myPrefs as [|p ps IH]; intros st st' H; simpl; [exact H|].
  apply IH. clear IH. revert st st' H.
  induction otherPrefs as [|q qs IHq]; intros st st' H; simpl; [exact H|].
  apply IHq. now apply pair_step_same.
Qed.

Lemma candidate_step_same userId currentUser myPrefs t i other st st' :
  same_but_ids ids st st' ->
  same_but_ids ids (candidate_step w userId currentUser myPrefs t i other st)
               (candidate_step (with_uuid w ids) userId currentUser myPrefs t i other st').
Proof.
  intros H. unfold candidate_step.
  change (DETOUR_THRESHOLD (with_uuid w ids)) with (DETOUR_THRESHOLD w).
  change (detourMinutes_of (with_uuid w ids) t currentUser other i)
    with (detourMinutes_of w t currentUser other i).
  assert (Hq : same_but_ids ids
                 {| newMatches := newMatches st; cur_db := cur_db st;
                    trace := trace st ++ [EvQuery (QPrefsByUser (id other))];
                    uuid_count := uuid_count st |}
                 {| newMatches := newMatches st'; cur_db := cur_db st';
                    trace := trace st' ++ [EvQuery (QPrefsByUser (id other))];
                    uuid_count := uuid_count st' |}).
  { destruct H as (Hu & Hp & Hr & Hi). unfold same_but_ids.
    cbn [cur_db trace uuid_count].
    rewrite !inserted_rows_app. cbn [inserted_rows flat_map app].
    rewrite !app_nil_r. repeat split; assumption. }
  destruct (PrimFloat.ltb (DETOUR_THRESHOLD w) (detourMinutes_of w t currentUser other i));
    [exact Hq|].
  replace (select_prefs (cur_db st') (id other)) with (select_prefs (cur_db st) (id other))
    by (unfold select_prefs; destruct H as (_ & Hp & _); now rewrite Hp).
  now apply pairing_loops_same.
Qed.

Lemma candidate_loop_same userId currentUser myPrefs t rest :
  forall i st st',
    same_but_ids ids st st' ->
    same_but_ids ids (candidate_loop w userId currentUser myPrefs t i rest st)
                 (candidate_loop (with_uuid w ids) userId currentUser myPrefs t i rest st').
Proof.
  induction rest as [|other rest IH]; intros i st st' H; simpl; [exact H|].
  apply IH. now apply candidate_step_same.
Qed.

(** After a run, the match rows that involve the user are the rows the run
    inserted: every earlier row of the user, on either side of the pair, is
    gone.  Running the handler again on the database it left, with the same
    services and whatever identifiers [uuidv4()] returns this time,
    regenerates the same rows under the new identifiers: it answers 200, it
    inserts rows with the same users, direction, detour, overlap and score
    in the same order, their identifiers are the ones drawn, and the
    database then holds the rows of the other users followed by the
    regenerated rows. *)
Theorem compute_replaces_matches_of_user :
  forall db userId currentUser,
    preconditions db userId currentUser ->
    (forall r, In r (match_results (snd (fst (compute w db userId)))) ->
               user_a_id r = userId \/ user_b_id r = userId ->
               In r (inserted_rows (snd (compute w db userId))))
    /\ (let first := compute w db userId in
        let again := compute (with_uuid w ids) (snd (fst first)) userId in
        status (fst (fst again)) = 200
        /\ map row_content (inserted_rows (snd again))
           = map row_content (inserted_rows (snd first))
        /\ map match_id (inserted_rows (snd again))
           = map ids (seq 0 (List.length (inserted_rows (snd first))))
        /\ match_results (snd (fst again))
           = filter (fun r => negb (involves userId r)) (match_results db)
             ++ inserted_rows (snd again)).
Proof.
  intros db userId currentUser Hpre.
  destruct (compute_success w db userId currentUser Hpre)
    as (added & evs & Hc & Hins & _ & Hrows).
  pose proof (compute_inserted_rows w db userId currentUser Hpre) as [_ Hdb].
  split.
  - intros r Hin Huser. rewrite Hdb in Hin.
    apply in_app_or in Hin. destruct Hin as [Hin | Hin]; [|assumption].
    exfalso. unfold delete_matches in Hin. cbn [match_results] in Hin.
    apply filter_In in Hin. destruct Hin as [_ Hf].
    apply negb_true_iff, orb_false_elim in Hf. destruct Hf as [Ha Hb].
    destruct Huser as [E | E]; subst userId;
      [rewrite String.eqb_refl in Ha | rewrite String.eqb_refl in Hb]; discriminate.
  - cbv zeta.
    assert (Hagain : compute (with_uuid w ids) (snd (fst (compute w db userId))) userId
                     = compute (with_uuid w ids) db userId).
    { apply (compute_reads (with_uuid w ids) _ _ _ currentUser); try assumption;
        rewrite Hc; cbn [fst snd users commute_preferences]; try reflexivity.
      unfold delete_matches. cbn [users commute_preferences match_results].
      f_equal. rewrite filter_app, filter_idempotent.
      replace (filter _ (map snd added)) with (@nil match_row);
        [now rewrite app_nil_r|].
      symmetry. apply filter_nil_iff. intros r Hr.
      rewrite Forall_forall in Hrows. destruct (Hrows r Hr) as (Ha & _).
      rewrite Ha, String.eqb_refl. reflexivity. }
    rewrite Hagain.
    pose proof (compute_inserted_rows (with_uuid w ids) db userId currentUser Hpre)
      as [_ Hdb'].
    rewrite Hdb'.
    rewrite (compute_unfold w db userId currentUser Hpre).
    rewrite (compute_unfold (with_uuid w ids) db userId currentUser Hpre).
    cbv zeta. cbn [fst snd status].
    change (prefilter (with_uuid w ids)) with (prefilter w).
    change (fetch_drive_times (with_uuid w ids)) with (fetch_drive_times w).
    match goal with
    | |- context [candidate_loop w userId currentUser ?mp ?t 0 ?cs ?s0] =>
        pose proof (candidate_loop_same userId currentUser mp t cs 0 s0 s0) as Hsame
    end.
    match type of Hsame with
    | ?P -> _ =>
        assert (H0 : P);
          [unfold same_but_ids; cbn [cur_db trace uuid_count];
           rewrite !inserted_rows_app,
             (proj1 (fetch_drive_times_no_rows w _ _));
           repeat split; reflexivity
          |specialize (Hsame H0); clear H0]
    end.
    destruct Hsame as (_ & _ & Hr & Hi).
    assert (Hlen : List.length (inserted_rows (trace
               (candidate_loop w userId currentUser (select_prefs db userId)
                  (fst (fetch_drive_times w currentUser
                          (prefilter w currentUser (select_other_users db userId))))
                  0 (prefilter w currentUser (select_other_users db userId))
                  {| newMatches := [];
                     cur_db := delete_matches db userId;
                     trace := [EvQuery (QUserById userId); EvQuery (QPrefsByUser userId);
                               EvQuery (QOtherUsers userId);
                               EvQuery (QDeleteMatches userId)]
                              ++ snd (fetch_drive_times w currentUser
                                        (prefilter w currentUser
                                           (select_other_users db userId)));
                     uuid_count := 0 |})))
             = uuid_count
                 (candidate_loop (with_uuid w ids) userId currentUser
                    (select_prefs db userId)
                    (fst (fetch_drive_times w currentUser
                            (prefilter w currentUser (select_other_users db userId))))
                    0 (prefilter w currentUser (select_other_users db userId))
                    {| newMatches := [];
                       cur_db := delete_matches db userId;
                       trace := [EvQuery (QUserById userId); EvQuery (QPrefsByUser userId);
                                 EvQuery (QOtherUsers userId);
                                 EvQuery (QDeleteMatches userId)]
                                ++ snd (fetch_drive_times w currentUser
                                          (prefilter w currentUser
                                             (select_other_users db userId)));
                       uuid_count := 0 |})).
    { apply (f_equal (@List.length _)) in Hr, Hi.
      rewrite !length_map in Hr. rewrite !length_map, length_seq in Hi. congruence. }
    repeat split.
    + symmetry. exact Hr.
    + rewrite Hlen. exact Hi.
Qed.

End Recompute.

(* ================================================================== *)
(** * More about a run of POST /compute                                *)
(* ================================================================== *)

Section FloatMax.
Local Open Scope float_scope.

(** [Math.max(0, x)] is NaN, [+0], or [x] when [x] is strictly positive:
    never negative and never [-0]. *)
Lemma Math_max_zero (x : float) :
  (is_nan x = true /\ is_nan (Math_max 0 x) = true)
  \/ (PrimFloat.ltb 0 x = false /\ Math_max 0 x = 0)
  \/ (PrimFloat.ltb 0 x = true /\ Math_max 0 x = x).
Proof.
  unfold Math_max, Math_max_of, fold_left, max_step.
  replace (is_nan 0) with false by reflexivity.
  replace (is_pos_zero 0 && is_neg_zero neg_infinity) with false by reflexivity.
  replace (PrimFloat.ltb neg_infinity 0) with true by reflexivity.
  destruct (is_nan x) eqn:Hn.
  - left. split; reflexivity.
  - right.
    replace (is_neg_zero 0) with false by reflexivity.
    rewrite andb_false_r.
    destruct (PrimFloat.ltb 0 x) eqn:Hl; [right | left]; split; reflexivity.
Qed.

End FloatMax.

Section ComputeMore.

Context {M : MathImpl}.
Variable w : World.

Local Open Scope string_scope.
Local Open Scope list_scope.

Lemma compute_rejects_or_runs db userId :
  (exists msg tr,
      compute w db userId = ({| status := 400; json := ErrorBody msg |}, db, tr)
      /\ filter is_fetch tr = [])
  \/ exists currentUser, preconditions db userId currentUser.
Proof.
  unfold compute, preconditions.
  destruct (select_user db userId) as [|cu rest] eqn:Eu.
  - left. eexists _, _. split; reflexivity.
  - destruct (falsy (home_lat cu) || falsy (home_lng cu)) eqn:Ef.
    + left. eexists _, _. split; reflexivity.
    + apply orb_false_iff in Ef. destruct Ef as [Hlat Hlng].
      destruct (select_prefs db userId) as [|p ps] eqn:Ep.
      * left. eexists _, _. split; reflexivity.
      * right. exists cu. simpl. repeat split; try assumption. discriminate.
Qed.

Lemma filter_is_fetch_none (evs : list event) :
  existsb is_fetch evs = false -> filter is_fetch evs = [].
Proof.
  induction evs as [|e evs IH]; simpl; [reflexivity|].
  destruct (is_fetch e); simpl; [discriminate|]. exact IH.
Qed.

Lemma fetch_drive_times_count currentUser candidates :
  (List.length (filter is_fetch (snd (fetch_drive_times w currentUser candidates))) <= 2)%nat
  /\ (apiKey w = None \/ candidates = [] ->
      snd (fetch_drive_times w currentUser candidates) = []).
Proof.
  unfold fetch_drive_times.
  destruct (apiKey w) as [k|]; [|split; [simpl; lia | reflexivity]].
  destruct candidates as [|c cs].
  { split; [simpl; lia | reflexivity]. }
  change ((0 <? List.length (c :: cs))%nat) with true. cbv iota.
  split.
  - destruct (getDistanceMatrixMinutes _ _ _ _) as [[[|row0 rows]|]|]; simpl; try lia;
      destruct (getDistanceMatrixMinutes _ _ _ _); simpl; lia.
  - intros [H | H]; discriminate.
Qed.

(** A run of POST /compute calls the routing service at most twice, however
    many candidates there are, and not at all when no API key is configured,
    when the run answers 400, or when the distance prefilter keeps no
    candidate. *)
Theorem compute_calls_routing_at_most_twice :
  forall (db : DB) (userId : string),
    let run := compute w db userId in
    (List.length (filter is_fetch (snd run)) <= 2)%nat
    /\ (apiKey w = None -> filter is_fetch (snd run) = [])
    /\ (status (fst (fst run)) = 400 -> filter is_fetch (snd run) = [])
    /\ (forall currentUser,
          preconditions db userId currentUser ->
          prefilter w currentUser (select_other_users db userId) = [] ->
          filter is_fetch (snd run) = []).
Proof.
  intros db userId run.
  destruct (compute_rejects_or_runs db userId) as [(msg & tr & E & Hf) | (cu & Hpre)].
  - subst run. rewrite E. simpl. rewrite Hf. simpl.
    repeat split; auto; lia.
  - destruct (compute_success w db userId cu Hpre) as (added & evs & E & _ & Hnf & _).
    assert (Hpre' : forall cu', preconditions db userId cu' -> cu' = cu).
    { intros cu' (H1 & _). destruct Hpre as (H2 & _). congruence. }
    subst run. rewrite E. cbn [snd fst status].
    rewrite !filter_app, (filter_is_fetch_none evs Hnf), app_nil_r. simpl.
    destruct (fetch_drive_times_count cu
                (prefilter w cu (select_other_users db userId))) as [Hc Hz].
    repeat split.
    + exact Hc.
    + intros Hk. now rewrite Hz by now left.
    + discriminate.
    + intros cu' Hcu' Hnil. rewrite (Hpre' cu' Hcu') in Hnil.
      now rewrite Hz by now right.
Qed.

Lemma filter_app_none {A} (f : A -> bool) (l added : list A) :
  Forall (fun r => f r = false) added -> filter f (l ++ added) = filter f l.
Proof.
  intros H. rewrite filter_app.
  replace (filter f added) with (@nil A); [apply app_nil_r|].
  induction H as [|x l' Hx _ IH]; simpl; [reflexivity|]. now rewrite Hx.
Qed.

(** A run of POST /compute writes neither the users nor the preferences,
    and leaves every match row that does not involve the requesting user as
    it was, in place and in order; a run that answers 400 leaves the whole
    database as it was. *)
Theorem compute_rewrites_only_matches_of_user :
  forall (db : DB) (userId : string),
    let db' := snd (fst (compute w db userId)) in
    users db' = users db
    /\ commute_preferences db' = commute_preferences db
    /\ filter (fun r => negb (involves userId r)) (match_results db')
       = filter (fun r => negb (involves userId r)) (match_results db)
    /\ (status (fst (fst (compute w db userId))) = 400 -> db' = db).
Proof.
  intros db userId db'.
  destruct (compute_rejects_or_runs db userId) as [(msg & tr & E & Hf) | (cu & Hpre)].
  - subst db'. rewrite E. simpl. repeat split; reflexivity.
  - destruct (compute_success w db userId cu Hpre) as (added & evs & E & _ & _ & Hrows).
    subst db'. rewrite E. cbn [snd fst users commute_preferences match_results status].
    repeat split; try discriminate.
    rewrite filter_app_none.
    + unfold delete_matches, involves. cbn [match_results].
      rewrite filter_idempotent. reflexivity.
    + eapply Forall_impl; [|exact Hrows].
      intros r (Ha & _). unfold involves. rewrite Ha, String.eqb_refl. reflexivity.
Qed.

(** The detour of a candidate is never negative: it is NaN, 0 or positive,
    from the routing service as from the estimate.  Every row a run inserts
    carries such a detour, not above the threshold, and an overlap that is
    positive (or NaN): a pair of windows that do not overlap is never
    stored. *)
Theorem stored_detour_and_overlap_are_not_negative :
  (forall t currentUser other i,
      let d := detourMinutes_of w t currentUser other i in
      is_nan d = true \/ d = 0%float \/ PrimFloat.ltb 0 d = true)
  /\ (forall db userId,
         Forall (fun r =>
                   (is_nan (detour_minutes r) = true
                    \/ detour_minutes r = 0%float
                    \/ PrimFloat.ltb 0 (detour_minutes r) = true)
                   /\ PrimFloat.ltb (DETOUR_THRESHOLD w) (detour_minutes r) = false
                   /\ (is_nan (time_overlap_minutes r) = true
                       \/ PrimFloat.ltb 0 (time_overlap_minutes r) = true))
                (inserted_rows (snd (compute w db userId)))).
Proof.
  assert (Hd : forall t currentUser other i,
             let d := detourMinutes_of w t currentUser other i in
             is_nan d = true \/ d = 0%float \/ PrimFloat.ltb 0 d = true).
  { intros t cu other i d.
    assert (Hx : exists x, d = Math_max 0 x).
    { subst d. unfold detourMinutes_of.
      destruct (driverToRiderMin t), (riderToWorkMin t); try (eexists; reflexivity).
      destruct (_ && _); eexists; reflexivity. }
    destruct Hx as (x & ->).
    destruct (Math_max_zero x) as [(_ & H) | [(_ & H) | (H & E)]].
    - now left.
    - right. now left.
    - right. right. now rewrite E. }
  split; [exact Hd|].
  intros db userId.
  destruct (compute_rejects_or_runs db userId) as [(msg & tr & E & Hf) | (cu & Hpre)].
  - rewrite E. simpl.
    unfold compute in E.
    destruct (select_user db userId) as [|cu rest].
    + injection E as _ <-. constructor.
    + destruct (_ || _).
      * injection E as _ <-. constructor.
      * destruct (_ =? _)%nat.
        -- injection E as _ <-. constructor.
        -- exfalso.
           destruct (fetch_drive_times _ _ _) in E. discriminate.
  - destruct (compute_inserted_rows w db userId cu Hpre) as [Hrows _].
    eapply Forall_impl; [|exact Hrows].
    intros r (_ & Hgate & _ & other & i & _ & _ & Hdet & myPref & otherPref & _ & _ & Hacc).
    split; [|split].
    + rewrite Hdet. apply Hd.
    + exact Hgate.
    + destruct Hacc as (_ & _ & _ & Hov & Hnz & Hdays).
      rewrite Hov in *.
      unfold computeOverlap in *.
      destruct (List.length _ =? 0)%nat eqn:El.
      * simpl in Hdays. congruence.
      * cbn [overlapMinutes] in *.
        destruct (Math_max_zero
                    (Math_min (timeToMinutes (latest_time myPref))
                              (timeToMinutes (latest_time otherPref))
                     - Math_max (timeToMinutes (earliest_time myPref))
                                (timeToMinutes (earliest_time otherPref)))%float)
          as [(_ & H) | [(_ & H) | (H & E)]].
        -- now left.
        -- rewrite H in Hnz. discriminate.
        -- right. now rewrite E.
Qed.

End ComputeMore.

(* ================================================================== *)
(** * Whole minutes as numbers                                         *)
(* ================================================================== *)

(** The times of day of the routes are whole numbers of minutes below
    6040; on these, and on their differences, the arithmetic of numbers is
    the arithmetic of integers. *)

Section Minutes.

Local Open Scope Z_scope.

(** Shifting right the bits that a shift to the left added loses nothing. *)
Lemma iter_shr_1_exact (p : positive) :
  forall q : positive,
    SpecFloat.iter_pos shr_1 p
      {| shr_m := Zpos (Pos.iter xO q p); shr_r := false; shr_s := false |}
    = {| shr_m := Zpos q; shr_r := false; shr_s := false |}.
Proof.
  induction p as [p IH | p IH | ]; intros q; simpl.
  - now rewrite !IH.
  - now rewrite !IH.
  - reflexivity.
Qed.

Lemma digits2_pos_iter (q p : positive) :
  digits2_pos (Pos.iter xO q p) = (digits2_pos q + p)%positive.
Proof.
  induction p as [|p IH] using Pos.peano_ind.
  - simpl. lia.
  - rewrite Pos.iter_succ. simpl digits2_pos. rewrite IH. lia.
Qed.

Lemma shifted_mantissa (q mx : positive) (s : Z) :
  0 < s -> Zpos mx = Zpos q * 2 ^ s -> mx = Pos.iter xO q (Z.to_pos s).
Proof.
  intros Hs E. apply Pos2Z.inj. rewrite iter_xO_pow, Z2Pos.id by lia. exact E.
Qed.

Lemma digits2_pos_shifted (q mx : positive) (s : Z) :
  0 <= s -> Zpos mx = Zpos q * 2 ^ s ->
  Zpos (digits2_pos mx) = Zpos (digits2_pos q) + s.
Proof.
  intros Hs E. destruct (Z.eq_dec s 0) as [-> | Hn].
  - rewrite Z.pow_0_r, Z.mul_1_r in E. injection E as ->. lia.
  - rewrite (shifted_mantissa q mx s) by (lia || assumption).
    rewrite digits2_pos_iter, Pos2Z.inj_add, Z2Pos.id by lia. reflexivity.
Qed.

(** A mantissa of [prec] digits is not shifted. *)
Lemma shr_fexp_canonical (mz : positive) (ez : Z) :
  Zpos (digits2_pos mz) = prec -> SpecFloat.emin prec emax <= ez ->
  shr_fexp prec emax (Zpos mz) ez loc_Exact
  = ({| shr_m := Zpos mz; shr_r := false; shr_s := false |}, ez).
Proof.
  intros Hd He. unfold shr_fexp. cbn [Zdigits2 shr_record_of_loc]. rewrite Hd.
  replace (SpecFloat.fexp prec emax (prec + ez) - ez) with 0
    by (unfold SpecFloat.fexp, SpecFloat.emin, prec, emax in *; lia).
  reflexivity.
Qed.

Lemma binary_round_aux_canonical (sx : bool) (mz : positive) (ez : Z) :
  Zpos (digits2_pos mz) = prec ->
  SpecFloat.emin prec emax <= ez <= emax - prec ->
  binary_round_aux prec emax sx (Zpos mz) ez loc_Exact = S754_finite sx mz ez.
Proof.
  intros Hd He. unfold binary_round_aux.
  rewrite shr_fexp_canonical by (assumption || lia).
  cbn [shr_m loc_of_shr_record round_nearest_even].
  rewrite shr_fexp_canonical by (assumption || lia).
  cbn [shr_m].
  replace (ez <=? emax - prec) with true by (symmetry; apply Z.leb_le; lia).
  reflexivity.
Qed.

(** Rounding is exact on an integer of less than [prec] digits, however
    many zero bits it is given below. *)
Lemma binary_round_exact (sx : bool) (q mx : positive) (s e0 : Z) :
  0 <= s ->
  Zpos mx = Zpos q * 2 ^ s ->
  Zpos (digits2_pos q) < prec ->
  SpecFloat.emin prec emax <= Zpos (digits2_pos q) + e0 - prec <= emax - prec ->
  binary_round prec emax sx mx (e0 - s)
  = S754_finite sx (Pos.iter xO q (Z.to_pos (prec - Zpos (digits2_pos q))))
                (Zpos (digits2_pos q) + e0 - prec).
Proof.
  intros Hs E Hd He.
  pose proof (digits2_pos_shifted q mx s Hs E) as Hdx.
  set (d := Zpos (digits2_pos q)) in *.
  set (mz := Pos.iter xO q (Z.to_pos (prec - d))).
  assert (Emz : Zpos mz = Zpos q * 2 ^ (prec - d))
    by (unfold mz; rewrite iter_xO_pow, Z2Pos.id by lia; reflexivity).
  assert (Hdz : Zpos (digits2_pos mz) = prec).
  { rewrite (digits2_pos_shifted q mz (prec - d)) by (lia || assumption). fold d. lia. }
  unfold binary_round. rewrite Hdx.
  replace (SpecFloat.fexp prec emax (d + s + (e0 - s))) with (d + e0 - prec)
    by (unfold SpecFloat.fexp, SpecFloat.emin, prec, emax in *; lia).
  unfold shl_align.
  destruct (d + e0 - prec - (e0 - s)) as [|n|n] eqn:En.
  - (* the mantissa has [prec] digits already *)
    assert (mx = mz).
    { apply Pos2Z.inj. rewrite E, Emz. f_equal. f_equal. lia. }
    subst mx. replace (e0 - s) with (d + e0 - prec) by lia.
    apply binary_round_aux_canonical; assumption.
  - (* more: the zero bits in excess are shifted out *)
    assert (Emx : mx = Pos.iter xO mz n).
    { apply Pos2Z.inj. rewrite iter_xO_pow, Emz, E, <- Z.mul_assoc, <- Z.pow_add_r by lia.
      f_equal. f_equal. lia. }
    rewrite <- (binary_round_aux_canonical sx mz (d + e0 - prec)) by assumption.
    unfold binary_round_aux.
    rewrite (shr_fexp_canonical mz) by (assumption || lia).
    replace (shr_fexp prec emax (Zpos mx) (e0 - s) loc_Exact)
      with ({| shr_m := Zpos mz; shr_r := false; shr_s := false |}, d + e0 - prec);
      [reflexivity|].
    unfold shr_fexp. cbn [Zdigits2 shr_record_of_loc]. rewrite Hdx.
    replace (SpecFloat.fexp prec emax (d + s + (e0 - s)) - (e0 - s)) with (Zpos n)
      by (unfold SpecFloat.fexp, SpecFloat.emin, prec, emax in *; lia).
    unfold shr. rewrite Emx, iter_shr_1_exact. f_equal. lia.
  - (* less: the mantissa is shifted to the left *)
    assert (Pos.iter xO mx n = mz).
    { apply Pos2Z.inj. rewrite iter_xO_pow, Emz, E, <- Z.mul_assoc, <- Z.pow_add_r by lia.
      f_equal. f_equal. lia. }
    rewrite H. apply binary_round_aux_canonical; assumption.
Qed.

Lemma digits2_pos_minutes (p : positive) :
  Zpos p <= 6039 -> 1 <= Zpos (digits2_pos p) <= 13.
Proof.
  intros H. split; [lia|].
  destruct (digits2_pos_bounds p) as [Hlo _].
  assert (Hlt : 2 ^ (Zpos (digits2_pos p) - 1) < 2 ^ 13) by (change (2 ^ 13) with 8192; lia).
  apply Z.pow_lt_mono_r_iff in Hlt; lia.
Qed.

(** The number of a non-zero whole number of minutes [k], given as
    [k * 2^s] at the exponent [-s]. *)
Lemma binary_normalize_minutes (k s : Z) :
  -6039 <= k <= 6039 -> k <> 0 -> 0 <= s <= 52 ->
  let q := Z.to_pos (Z.abs k) in
  binary_normalize prec emax (k * 2 ^ s) (- s) false
  = S754_finite (k <? 0) (Pos.iter xO q (Z.to_pos (prec - Zpos (digits2_pos q))))
                (Zpos (digits2_pos q) - prec).
Proof.
  intros H Hk Hs q.
  assert (Hq : Zpos q = Z.abs k) by (unfold q; rewrite Z2Pos.id; lia).
  pose proof (digits2_pos_minutes q ltac:(lia)) as Hd.
  assert (Hp : 0 < 2 ^ s) by (apply Z.pow_pos_nonneg; lia).
  assert (Hm : Zpos (Z.to_pos (Zpos q * 2 ^ s)) = Zpos q * 2 ^ s)
    by (rewrite Z2Pos.id; lia).
  pose proof (binary_round_exact (k <? 0) q (Z.to_pos (Zpos q * 2 ^ s)) s 0
                ltac:(lia) Hm ltac:(unfold prec; lia)
                ltac:(unfold SpecFloat.emin, prec, emax; lia)) as R.
  rewrite Z.add_0_r in R. change (0 - s) with (- s) in R.
  destruct k as [|p|p]; [congruence | |].
  - replace (Zpos p * 2 ^ s) with (Zpos (Z.to_pos (Zpos q * 2 ^ s)))
      by (rewrite Hm, Hq; reflexivity).
    exact R.
  - replace (Zneg p * 2 ^ s) with (Zneg (Z.to_pos (Zpos q * 2 ^ s)))
      by (rewrite <- Pos2Z.opp_pos, Hm, Hq; simpl Z.abs; lia).
    exact R.
Qed.

(** The shape of [of_Z n], for the proofs. *)
Lemma of_Z_shape (n : Z) :
  -6039 <= n <= 6039 ->
  (n = 0 /\ Prim2SF (of_Z n) = S754_zero false)
  \/ exists m e,
       Prim2SF (of_Z n) = S754_finite (n <? 0) m e
       /\ bounded prec emax m e = true
       /\ -52 <= e <= -40
       /\ cond_Zopp (n <? 0) (Zpos m) = n * 2 ^ (- e)
       /\ n <> 0.
Proof.
  intros H. destruct (Z.eq_dec n 0) as [-> | Hn]; [left; split; reflexivity|].
  right.
  pose proof (binary_normalize_minutes n 0 H Hn ltac:(lia)) as E. cbv zeta in E.
  rewrite Z.pow_0_r, Z.mul_1_r in E. change (- 0) with 0 in E.
  set (q := Z.to_pos (Z.abs n)) in *.
  assert (Hq : Zpos q = Z.abs n) by (unfold q; rewrite Z2Pos.id; lia).
  pose proof (digits2_pos_minutes q ltac:(lia)) as Hd.
  set (d := Zpos (digits2_pos q)) in *.
  set (m := Pos.iter xO q (Z.to_pos (prec - d))) in *.
  assert (Em : Zpos m = Zpos q * 2 ^ (prec - d))
    by (unfold m; rewrite iter_xO_pow, Z2Pos.id by (unfold prec; lia); reflexivity).
  assert (Hdm : Zpos (digits2_pos m) = prec).
  { rewrite (digits2_pos_shifted q m (prec - d)) by (unfold prec; lia || assumption).
    fold d. lia. }
  assert (Hb : bounded prec emax m (d - prec) = true).
  { unfold bounded, canonical_mantissa. rewrite Hdm.
    apply andb_true_intro. split; [apply Z.eqb_eq | apply Z.leb_le];
      unfold SpecFloat.fexp, SpecFloat.emin, prec, emax in *; lia. }
  exists m, (d - prec). split; [|split; [exact Hb | split; [unfold prec; lia | split; [|exact Hn]]]].
  - unfold of_Z. rewrite E. apply FloatAxioms.Prim2SF_SF2Prim. exact Hb.
  - rewrite Em, Hq. replace (- (d - prec)) with (prec - d) by lia.
    unfold cond_Zopp. destruct (Z.ltb_spec n 0); lia.
Qed.

Lemma of_Z_compare (a b : Z) :
  -6039 <= a <= 6039 -> -6039 <= b <= 6039 ->
  SFcompare (Prim2SF (of_Z a)) (Prim2SF (of_Z b)) = Some (a ?= b).
Proof.
  intros Ha Hb.
  destruct (of_Z_shape a Ha) as [[-> ->] | (ma & ea & -> & Ba & Ra & Va & Na)];
    destruct (of_Z_shape b Hb) as [[-> ->] | (mb & eb & -> & Bb & Rb & Vb & Nb)].
  - reflexivity.
  - destruct b; try congruence; reflexivity.
  - destruct a; try congruence; reflexivity.
  - rewrite SFcompare_finite by assumption.
    unfold signed_mantissa.
    rewrite !shl_align_value by lia.
    f_equal.
    set (ez := Z.min ea eb).
    assert (Hez : ez <= ea /\ ez <= eb) by (subst ez; lia).
    assert (Ea : cond_Zopp (a <? 0) (Z.pos ma * 2 ^ (ea - ez)) = a * 2 ^ (- ez)).
    { replace (- ez) with (- ea + (ea - ez)) by lia.
      rewrite Z.pow_add_r, Z.mul_assoc, <- Va by lia.
      unfold cond_Zopp. destruct (a <? 0); ring. }
    assert (Eb : cond_Zopp (b <? 0) (Z.pos mb * 2 ^ (eb - ez)) = b * 2 ^ (- ez)).
    { replace (- ez) with (- eb + (eb - ez)) by lia.
      rewrite Z.pow_add_r, Z.mul_assoc, <- Vb by lia.
      unfold cond_Zopp. destruct (b <? 0); ring. }
    rewrite Ea, Eb.
    assert (Hp : 0 < 2 ^ (- ez)) by (apply Z.pow_pos_nonneg; lia).
    destruct (Z.compare_spec a b) as [E | L | G].
    + subst. apply Z.compare_refl.
    + apply Z.compare_lt_iff. nia.
    + apply Z.compare_gt_iff. nia.
Qed.

Lemma of_Z_leb (a b : Z) :
  -6039 <= a <= 6039 -> -6039 <= b <= 6039 ->
  PrimFloat.leb (of_Z a) (of_Z b) = (a <=? b).
Proof.
  intros Ha Hb. rewrite FloatAxioms.leb_spec. unfold SFleb.
  rewrite of_Z_compare by assumption.
  unfold Z.leb. now destruct (a ?= b).
Qed.

Lemma of_Z_ltb (a b : Z) :
  -6039 <= a <= 6039 -> -6039 <= b <= 6039 ->
  PrimFloat.ltb (of_Z a) (of_Z b) = (a <? b).
Proof.
  intros Ha Hb. rewrite FloatAxioms.ltb_spec. unfold SFltb.
  rewrite of_Z_compare by assumption.
  unfold Z.ltb. now destruct (a ?= b).
Qed.

Lemma of_Z_not_nan (n : Z) : -6039 <= n <= 6039 -> is_nan (of_Z n) = false.
Proof.
  intros H. apply is_nan_false_iff.
  destruct (of_Z_shape n H) as [[_ ->] | (m & e & -> & _)]; discriminate.
Qed.

Lemma of_Z_opp (k : Z) :
  -6039 <= k <= 6039 -> k <> 0 -> of_Z (- k) = (- of_Z k)%float.
Proof.
  intros H Hk.
  pose proof (binary_normalize_minutes k 0 H Hk ltac:(lia)) as E.
  pose proof (binary_normalize_minutes (- k) 0 ltac:(lia) ltac:(lia) ltac:(lia)) as E'.
  cbv zeta in E, E'.
  rewrite Z.pow_0_r, Z.mul_1_r in E, E'. change (- 0) with 0 in E, E'.
  rewrite Z.abs_opp in E'.
  unfold of_Z. rewrite E, E'.
  set (q := Z.to_pos (Z.abs k)).
  assert (Hq : Zpos q = Z.abs k) by (unfold q; rewrite Z2Pos.id; lia).
  pose proof (digits2_pos_minutes q ltac:(lia)) as Hd.
  set (d := Zpos (digits2_pos q)) in *.
  set (m := Pos.iter xO q (Z.to_pos (prec - d))).
  assert (Hdm : Zpos (digits2_pos m) = prec).
  { rewrite (digits2_pos_shifted q m (prec - d)); [fold d; lia | unfold prec; lia |].
    unfold m. rewrite iter_xO_pow, Z2Pos.id by (unfold prec; lia). reflexivity. }
  assert (Hb : bounded prec emax m (d - prec) = true).
  { unfold bounded, canonical_mantissa. rewrite Hdm.
    apply andb_true_intro. split; [apply Z.eqb_eq | apply Z.leb_le];
      unfold SpecFloat.fexp, SpecFloat.emin, prec, emax in *; lia. }
  rewrite <- (SF2Prim_Prim2SF (- SF2Prim (S754_finite (k <? 0) m (d - prec)))).
  rewrite FloatAxioms.opp_spec, FloatAxioms.Prim2SF_SF2Prim by exact Hb.
  simpl SFopp. f_equal. f_equal.
  destruct (Z.ltb_spec k 0), (Z.ltb_spec (- k) 0); try reflexivity; lia.
Qed.

Lemma normalize_shifted (k s : Z) :
  -6039 <= k <= 6039 -> 40 <= s <= 52 ->
  SF2Prim (binary_normalize prec emax (k * 2 ^ s) (- s) false) = of_Z k.
Proof.
  intros H Hs. destruct (Z.eq_dec k 0) as [-> | Hk]; [reflexivity|].
  pose proof (binary_normalize_minutes k s H Hk ltac:(lia)) as E.
  pose proof (binary_normalize_minutes k 0 H Hk ltac:(lia)) as E0.
  cbv zeta in E, E0.
  rewrite Z.pow_0_r, Z.mul_1_r in E0. change (- 0) with 0 in E0.
  unfold of_Z. now rewrite E, E0.
Qed.

(** Subtraction of two times of day is exact. *)
Lemma of_Z_sub (a b : Z) :
  0 <= a <= 6039 -> 0 <= b <= 6039 ->
  (of_Z a - of_Z b)%float = of_Z (a - b).
Proof.
  intros Ha Hb.
  rewrite <- (SF2Prim_Prim2SF (of_Z a - of_Z b)), FloatAxioms.sub_spec.
  destruct (of_Z_shape a ltac:(lia)) as [[Ea Sa] | (ma & ea & Sa & Ba & Ra & Va & Na)];
    destruct (of_Z_shape b ltac:(lia)) as [[Eb Sb] | (mb & eb & Sb & Bb & Rb & Vb & Nb)].
  - subst. reflexivity.
  - (* 0 - b *)
    subst a. rewrite Z.sub_0_l, of_Z_opp by (assumption || lia).
    rewrite <- (SF2Prim_Prim2SF (- of_Z b)), FloatAxioms.opp_spec.
    change (Prim2SF (of_Z 0)) with (S754_zero false).
    rewrite Sb. reflexivity.
  - (* a - 0 *)
    subst b. rewrite Z.sub_0_r.
    change (Prim2SF (of_Z 0)) with (S754_zero false).
    rewrite <- (SF2Prim_Prim2SF (of_Z a)) at 2. rewrite Sa. reflexivity.
  - rewrite Sa, Sb. unfold SF64sub, SFsub. cbv zeta.
    replace (a <? 0) with false in * by (symmetry; apply Z.ltb_ge; lia).
    replace (b <? 0) with false in * by (symmetry; apply Z.ltb_ge; lia).
    unfold cond_Zopp in *.
    rewrite !shl_align_value by lia.
    set (ez := Z.min ea eb).
    assert (Hez : ez <= ea /\ ez <= eb /\ -52 <= ez <= -40) by (subst ez; lia).
    replace (Z.pos ma * 2 ^ (ea - ez) - Z.pos mb * 2 ^ (eb - ez))
      with ((a - b) * 2 ^ (- ez)).
    2:{ rewrite Va, Vb, <- !Z.mul_assoc, <- !Z.pow_add_r by lia.
        replace (- ea + (ea - ez)) with (- ez) by lia.
        replace (- eb + (eb - ez)) with (- ez) by lia. ring. }
    rewrite <- (Z.opp_involutive ez) at 2.
    apply normalize_shifted; lia.
Qed.

End Minutes.

(* ================================================================== *)
(** * routes/preferences.ts                                            *)
(* ================================================================== *)

Section PreferencesFacts.

Import Tables.
Local Open Scope string_scope.
Local Open Scope list_scope.

Lemma digit_val_range (c : ascii) : is_digit c = true -> (0 <= digit_val c <= 9)%Z.
Proof.
  unfold is_digit, digit_val. intros H.
  apply andb_prop in H. destruct H as [H1 H2].
  apply Nat.leb_le in H1, H2. lia.
Qed.

Lemma timeRe_test_HHMM (s : string) :
  Preferences.timeRe_test s = true ->
  exists h1 h2 m1 m2,
    s = HHMM h1 h2 m1 m2
    /\ is_digit h1 = true /\ is_digit h2 = true
    /\ is_digit m1 = true /\ is_digit m2 = true.
Proof.
  unfold Preferences.timeRe_test.
  destruct s as [|h1 [|h2 [|c [|m1 [|m2 [|x s]]]]]]; try discriminate.
  intros H.
  apply andb_prop in H. destruct H as [H D4].
  apply andb_prop in H. destruct H as [H D3].
  apply andb_prop in H. destruct H as [H Hc].
  apply andb_prop in H. destruct H as [D1 D2].
  apply Ascii.eqb_eq in Hc. subst c.
  exists h1, h2, m1, m2. repeat split; assumption.
Qed.

Lemma minutesOfDay_HHMM (h1 h2 m1 m2 : ascii) :
  is_digit h1 = true -> is_digit h2 = true ->
  is_digit m1 = true -> is_digit m2 = true ->
  Spec.minutesOfDay (HHMM h1 h2 m1 m2) = Spec.MinutesOfDay (HHMM_minutes h1 h2 m1 m2)
  /\ (0 <= HHMM_minutes h1 h2 m1 m2 <= 6039)%Z.
Proof.
  intros H1 H2 H3 H4. split.
  - unfold Spec.minutesOfDay, HHMM, Spec.two_digits.
    rewrite H1, H2, H3, H4. reflexivity.
  - unfold HHMM_minutes.
    pose proof (digit_val_range _ H1). pose proof (digit_val_range _ H2).
    pose proof (digit_val_range _ H3). pose proof (digit_val_range _ H4).
    lia.
Qed.

(** The pattern of the route accepts exactly the strings the
    specification's [minutesOfDay] parses. *)
Lemma timeRe_test_iff (s : string) :
  Preferences.timeRe_test s = true <-> exists n, Spec.minutesOfDay s = Spec.MinutesOfDay n.
Proof.
  split.
  - intros H. destruct (timeRe_test_HHMM s H) as (h1 & h2 & m1 & m2 & -> & D1 & D2 & D3 & D4).
    eexists. apply (minutesOfDay_HHMM h1 h2 m1 m2 D1 D2 D3 D4).
  - intros [n H]. unfold Spec.minutesOfDay, Spec.two_digits in H.
    unfold Preferences.timeRe_test.
    destruct s as [|h1 [|h2 [|c [|m1 [|m2 [|x s]]]]]]; try discriminate.
    destruct (Ascii.eqb c ":"); [|discriminate].
    destruct (is_digit h1), (is_digit h2); try discriminate;
      destruct (is_digit m1), (is_digit m2); try discriminate.
    reflexivity.
Qed.

Lemma minutesOfDay_value (s : string) (n : Z) :
  Spec.minutesOfDay s = Spec.MinutesOfDay n ->
  timeToMinutes s = of_Z n /\ (0 <= n <= 6039)%Z.
Proof.
  intros H.
  assert (Ht : Preferences.timeRe_test s = true) by (apply timeRe_test_iff; eauto).
  destruct (timeRe_test_HHMM s Ht) as (h1 & h2 & m1 & m2 & -> & D1 & D2 & D3 & D4).
  destruct (minutesOfDay_HHMM h1 h2 m1 m2 D1 D2 D3 D4) as [E R].
  rewrite E in H. injection H as <-.
  split; [apply timeToMinutes_HHMM; assumption | exact R].
Qed.

Lemma includes_string_In (l : list string) (s : string) :
  Preferences.includes_string l s = true <-> In s l.
Proof.
  unfold Preferences.includes_string. rewrite existsb_exists. split.
  - intros (x & Hx & E). apply String.eqb_eq in E. now subst.
  - intros H. exists s. split; [assumption | apply String.eqb_refl].
Qed.

Lemma In_truthy (l : list string) (s : string) :
  In s l -> ~ In EmptyString l -> truthy (Some s) = true.
Proof.
  intros H Hn. simpl. destruct (String.eqb_spec s EmptyString); [subst; contradiction | reflexivity].
Qed.

Lemma parsed_truthy (s : string) (n : Z) :
  Spec.minutesOfDay s = Spec.MinutesOfDay n -> truthy (Some s) = true.
Proof. destruct s; [discriminate | reflexivity]. Qed.

(** What the route does with a valid body. *)
Lemma put_valid (w : World) (table : list pref_entry) (userId : string)
  (direction earliest latest : string) (days : list Z) (role : string) :
  valid_preference direction earliest latest days role ->
  Preferences.put w table userId (preference_body direction earliest latest days role)
  = let table' :=
      match Preferences.select_existing table userId direction with
      | first :: _ =>
          Preferences.update_entry table earliest latest days role (pref_id first)
      | [] =>
          Preferences.insert_entry table
            {| pref_id := uuidv4 w 0;
               pref := {| user_id := userId; Matches.direction := direction;
                          earliest_time := earliest; latest_time := latest;
                          days_of_week := days; Matches.role := role |} |}
      end in
    (Returned
       {| Preferences.status := 200;
          Preferences.json := Preferences.RowsBody (Preferences.select_entries table' userId) |},
     table').
Proof.
  intros (Hd & Hr & Hdays & ne & nl & He & Hl & Hlt).
  unfold Preferences.put, preference_body. cbn [Preferences.b_direction Preferences.b_earliest_time
    Preferences.b_latest_time Preferences.b_days_of_week Preferences.b_role].
  cbn [Preferences.truthy_text].
  rewrite (In_truthy _ _ Hd), (parsed_truthy _ _ He), (parsed_truthy _ _ Hl),
    (In_truthy _ _ Hr)
    by (simpl; intuition discriminate).
  cbn [Preferences.truthy_days negb orb Preferences.includes_value].
  rewrite (proj2 (includes_string_In _ _) Hd), (proj2 (includes_string_In _ _) Hr).
  cbn [negb].
  destruct days as [|d ds]; [congruence|].
  change ((List.length (d :: ds) =? 0)%nat) with false. cbv iota.
  cbn [Preferences.timeRe_test_value].
  rewrite (proj2 (timeRe_test_iff earliest)), (proj2 (timeRe_test_iff latest)) by eauto.
  unfold Preferences.upsert.
  change (nth_number 0 (map Number (split ":" latest)) * 60
          + nth_number 1 (map Number (split ":" latest)))%float
    with (timeToMinutes latest).
  change (nth_number 0 (map Number (split ":" earliest)) * 60
          + nth_number 1 (map Number (split ":" earliest)))%float
    with (timeToMinutes earliest).
  destruct (minutesOfDay_value _ _ He) as [-> Re].
  destruct (minutesOfDay_value _ _ Hl) as [-> Rl].
  rewrite of_Z_leb by lia.
  replace (nl <=? ne)%Z with false by (symmetry; apply Z.leb_gt; exact Hlt).
  reflexivity.
Qed.

(** A time of a valid preference sent as another JSON value than a string:
    the pattern accepts what [ToString] makes of it, and [.split] throws. *)
Lemma put_not_a_string (w : World) (table : list pref_entry) (userId : string)
  (direction earliest latest : string) (days : list Z) (role : string) :
  valid_preference direction earliest latest days role ->
  Preferences.put w table userId
    (preference_body_with direction (not_a_string earliest) (Preferences.Text latest)
                          days role)
  = (Thrown, table)
  /\ Preferences.put w table userId
       (preference_body_with direction (Preferences.Text earliest) (not_a_string latest)
                             days role)
     = (Thrown, table).
Proof.
  intros (Hd & Hr & Hdays & ne & nl & He & Hl & Hlt).
  unfold Preferences.put, preference_body_with, not_a_string.
  cbn [Preferences.b_direction Preferences.b_earliest_time
    Preferences.b_latest_time Preferences.b_days_of_week Preferences.b_role].
  cbn [Preferences.truthy_text].
  rewrite (In_truthy _ _ Hd), (parsed_truthy _ _ He), (parsed_truthy _ _ Hl),
    (In_truthy _ _ Hr)
    by (simpl; intuition discriminate).
  cbn [Preferences.truthy_days negb orb Preferences.includes_value].
  rewrite (proj2 (includes_string_In _ _) Hd), (proj2 (includes_string_In _ _) Hr).
  cbn [negb].
  destruct days as [|d ds]; [congruence|].
  change ((List.length (d :: ds) =? 0)%nat) with false. cbv iota.
  cbn [Preferences.timeRe_test_value].
  rewrite (proj2 (timeRe_test_iff earliest)), (proj2 (timeRe_test_iff latest)) by eauto.
  split; reflexivity.
Qed.

(** The three ways the route ends. *)
Lemma put_status (w : World) (table : list pref_entry) (userId : string)
  (b : Preferences.put_body) :
  (exists error,
      Preferences.put w table userId b
      = (Returned {| Preferences.status := 400;
                     Preferences.json := Preferences.ErrorBody error |}, table))
  \/ (Preferences.put w table userId b = (Thrown, table)
      /\ exists t s,
           Preferences.b_earliest_time b = Some (Preferences.NotText t s)
           \/ Preferences.b_latest_time b = Some (Preferences.NotText t s))
  \/ ((exists rows,
         fst (Preferences.put w table userId b)
         = Returned {| Preferences.status := 200;
                       Preferences.json := Preferences.RowsBody rows |})
      /\ valid_body b).
Proof.
  unfold Preferences.put, Preferences.reject, Preferences.throw.
  destruct b as [[direction|] [earliest|] [latest|] [days|] [role|]];
    cbn [Preferences.b_direction Preferences.b_earliest_time Preferences.b_latest_time
         Preferences.b_days_of_week Preferences.b_role];
    try (left; eexists; reflexivity).
  destruct (_ || _) eqn:Htruthy; [left; eexists; reflexivity|].
  destruct (Preferences.includes_value _ direction) eqn:Hd;
    [|left; eexists; reflexivity].
  destruct (Preferences.includes_value _ role) eqn:Hr;
    [|left; eexists; reflexivity].
  cbn [negb].
  destruct days as [days | t]; [|left; eexists; reflexivity].
  destruct (List.length days =? 0)%nat eqn:Hn; [left; eexists; reflexivity|].
  destruct direction as [direction | td sd]; [|discriminate Hd].
  destruct role as [role | tr sr]; [|discriminate Hr].
  cbn [Preferences.includes_value] in Hd, Hr.
  destruct earliest as [earliest | te [se|]]; cbn [Preferences.timeRe_test_value];
    [ destruct (Preferences.timeRe_test earliest) eqn:He; [|left; eexists; reflexivity]
    | destruct (Preferences.timeRe_test se) eqn:He; [|left; eexists; reflexivity]
    | right; left; split; [reflexivity | eauto] ];
    (destruct latest as [latest | tl [sl|]]; cbn [Preferences.timeRe_test_value];
     [ destruct (Preferences.timeRe_test latest) eqn:Hl; [|left; eexists; reflexivity]
     | destruct (Preferences.timeRe_test sl) eqn:Hl; [|left; eexists; reflexivity]
     | right; left; split; [reflexivity | eauto] ]);
    try (right; left; split; [reflexivity | eauto]).
  unfold Preferences.upsert, Preferences.reject.
  change (nth_number 0 (map Number (split ":" latest)) * 60
          + nth_number 1 (map Number (split ":" latest)))%float
    with (timeToMinutes latest).
  change (nth_number 0 (map Number (split ":" earliest)) * 60
          + nth_number 1 (map Number (split ":" earliest)))%float
    with (timeToMinutes earliest).
  destruct (PrimFloat.leb _ _) eqn:Hle; [left; eexists; reflexivity|].
  right. right. split; [eexists; reflexivity|].
  exists direction, earliest, latest, days, role. split; [reflexivity|].
  apply includes_string_In in Hd, Hr.
  apply timeRe_test_iff in He, Hl. destruct He as [ne He], Hl as [nl Hl].
  repeat split; try assumption.
  - intros ->. discriminate.
  - exists ne, nl. repeat split; try assumption.
    destruct (minutesOfDay_value _ _ He) as [Ee Re].
    destruct (minutesOfDay_value _ _ Hl) as [El Rl].
    rewrite Ee, El, of_Z_leb in Hle by lia.
    apply Z.leb_gt in Hle. exact Hle.
Qed.

Lemma NoDup_map_eq {A B} (f : A -> B) (l : list A) (x y : A) :
  NoDup (map f l) -> In x l -> In y l -> f x = f y -> x = y.
Proof.
  induction l as [|a l IH]; simpl; [contradiction|].
  intros Hnd Hx Hy E. inversion Hnd as [|? ? Hn Hnd']; subst.
  destruct Hx as [-> | Hx], Hy as [-> | Hy].
  - reflexivity.
  - elim Hn. rewrite E. now apply in_map.
  - elim Hn. rewrite <- E. now apply in_map.
  - now apply IH.
Qed.

Lemma filter_map_commute {A} (f : A -> A) (p : A -> bool) (l : list A) :
  (forall x, p (f x) = p x) -> filter p (map f l) = map f (filter p l).
Proof.
  intros H. induction l as [|a l IH]; simpl; [reflexivity|].
  rewrite H. destruct (p a); simpl; now rewrite IH.
Qed.

(** The rows of one key, under the uniqueness of keys. *)
Lemma select_existing_unique (table : list pref_entry) (uid dir : string) :
  NoDup (map pref_key table) ->
  Preferences.select_existing table uid dir = []
  \/ exists first, Preferences.select_existing table uid dir = [first].
Proof.
  intros Hnd.
  destruct (Preferences.select_existing table uid dir) as [|first [|second rest]] eqn:E;
    [now left | right; now exists first |].
  exfalso.
  assert (Hk : forall e, In e (Preferences.select_existing table uid dir) ->
                         In e table /\ pref_key e = (uid, dir)).
  { intros e He. apply filter_In in He. destruct He as [Hin Hk].
    apply andb_prop in Hk. destruct Hk as [H1 H2].
    apply String.eqb_eq in H1, H2. unfold pref_key. now rewrite H1, H2. }
  assert (Hnd' : NoDup (Preferences.select_existing table uid dir)).
  { unfold Preferences.select_existing. apply NoDup_filter.
    eapply NoDup_map_inv. exact Hnd. }
  rewrite E in Hk, Hnd'.
  destruct (Hk first (or_introl eq_refl)) as [I1 K1].
  destruct (Hk second (or_intror (or_introl eq_refl))) as [I2 K2].
  assert (first = second)
    by (apply (NoDup_map_eq pref_key table); congruence).
  subst. inversion Hnd' as [|? ? Hn _]. apply Hn. now left.
Qed.

Lemma update_fn_key earliest latest days r pid e :
  pref_key (update_fn earliest latest days r pid e) = pref_key e.
Proof. unfold update_fn. now destruct (pref_id e =? pid). Qed.

Lemma update_fn_id earliest latest days r pid e :
  pref_id (update_fn earliest latest days r pid e) = pref_id e.
Proof. unfold update_fn. now destruct (pref_id e =? pid). Qed.

Lemma update_fn_idem earliest latest days r pid e :
  update_fn earliest latest days r pid (update_fn earliest latest days r pid e)
  = update_fn earliest latest days r pid e.
Proof.
  unfold update_fn. destruct (pref_id e =? pid) eqn:E; simpl; now rewrite E.
Qed.

Lemma update_entry_map table earliest latest days r pid :
  Preferences.update_entry table earliest latest days r pid
  = map (update_fn earliest latest days r pid) table.
Proof. reflexivity. Qed.

Lemma select_existing_update table earliest latest days r pid uid dir :
  Preferences.select_existing (map (update_fn earliest latest days r pid) table) uid dir
  = map (update_fn earliest latest days r pid) (Preferences.select_existing table uid dir).
Proof.
  unfold Preferences.select_existing. apply filter_map_commute.
  intros x. pose proof (update_fn_key earliest latest days r pid x) as E.
  unfold pref_key in E. injection E as -> ->. reflexivity.
Qed.

Lemma select_existing_key table uid dir e :
  In e (Preferences.select_existing table uid dir) <-> In e table /\ pref_key e = (uid, dir).
Proof.
  unfold Preferences.select_existing, pref_key. rewrite filter_In. split.
  - intros (H & E). apply andb_prop in E. destruct E as [E1 E2].
    apply String.eqb_eq in E1, E2. now subst.
  - intros (H & E). injection E as -> ->. now rewrite !String.eqb_refl.
Qed.

(** PUT /api/preferences answers 200 exactly when the body gives, as
    strings, a known direction, a known role and two times of the form HH:MM,
    the latest strictly after the earliest, and a non-empty array of days.
    For every other body it writes nothing: it answers 400 with an error
    message, or it throws and sends no response.  It throws only when a time
    is not a string, and it does so whenever a time of an otherwise valid
    body is sent as another JSON value that [ToString] turns into that time,
    such as the array [["07:00"]]: the pattern accepts it and [.split] is not
    a function. *)
Theorem put_preference_accepts_exactly_valid_bodies :
  forall (w : World) (table : list pref_entry) (userId : string)
         (b : Preferences.put_body),
    let run := Preferences.put w table userId b in
    ((exists rows,
         fst run = Returned {| Preferences.status := 200;
                               Preferences.json := Preferences.RowsBody rows |})
     <-> valid_body b)
    /\ (~ valid_body b ->
        snd run = table
        /\ (fst run = Thrown
            \/ exists error,
                 fst run = Returned {| Preferences.status := 400;
                                       Preferences.json := Preferences.ErrorBody error |}))
    /\ (fst run = Thrown ->
        exists t s,
          Preferences.b_earliest_time b = Some (Preferences.NotText t s)
          \/ Preferences.b_latest_time b = Some (Preferences.NotText t s))
    /\ (forall direction earliest latest days role,
          valid_preference direction earliest latest days role ->
          Preferences.put w table userId
            (preference_body_with direction (not_a_string earliest)
                                  (Preferences.Text latest) days role)
          = (Thrown, table)
          /\ Preferences.put w table userId
               (preference_body_with direction (Preferences.Text earliest)
                                     (not_a_string latest) days role)
             = (Thrown, table)).
Proof.
  intros w table userId b. cbv zeta.
  assert (Hv : valid_body b ->
               exists rows,
                 fst (Preferences.put w table userId b)
                 = Returned {| Preferences.status := 200;
                               Preferences.json := Preferences.RowsBody rows |}).
  { intros (direction & earliest & latest & days & role & -> & Hvalid).
    rewrite put_valid by assumption. cbv zeta. cbn [fst]. eauto. }
  split; [|split; [|split]].
  - split; [|exact Hv].
    intros [rows E].
    destruct (put_status w table userId b) as [[error H] | [[H _] | [_ H]]];
      [rewrite H in E; discriminate | rewrite H in E; discriminate | exact H].
  - intros Hn.
    destruct (put_status w table userId b) as [[error H] | [[H _] | [_ H]]];
      [| | contradiction]; rewrite H; cbn [fst snd]; eauto.
  - intros E.
    destruct (put_status w table userId b) as [[error H] | [[_ H] | [[rows H] _]]];
      [rewrite H in E; discriminate | exact H | rewrite H in E; discriminate].
  - intros direction earliest latest days role Hvalid.
    now apply put_not_a_string.
Qed.

Lemma put_table (w : World) (table : list pref_entry) (userId : string)
  direction earliest latest days role :
  valid_preference direction earliest latest days role ->
  snd (Preferences.put w table userId (preference_body direction earliest latest days role))
  = match Preferences.select_existing table userId direction with
    | first :: _ => map (update_fn earliest latest days role (pref_id first)) table
    | [] => table ++ [preference_entry (uuidv4 w 0) userId direction earliest latest days role]
    end
  /\ fst (Preferences.put w table userId (preference_body direction earliest latest days role))
     = Returned
         (Preferences.get
            (snd (Preferences.put w table userId
                    (preference_body direction earliest latest days role)))
            userId).
Proof.
  intros Hv. rewrite put_valid by assumption.
  cbv zeta. cbn [fst snd]. split; [|reflexivity].
  destruct (Preferences.select_existing table userId direction); reflexivity.
Qed.

(** On a table with at most one row per user and direction, and distinct
    ids, a valid PUT /api/preferences is an upsert: afterwards there is
    still at most one row per user and direction, the one of the user for
    the direction holds the values sent, the rows of another user or
    direction are the same as before, and the response is what
    GET /api/preferences answers afterwards. *)
Theorem put_preference_upserts_by_user_and_direction :
  forall (w : World) (table : list pref_entry) (userId : string)
         (direction earliest latest : string) (days : list Z) (role : string),
    valid_preference direction earliest latest days role ->
    NoDup (map pref_key table) ->
    NoDup (map pref_id table) ->
    let run :=
      Preferences.put w table userId (preference_body direction earliest latest days role) in
    NoDup (map pref_key (snd run))
    /\ (exists pid,
          Preferences.select_existing (snd run) userId direction
          = [preference_entry pid userId direction earliest latest days role])
    /\ (forall e, pref_key e <> (userId, direction) ->
                  (In e (snd run) <-> In e table))
    /\ fst run = Returned (Preferences.get (snd run) userId).
Proof.
  intros w table userId direction earliest latest days role Hv Hkeys Hids. cbv zeta.
  destruct (put_table w table userId direction earliest latest days role Hv) as [Et Er].
  rewrite Et in *. clear Et.
  split; [|split; [|split; [|exact Er]]].
  - destruct (Preferences.select_existing table userId direction) as [|first rest] eqn:E.
    + rewrite map_app. simpl.
      apply NoDup_app; [exact Hkeys | repeat constructor; simpl; tauto |].
      intros k Hk [<- | []].
      apply in_map_iff in Hk. destruct Hk as (e & Hke & He).
      assert (In e (Preferences.select_existing table userId direction))
        by (apply select_existing_key; split; assumption).
      rewrite E in *. contradiction.
    + rewrite map_map.
      erewrite map_ext; [exact Hkeys|]. intros e. apply update_fn_key.
  - destruct (select_existing_unique table userId direction Hkeys) as [E | [first E]];
      rewrite E.
    + exists (uuidv4 w 0).
      unfold Preferences.select_existing in *. rewrite filter_app, E. simpl.
      now rewrite !String.eqb_refl.
    + exists (pref_id first).
      rewrite select_existing_update, E. simpl.
      assert (Hf : In first (Preferences.select_existing table userId direction))
        by (rewrite E; now left).
      apply select_existing_key in Hf. destruct Hf as [_ Hk].
      unfold pref_key in Hk. injection Hk as Hu Hd.
      unfold update_fn, preference_entry. rewrite String.eqb_refl, Hu, Hd. reflexivity.
  - intros e Hne.
    destruct (Preferences.select_existing table userId direction) as [|first rest] eqn:E.
    + rewrite in_app_iff. split; [|tauto].
      intros [H | [<- | []]]; [assumption|]. now elim Hne.
    + assert (Hf : In first table /\ pref_key first = (userId, direction)).
      { apply select_existing_key. rewrite E. now left. }
      destruct Hf as [Hfin Hfk].
      rewrite in_map_iff. split.
      * intros (x & <- & Hx). unfold update_fn in *.
        destruct (pref_id x =? pref_id first) eqn:Ei; [|assumption].
        apply String.eqb_eq in Ei.
        assert (x = first) by (apply (NoDup_map_eq pref_id table); assumption).
        subst x. elim Hne. unfold pref_key in *. simpl. exact Hfk.
      * intros He. exists e. split; [|assumption].
        unfold update_fn.
        destruct (pref_id e =? pref_id first) eqn:Ei; [|reflexivity].
        apply String.eqb_eq in Ei.
        assert (e = first) by (apply (NoDup_map_eq pref_id table); assumption).
        subst e. now elim Hne.
Qed.

(** ** Idempotence and the round trip through DELETE *)

(** A valid PUT /api/preferences sent twice gives the same response and the
    same table as sent once, when the identifier the route draws for a new
    row is not in use.  DELETE /api/preferences/:direction after it
    leaves no row of the user for the direction, and restores the table
    when the user had no row for the direction before. *)
Theorem put_preference_twice_and_delete :
  forall (w : World) (table : list pref_entry) (userId : string)
         (direction earliest latest : string) (days : list Z) (role : string),
    valid_preference direction earliest latest days role ->
    ~ In (uuidv4 w 0) (map pref_id table) ->
    let b := preference_body direction earliest latest days role in
    let run := Preferences.put w table userId b in
    Preferences.put w (snd run) userId b = run
    /\ Preferences.select_existing
         (snd (Preferences.delete (snd run) userId direction)) userId direction = []
    /\ (Preferences.select_existing table userId direction = [] ->
        snd (Preferences.delete (snd run) userId direction) = table).
Proof.
  intros w table userId direction earliest latest days role Hv Hfresh. cbv zeta.
  destruct (put_table w table userId direction earliest latest days role Hv) as [Et Er].
  set (table' := snd (Preferences.put w table userId
                        (preference_body direction earliest latest days role))) in *.
  split; [|split].
  - destruct (put_table w table' userId direction earliest latest days role Hv)
      as [Et2 Er2].
    assert (E2 : snd (Preferences.put w table' userId
                        (preference_body direction earliest latest days role)) = table').
    { rewrite Et2, Et.
      destruct (Preferences.select_existing table userId direction) as [|first rest] eqn:E.
      - unfold Preferences.select_existing in *. rewrite filter_app, E. simpl.
        rewrite !String.eqb_refl. simpl.
        rewrite map_app. simpl. unfold update_fn at 2. simpl. rewrite String.eqb_refl.
        f_equal.
        rewrite <- (map_id table) at 2. apply map_ext_in.
        intros e He. unfold update_fn.
        destruct (pref_id e =? uuidv4 w 0) eqn:Ei; [|reflexivity].
        apply String.eqb_eq in Ei. elim Hfresh. rewrite <- Ei. now apply in_map.
      - rewrite select_existing_update, E. simpl. rewrite update_fn_id.
        rewrite map_map. apply map_ext. intros e. apply update_fn_idem. }
    rewrite (surjective_pairing (Preferences.put w table' userId _)).
    rewrite (surjective_pairing (Preferences.put w table userId _)).
    fold table'. rewrite Er2, E2, Er. reflexivity.
  - unfold Preferences.delete, Preferences.select_existing. cbn [snd].
    apply filter_nil_iff. intros e He. apply filter_In in He. destruct He as [_ He].
    now apply negb_true_iff in He.
  - intros E. subst table'. rewrite Et, E.
    unfold Preferences.delete. cbn [snd].
    rewrite filter_app. simpl. rewrite !String.eqb_refl. simpl. rewrite app_nil_r.
    unfold Preferences.select_existing in E.
    pose proof (proj1 (filter_nil_iff _ _) E) as E'. clear E. rename E' into E.
    clear - E. induction table as [|e table IH]; simpl; [reflexivity|].
    rewrite E by now left. simpl. f_equal. apply IH.
    intros x Hx. apply E. now right.
Qed.

(** ** Stored preferences are well formed *)

Lemma wellformed_window (p : pref_row) :
  wellformed p ->
  PrimFloat.ltb (timeToMinutes (earliest_time p)) (timeToMinutes (latest_time p)) = true
  /\ exists ne nl,
       Spec.minutesOfDay (earliest_time p) = Spec.MinutesOfDay ne
       /\ Spec.minutesOfDay (latest_time p) = Spec.MinutesOfDay nl
       /\ timeToMinutes (earliest_time p) = of_Z ne
       /\ timeToMinutes (latest_time p) = of_Z nl
       /\ (0 <= ne < nl)%Z /\ (nl <= 6039)%Z.
Proof.
  intros (_ & _ & _ & ne & nl & He & Hl & Hlt).
  destruct (minutesOfDay_value _ _ He) as [Ee Re].
  destruct (minutesOfDay_value _ _ Hl) as [El Rl].
  split.
  - rewrite Ee, El, of_Z_ltb by lia. now apply Z.ltb_lt.
  - exists ne, nl. repeat split; try assumption; lia.
Qed.

(** The preferences route keeps the table well formed: if every stored
    preference is one the route accepts, so is every preference after a PUT
    with any body and after a DELETE.  In such a table every window is
    proper for the matching code: [timeToMinutes] of the earliest time is
    strictly below that of the latest, and the days are not empty. *)
Theorem stored_preferences_stay_well_formed :
  forall (w : World) (table : list pref_entry) (userId : string),
    Forall wellformed (map pref table) ->
    (forall b, Forall wellformed (map pref (snd (Preferences.put w table userId b))))
    /\ (forall direction,
          Forall wellformed (map pref (snd (Preferences.delete table userId direction))))
    /\ Forall (fun p =>
                 PrimFloat.ltb (timeToMinutes (earliest_time p))
                               (timeToMinutes (latest_time p)) = true
                 /\ days_of_week p <> []
                 /\ exists ne nl,
                      Spec.minutesOfDay (earliest_time p) = Spec.MinutesOfDay ne
                      /\ Spec.minutesOfDay (latest_time p) = Spec.MinutesOfDay nl
                      /\ (ne < nl)%Z)
              (map pref table).
Proof.
  intros w table userId Hwf. split; [|split].
  - intros b.
    destruct (put_status w table userId b) as [[error Ht] | [[Ht _] | [_ Hval]]].
    + now rewrite Ht.
    + now rewrite Ht.
    + destruct Hval as (direction & earliest & latest & days & role & -> & Hv).
      destruct (put_table w table userId direction earliest latest days role Hv) as [Et _].
      rewrite Et.
      destruct (Preferences.select_existing table userId direction) as [|first rest] eqn:E.
      * rewrite map_app. apply Forall_app. split; [exact Hwf|].
        simpl. constructor; [exact Hv | constructor].
      * assert (Hf : In first table /\ pref_key first = (userId, direction)).
        { apply select_existing_key. rewrite E. now left. }
        destruct Hf as [_ Hfk].
        rewrite Forall_forall in *. intros p Hp.
        rewrite map_map in Hp. apply in_map_iff in Hp. destruct Hp as (e & <- & He).
        unfold update_fn.
        destruct (pref_id e =? pref_id first); [|apply Hwf; now apply in_map].
        unfold wellformed. simpl.
        assert (Hwe : wellformed (pref e)) by (apply Hwf; now apply in_map).
        destruct Hv as (_ & Hr & Hd & Ht). destruct Hwe as (Hdir & _).
        repeat split; assumption.
  - intros direction. unfold Preferences.delete. cbn [snd].
    rewrite Forall_forall in *. intros p Hp.
    apply in_map_iff in Hp. destruct Hp as (e & <- & He).
    apply filter_In in He. apply Hwf. apply in_map. tauto.
  - eapply Forall_impl; [|exact Hwf].
    intros p Hp. destruct (wellformed_window p Hp) as [Hlt _].
    destruct Hp as (_ & _ & Hd & Ht). repeat split; assumption.
Qed.

End PreferencesFacts.

Section WholeMinutes.

Local Open Scope string_scope.
Local Open Scope list_scope.

Lemma Math_min_same (x : float) : is_nan x = false -> Math_min x x = x.
Proof.
  intros Hx. unfold Math_min, Math_min_of, fold_left, min_step. rewrite Hx.
  replace (is_pos_zero infinity) with false by reflexivity.
  rewrite andb_false_r, (min_first_step x Hx).
  destruct (is_neg_zero x && is_pos_zero x) eqn:E.
  - apply andb_prop in E. destruct E as [E1 E2].
    unfold is_neg_zero, is_pos_zero in *.
    apply andb_prop in E1, E2. destruct E1 as [_ E1], E2 as [_ E2].
    rewrite E1 in E2. discriminate.
  - now destruct (PrimFloat.ltb x x).
Qed.

Lemma Math_max_same (x : float) : is_nan x = false -> Math_max x x = x.
Proof.
  intros Hx. unfold Math_max, Math_max_of, fold_left, max_step. rewrite Hx.
  replace (is_neg_zero neg_infinity) with false by reflexivity.
  rewrite andb_false_r, (max_first_step x Hx).
  destruct (is_pos_zero x && is_neg_zero x) eqn:E.
  - apply andb_prop in E. destruct E as [E1 E2].
    unfold is_neg_zero, is_pos_zero in *.
    apply andb_prop in E1, E2. destruct E1 as [_ E1], E2 as [_ E2].
    rewrite E2 in E1. discriminate.
  - now destruct (PrimFloat.ltb x x).
Qed.

Lemma Math_min_of_Z (a b : Z) :
  (-6039 <= a <= 6039)%Z -> (-6039 <= b <= 6039)%Z ->
  Math_min (of_Z a) (of_Z b) = of_Z (Z.min a b).
Proof.
  intros Ha Hb. destruct (Z.lt_total a b) as [L | [E | G]].
  - rewrite Math_min_lt_l by (rewrite of_Z_ltb by lia; now apply Z.ltb_lt).
    now rewrite Z.min_l by lia.
  - subst b. rewrite Math_min_same by now apply of_Z_not_nan.
    now rewrite Z.min_id.
  - rewrite Math_min_lt_r by (rewrite of_Z_ltb by lia; now apply Z.ltb_lt).
    now rewrite Z.min_r by lia.
Qed.

Lemma Math_max_of_Z (a b : Z) :
  (-6039 <= a <= 6039)%Z -> (-6039 <= b <= 6039)%Z ->
  Math_max (of_Z a) (of_Z b) = of_Z (Z.max a b).
Proof.
  intros Ha Hb. destruct (Z.lt_total a b) as [L | [E | G]].
  - rewrite Math_max_lt_r by (rewrite of_Z_ltb by lia; now apply Z.ltb_lt).
    now rewrite Z.max_r by lia.
  - subst b. rewrite Math_max_same by now apply of_Z_not_nan.
    now rewrite Z.max_id.
  - rewrite Math_max_lt_l by (rewrite of_Z_ltb by lia; now apply Z.ltb_lt).
    now rewrite Z.max_l by lia.
Qed.

(** On times that the specification's [minutesOfDay] parses, the width the
    code computes on numbers is the width on whole minutes. *)
Lemma overlap_width_whole (e1 l1 e2 l2 : Z) :
  (0 <= e1 <= 6039)%Z -> (0 <= l1 <= 6039)%Z ->
  (0 <= e2 <= 6039)%Z -> (0 <= l2 <= 6039)%Z ->
  Math_max 0 (Math_min (of_Z l1) (of_Z l2) - Math_max (of_Z e1) (of_Z e2))%float
  = of_Z (Z.max 0 (Z.min l1 l2 - Z.max e1 e2)).
Proof.
  intros He1 Hl1 He2 Hl2.
  rewrite Math_min_of_Z, Math_max_of_Z, of_Z_sub by lia.
  change 0%float with (of_Z 0).
  apply Math_max_of_Z; lia.
Qed.

Lemma computeOverlap_whole (p q : pref_row) (ep lp eq lq : Z) :
  Spec.minutesOfDay (earliest_time p) = Spec.MinutesOfDay ep ->
  Spec.minutesOfDay (latest_time p) = Spec.MinutesOfDay lp ->
  Spec.minutesOfDay (earliest_time q) = Spec.MinutesOfDay eq ->
  Spec.minutesOfDay (latest_time q) = Spec.MinutesOfDay lq ->
  let r := computeOverlap (earliest_time p) (latest_time p) (days_of_week p)
                          (earliest_time q) (latest_time q) (days_of_week q) in
  let width := Z.max 0 (Z.min lp lq - Z.max ep eq) in
  overlapMinutes r = match commonDays r with [] => 0%float | _ :: _ => of_Z width end
  /\ (0 <= width <= 6039)%Z.
Proof.
  intros Hep Hlp Heq Hlq. cbv zeta.
  destruct (minutesOfDay_value _ _ Hep) as [Eep Rep].
  destruct (minutesOfDay_value _ _ Hlp) as [Elp Rlp].
  destruct (minutesOfDay_value _ _ Heq) as [Eeq Req].
  destruct (minutesOfDay_value _ _ Hlq) as [Elq Rlq].
  split; [|lia].
  unfold computeOverlap.
  destruct (filter (fun d => includes (days_of_week q) d) (days_of_week p)) as [|d ds];
    [reflexivity|].
  change ((List.length (d :: ds) =? 0)%nat) with false. cbv iota.
  cbn [overlapMinutes commonDays].
  rewrite Eep, Elp, Eeq, Elq. apply overlap_width_whole; lia.
Qed.

(** On two well-formed preferences (as the preferences route stores them)
    [computeOverlap] computes on whole minutes: with a common day the overlap
    is the number [max(0, min(latest1, latest2) - max(earliest1, earliest2))]
    of the integers that the specification's [minutesOfDay] reads from the
    four times, at most 6039; without a common day it is 0. *)
Theorem overlap_of_stored_preferences_is_whole_minutes :
  forall p q : pref_row,
    wellformed p -> wellformed q ->
    exists ep lp eq lq : Z,
      Spec.minutesOfDay (earliest_time p) = Spec.MinutesOfDay ep
      /\ Spec.minutesOfDay (latest_time p) = Spec.MinutesOfDay lp
      /\ Spec.minutesOfDay (earliest_time q) = Spec.MinutesOfDay eq
      /\ Spec.minutesOfDay (latest_time q) = Spec.MinutesOfDay lq
      /\ let r := computeOverlap (earliest_time p) (latest_time p) (days_of_week p)
                                 (earliest_time q) (latest_time q) (days_of_week q) in
         let width := Z.max 0 (Z.min lp lq - Z.max ep eq) in
         overlapMinutes r
         = match commonDays r with [] => 0%float | _ :: _ => of_Z width end
         /\ (0 <= width <= 6039)%Z.
Proof.
  intros p q Hp Hq.
  destruct (wellformed_window p Hp) as (_ & ep & lp & Hep & Hlp & _).
  destruct (wellformed_window q Hq) as (_ & eq & lq & Heq & Hlq & _).
  exists ep, lp, eq, lq. repeat (split; [assumption|]).
  now apply computeOverlap_whole.
Qed.

End WholeMinutes.

Section WholeMinutesOfARun.

Context {M : MathImpl}.
Variable w : World.

Local Open Scope string_scope.
Local Open Scope list_scope.

(** When the stored preferences are well formed, every row that a run of
    POST /compute inserts has an overlap that is a whole number of minutes
    from 1 to 6039, and its score is its detour times [W_DETOUR] minus that
    number times [W_OVERLAP]. *)
Theorem matches_of_stored_preferences_overlap_whole_minutes :
  forall (db : DB) (userId : string),
    Forall wellformed (commute_preferences db) ->
    Forall (fun r =>
              exists n : Z,
                (0 < n <= 6039)%Z
                /\ time_overlap_minutes r = of_Z n
                /\ rank_score r
                   = (detour_minutes r * W_DETOUR - of_Z n * W_OVERLAP)%float)
           (inserted_rows (snd (compute w db userId))).
Proof.
  intros db userId Hwf.
  destruct (compute_rejects_or_runs w db userId) as [(msg & tr & E & Hf) | (cu & Hpre)].
  - replace (inserted_rows (snd (compute w db userId))) with (@nil match_row);
      [constructor|].
    unfold compute in *.
    destruct (select_user db userId) as [|c rest]; [reflexivity|].
    destruct (_ || _); [reflexivity|].
    destruct (_ =? _)%nat; [reflexivity|].
    exfalso. destruct (fetch_drive_times _ _ _) in E. discriminate.
  - destruct (compute_inserted_rows w db userId cu Hpre) as [Hrows _].
    eapply Forall_impl; [|exact Hrows].
    intros r (_ & _ & Hscore & other & i & _ & _ & _ & myPref & otherPref & Hmy & Hot & Hacc).
    assert (Hwm : wellformed myPref).
    { unfold select_prefs in Hmy. apply filter_In in Hmy.
      rewrite Forall_forall in Hwf. now apply Hwf. }
    assert (Hwo : wellformed otherPref).
    { apply filter_In in Hot. rewrite Forall_forall in Hwf. now apply Hwf. }
    destruct (wellformed_window myPref Hwm) as (_ & ep & lp & Hep & Hlp & _).
    destruct (wellformed_window otherPref Hwo) as (_ & eq & lq & Heq & Hlq & _).
    destruct (computeOverlap_whole myPref otherPref ep lp eq lq Hep Hlp Heq Hlq)
      as (Hov & Hrange).
    destruct Hacc as (_ & _ & _ & Hto & Hnz & Hdays).
    destruct (commonDays _) as [|d ds]; [congruence|].
    rewrite Hov in *.
    set (n := Z.max 0 (Z.min lp lq - Z.max ep eq)) in *.
    exists n. split; [|split].
    + assert (n <> 0%Z); [|lia].
      intros Hn. rewrite Hn in Hnz. discriminate.
    + exact Hto.
    + now rewrite Hscore, Hto.
Qed.

End WholeMinutesOfARun.

(* ================================================================== *)
(** * routes/interests.ts and email.ts                                 *)
(* ================================================================== *)

Section InterestsFacts.

Import Tables.
Local Open Scope string_scope.
Local Open Scope list_scope.

Variable w : World.
Variable mailer : Email.Mailer.
Variable BASE_URL : option string.

Lemma truthy_nonempty (s : string) : truthy (Some s) = true <-> s <> EmptyString.
Proof.
  simpl. destruct (String.eqb_spec s EmptyString); simpl; split; congruence.
Qed.

Lemma interest_exists_select (interests : list interest_row) (from to dir : string) :
  MatchList.interest_exists interests from to dir
  = (0 <? List.length (Interests.select_interest interests from to dir))%nat.
Proof.
  unfold MatchList.interest_exists, Interests.select_interest.
  induction interests as [|i l IH]; simpl; [reflexivity|].
  destruct (_ && _); simpl; [reflexivity | exact IH].
Qed.

Lemma interest_exists_In (interests : list interest_row) (from to dir : string) :
  MatchList.interest_exists interests from to dir = true
  <-> exists i, In i interests /\ interest_key i = (from, to, dir).
Proof.
  unfold MatchList.interest_exists. rewrite existsb_exists.
  split; intros (i & Hi & E); exists i; (split; [assumption|]).
  - apply andb_prop in E. destruct E as [E E3]. apply andb_prop in E. destruct E as [E1 E2].
    apply String.eqb_eq in E1, E2, E3. unfold interest_key. congruence.
  - unfold interest_key in E. injection E as -> -> ->. now rewrite !String.eqb_refl.
Qed.

(** What the route does with an accepted request. *)
Lemma post_valid accounts interests fromUserId b to_user_id direction :
  valid_interest accounts fromUserId b to_user_id direction ->
  exists target,
    hd_error (select_account accounts to_user_id) = Some target
    /\ Interests.post w mailer BASE_URL accounts interests fromUserId b
       = let interests' :=
           Interests.insert_interest interests
             {| interest_id := uuidv4 w 0; from_user_id := fromUserId;
                Tables.to_user_id := to_user_id; interest_direction := direction |} in
         let mutual := MatchList.interest_exists interests' to_user_id fromUserId direction in
         ({| Interests.status := 200; Interests.json := Interests.MutualBody mutual |},
          interests',
          notification mailer BASE_URL accounts target fromUserId direction mutual).
Proof.
  intros (-> & Hto & Hdir & Hself & Hacc).
  destruct (select_account accounts to_user_id) as [|target rest] eqn:Ea; [congruence|].
  exists target. split; [reflexivity|].
  unfold Interests.post.
  cbn [Interests.b_to_user_id Interests.b_direction].
  rewrite (proj2 (truthy_nonempty to_user_id) Hto).
  rewrite (In_truthy _ _ Hdir) by (simpl; intuition discriminate).
  cbn [negb orb].
  replace (existsb (String.eqb direction) ["TO_WORK"; "FROM_WORK"]) with true
    by (symmetry; apply existsb_exists; exists direction; split;
        [assumption | apply String.eqb_refl]).
  cbn [negb].
  destruct (String.eqb_spec to_user_id fromUserId) as [E | _]; [contradiction|].
  rewrite Ea. cbv zeta. rewrite <- interest_exists_select.
  unfold notification. reflexivity.
Qed.

Lemma post_status accounts interests fromUserId b :
  (exists code error,
      Interests.post w mailer BASE_URL accounts interests fromUserId b
      = ({| Interests.status := code; Interests.json := Interests.ErrorBody error |},
         interests, [])
      /\ (code = 400 \/ code = 404)
      /\ (code = 404 <->
          exists to_user_id direction,
            b = {| Interests.b_to_user_id := Some to_user_id;
                   Interests.b_direction := Some direction |}
            /\ to_user_id <> EmptyString
            /\ In direction ["TO_WORK"; "FROM_WORK"]
            /\ to_user_id <> fromUserId
            /\ select_account accounts to_user_id = []))
  \/ exists to_user_id direction, valid_interest accounts fromUserId b to_user_id direction.
Proof.
  unfold Interests.post, Interests.reject.
  destruct b as [[to_user_id|] [direction|]];
    cbn [Interests.b_to_user_id Interests.b_direction];
    try (left; exists 400, "to_user_id and direction are required";
         split; [reflexivity | split; [now left|]];
         split; [discriminate | intros (? & ? & ? & _); discriminate]).
  destruct (truthy (Some to_user_id)) eqn:Hto; cbn [negb orb].
  2:{ left. eexists 400, _. split; [reflexivity | split; [now left|]].
      split; [discriminate|]. intros (t & d & E & Hne & _). injection E as <- <-.
      apply truthy_nonempty in Hne. congruence. }
  destruct (truthy (Some direction)) eqn:Hd; cbn [negb].
  2:{ left. eexists 400, _. split; [reflexivity | split; [now left|]].
      split; [discriminate|]. intros (t & d & E & _ & Hin & _). injection E as <- <-.
      rewrite (In_truthy _ _ Hin) in Hd by (simpl; intuition discriminate). discriminate. }
  destruct (existsb (String.eqb direction) ["TO_WORK"; "FROM_WORK"]) eqn:Hdir; cbn [negb].
  2:{ left. eexists 400, _. split; [reflexivity | split; [now left|]].
      split; [discriminate|]. intros (t & d & E & _ & Hin & _). injection E as <- <-.
      assert (existsb (String.eqb direction) ["TO_WORK"; "FROM_WORK"] = true)
        by (apply existsb_exists; exists direction; split;
            [assumption | apply String.eqb_refl]).
      congruence. }
  destruct (String.eqb_spec to_user_id fromUserId) as [E | Hself].
  { left. eexists 400, _. split; [reflexivity | split; [now left|]].
    split; [discriminate|]. intros (t & d & E' & _ & _ & Hne & _). injection E' as <- <-.
    contradiction. }
  apply truthy_nonempty in Hto.
  assert (Hin : In direction ["TO_WORK"; "FROM_WORK"]).
  { apply existsb_exists in Hdir. destruct Hdir as (x & Hx & E).
    apply String.eqb_eq in E. now subst. }
  destruct (select_account accounts to_user_id) as [|target rest] eqn:Ea.
  - left. eexists 404, _. split; [reflexivity | split; [now right|]].
    split; [|reflexivity]. intros _. exists to_user_id, direction.
    repeat split; assumption.
  - right. exists to_user_id, direction. repeat split; try assumption.
    rewrite Ea. discriminate.
Qed.

(** POST /api/interests answers 200 exactly when both fields are given, the
    direction is TO_WORK or FROM_WORK, the target is another user and that
    user exists; 404 exactly when all holds but the target does not exist;
    400 otherwise.  A request that is not accepted writes no interest and
    sends no mail. *)
Theorem post_interest_rejects_without_effect :
  forall accounts interests fromUserId b,
    let run := Interests.post w mailer BASE_URL accounts interests fromUserId b in
    (Interests.status (fst (fst run)) = 200
     <-> exists to_user_id direction,
           valid_interest accounts fromUserId b to_user_id direction)
    /\ (Interests.status (fst (fst run)) = 404
        <-> exists to_user_id direction,
              b = {| Interests.b_to_user_id := Some to_user_id;
                     Interests.b_direction := Some direction |}
              /\ to_user_id <> EmptyString
              /\ In direction ["TO_WORK"; "FROM_WORK"]
              /\ to_user_id <> fromUserId
              /\ select_account accounts to_user_id = [])
    /\ (Interests.status (fst (fst run)) <> 200 ->
        Interests.status (fst (fst run)) = 400 \/ Interests.status (fst (fst run)) = 404)
    /\ (Interests.status (fst (fst run)) <> 200 ->
        snd (fst run) = interests /\ snd run = []).
Proof.
  intros accounts interests fromUserId b. cbv zeta.
  destruct (post_status accounts interests fromUserId b)
    as [(code & error & E & Hcode & H404) | (t & d & Hv)].
  - rewrite E. cbn [fst snd Interests.status].
    split; [|split; [|split]].
    + split; [intros ->; destruct Hcode; discriminate|].
      intros (t & d & Hv).
      destruct (post_valid accounts interests fromUserId b t d Hv) as (target & _ & E').
      rewrite E' in E. discriminate.
    + exact H404.
    + intros _. exact Hcode.
    + intros _. split; reflexivity.
  - destruct (post_valid accounts interests fromUserId b t d Hv) as (target & _ & E).
    rewrite E. cbn [fst snd Interests.status].
    split; [|split; [|split]].
    + split; [eauto | reflexivity].
    + split; [discriminate|].
      intros (t' & d' & E' & _ & _ & _ & Hnone).
      destruct Hv as (Eb & _ & _ & _ & Hsome). rewrite Eb in E'. injection E' as <- <-.
      contradiction.
    + congruence.
    + congruence.
Qed.


(** ** Recording an interest *)

Lemma select_interest_key interests from to dir i :
  In i (Interests.select_interest interests from to dir)
  <-> In i interests /\ interest_key i = (from, to, dir).
Proof.
  unfold Interests.select_interest, interest_key. rewrite filter_In. split.
  - intros (H & E). apply andb_prop in E. destruct E as [E E3].
    apply andb_prop in E. destruct E as [E1 E2].
    apply String.eqb_eq in E1, E2, E3. now subst.
  - intros (H & E). injection E as -> -> ->. now rewrite !String.eqb_refl.
Qed.

Lemma insert_interest_cases interests i :
  (MatchList.interest_exists interests (from_user_id i) (to_user_id i)
     (interest_direction i) = true
   /\ Interests.insert_interest interests i = interests)
  \/ (MatchList.interest_exists interests (from_user_id i) (to_user_id i)
        (interest_direction i) = false
      /\ Interests.insert_interest interests i = interests ++ [i]).
Proof.
  unfold Interests.insert_interest. rewrite interest_exists_select.
  destruct (Interests.select_interest _ _ _ _); [right | left]; split; reflexivity.
Qed.

Lemma interest_exists_app l1 l2 from to dir :
  MatchList.interest_exists (l1 ++ l2) from to dir
  = MatchList.interest_exists l1 from to dir || MatchList.interest_exists l2 from to dir.
Proof. unfold MatchList.interest_exists. apply existsb_app. Qed.

Lemma interest_exists_insert interests i from to dir :
  MatchList.interest_exists (Interests.insert_interest interests i) from to dir
  = MatchList.interest_exists interests from to dir
    || ((from_user_id i =? from) && (to_user_id i =? to) && (interest_direction i =? dir)).
Proof.
  destruct (insert_interest_cases interests i) as [[He ->] | [He ->]].
  - destruct ((from_user_id i =? from) && (to_user_id i =? to)
              && (interest_direction i =? dir)) eqn:E; [|now rewrite orb_false_r].
    apply andb_prop in E. destruct E as [E E3]. apply andb_prop in E. destruct E as [E1 E2].
    apply String.eqb_eq in E1, E2, E3. subst. rewrite He. reflexivity.
  - rewrite interest_exists_app. simpl. now rewrite orb_false_r.
Qed.

(** On a table with at most one interest per (from, to, direction), an
    accepted POST /api/interests keeps that, records the interest, adds at
    most the one new row (none when the interest was already there), keeps
    the table free of interests of a user in themselves, and posting the
    same request again changes nothing: same response, same table, same
    mail. *)
Theorem post_interest_records_once :
  forall accounts interests fromUserId b to_user_id direction,
    valid_interest accounts fromUserId b to_user_id direction ->
    NoDup (map interest_key interests) ->
    let run := Interests.post w mailer BASE_URL accounts interests fromUserId b in
    let interests' := snd (fst run) in
    NoDup (map interest_key interests')
    /\ MatchList.interest_exists interests' fromUserId to_user_id direction = true
    /\ (forall i, In i interests' <->
                  In i interests
                  \/ (MatchList.interest_exists interests fromUserId to_user_id direction
                      = false
                      /\ i = {| interest_id := uuidv4 w 0; from_user_id := fromUserId;
                                Tables.to_user_id := to_user_id;
                                interest_direction := direction |}))
    /\ (Forall (fun i => from_user_id i <> Tables.to_user_id i) interests ->
        Forall (fun i => from_user_id i <> Tables.to_user_id i) interests')
    /\ Interests.post w mailer BASE_URL accounts interests' fromUserId b = run.
Proof.
  intros accounts interests fromUserId b to_user_id direction Hv Hnd. cbv zeta.
  destruct (post_valid accounts interests fromUserId b to_user_id direction Hv)
    as (target & Ht & E).
  rewrite E. cbv zeta. cbn [fst snd].
  set (i := {| interest_id := uuidv4 w 0; from_user_id := fromUserId;
               Tables.to_user_id := to_user_id; interest_direction := direction |}).
  assert (Hin : MatchList.interest_exists (Interests.insert_interest interests i)
                  fromUserId to_user_id direction = true).
  { rewrite interest_exists_insert. simpl. rewrite !String.eqb_refl. apply orb_true_r. }
  split; [|split; [exact Hin | split; [|split]]].
  - destruct (insert_interest_cases interests i) as [[He ->] | [He ->]]; [exact Hnd|].
    rewrite map_app. apply NoDup_app; [exact Hnd | repeat constructor; simpl; tauto |].
    intros k Hk [<- | []].
    apply in_map_iff in Hk. destruct Hk as (j & Hj & Hjin).
    assert (MatchList.interest_exists interests (from_user_id i) (Tables.to_user_id i)
              (interest_direction i) = true)
      by (apply interest_exists_In; exists j; split; assumption).
    congruence.
  - intros j.
    destruct (insert_interest_cases interests i) as [[He ->] | [He ->]]; simpl in He.
    + split; [tauto|]. intros [H | [H _]]; [assumption | congruence].
    + rewrite in_app_iff. simpl. split.
      * intros [H | [<- | []]]; [now left | right; now split].
      * intros [H | [_ ->]]; [now left | right; now left].
  - intros Hself.
    destruct (insert_interest_cases interests i) as [[He ->] | [He ->]]; [assumption|].
    apply Forall_app. split; [assumption|].
    constructor; [|constructor]. simpl.
    destruct Hv as (_ & _ & _ & Hne & _). congruence.
  - destruct (post_valid accounts (Interests.insert_interest interests i) fromUserId b
                to_user_id direction Hv) as (target' & Ht' & E').
    rewrite E'. cbv zeta. fold i.
    assert (target' = target) by congruence. subst target'.
    assert (Hsame : Interests.insert_interest (Interests.insert_interest interests i) i
                    = Interests.insert_interest interests i).
    { destruct (insert_interest_cases (Interests.insert_interest interests i) i)
        as [[_ ->] | [He _]]; [reflexivity|].
      simpl in He. congruence. }
    rewrite Hsame. reflexivity.
Qed.

(** ** Mutual interest *)

(** The response of an accepted POST /api/interests tells whether the
    target had already expressed the reverse interest for the direction;
    when the target answers with the reverse request, their response says
    mutual. *)
Theorem interest_is_mutual_when_returned :
  forall accounts interests userA userB direction bodyA bodyB,
    valid_interest accounts userA bodyA userB direction ->
    valid_interest accounts userB bodyB userA direction ->
    let first := Interests.post w mailer BASE_URL accounts interests userA bodyA in
    let second :=
      Interests.post w mailer BASE_URL accounts (snd (fst first)) userB bodyB in
    Interests.json (fst (fst first))
    = Interests.MutualBody (MatchList.interest_exists interests userB userA direction)
    /\ Interests.json (fst (fst second)) = Interests.MutualBody true.
Proof.
  intros accounts interests userA userB direction bodyA bodyB HvA HvB. cbv zeta.
  destruct (post_valid accounts interests userA bodyA userB direction HvA)
    as (targetB & _ & E1).
  rewrite E1. cbv zeta. cbn [fst snd Interests.json].
  destruct (post_valid accounts
              (Interests.insert_interest interests
                 {| interest_id := uuidv4 w 0; from_user_id := userA;
                    Tables.to_user_id := userB; interest_direction := direction |})
              userB bodyB userA direction HvB) as (targetA & _ & E2).
  rewrite E2. cbv zeta. cbn [fst snd Interests.json].
  rewrite !interest_exists_insert. simpl.
  rewrite !String.eqb_refl.
  destruct HvA as (_ & _ & _ & Hne & _).
  destruct (String.eqb_spec userA userB) as [-> | _]; [congruence|].
  simpl. rewrite !orb_false_r, orb_true_r. split; reflexivity.
Qed.

(** ** Withdrawing an interest *)

Lemma delete_interest_members interests fromUserId to_user_id direction i :
  to_user_id <> EmptyString -> direction <> EmptyString ->
  In i (snd (Interests.delete interests fromUserId
               {| Interests.b_to_user_id := Some to_user_id;
                  Interests.b_direction := Some direction |}))
  <-> In i interests /\ interest_key i <> (fromUserId, to_user_id, direction).
Proof.
  intros Hto Hd. unfold Interests.delete.
  cbn [Interests.b_to_user_id Interests.b_direction].
  rewrite (proj2 (truthy_nonempty to_user_id) Hto),
    (proj2 (truthy_nonempty direction) Hd).
  cbn [negb orb snd].
  rewrite filter_In. unfold interest_key. cbv beta.
  split; intros (Hi & Hk); (split; [assumption|]).
  - intros E. injection E as E1 E2 E3.
    rewrite E1, E2, E3, !String.eqb_refl in Hk. discriminate.
  - apply negb_true_iff.
    destruct ((from_user_id i =? fromUserId) && (Tables.to_user_id i =? to_user_id)
              && (interest_direction i =? direction)) eqn:E; [|reflexivity].
    apply andb_prop in E. destruct E as [E E3]. apply andb_prop in E. destruct E as [E1 E2].
    apply String.eqb_eq in E1, E2, E3. elim Hk. congruence.
Qed.

(** DELETE /api/interests answers 200 exactly when both fields are given
    and non-empty, whatever the direction and whether or not such an
    interest exists; otherwise it answers 400 and leaves the table as it
    was.  On success the table keeps exactly the rows with another key
    (from, to, direction). *)
Theorem delete_interest_withdraws :
  forall interests fromUserId b,
    let run := Interests.delete interests fromUserId b in
    (Interests.status (fst run) = 200
     <-> exists to_user_id direction,
           b = {| Interests.b_to_user_id := Some to_user_id;
                  Interests.b_direction := Some direction |}
           /\ to_user_id <> EmptyString /\ direction <> EmptyString)
    /\ (Interests.status (fst run) <> 200 ->
        Interests.status (fst run) = 400 /\ snd run = interests)
    /\ (forall to_user_id direction,
          b = {| Interests.b_to_user_id := Some to_user_id;
                 Interests.b_direction := Some direction |} ->
          to_user_id <> EmptyString -> direction <> EmptyString ->
          forall i, In i (snd run)
                    <-> In i interests
                        /\ interest_key i <> (fromUserId, to_user_id, direction)).
Proof.
  intros interests fromUserId b. cbv zeta.
  split; [|split].
  2,3: shelve.
  all: unfold Interests.delete.
  all: destruct b as [[to_user_id|] [direction|]];
    cbn [Interests.b_to_user_id Interests.b_direction];
    try (cbn [fst snd Interests.status];
         split; [discriminate | intros (? & ? & ? & _); discriminate]).
  destruct (truthy (Some to_user_id)) eqn:Hto; cbn [negb orb].
  2:{ cbn [fst snd Interests.status]. split; [discriminate|].
      intros (t & d & E & Hne & _). injection E as <- <-.
      apply truthy_nonempty in Hne. congruence. }
  destruct (truthy (Some direction)) eqn:Hd; cbn [negb].
  2:{ cbn [fst snd Interests.status]. split; [discriminate|].
      intros (t & d & E & _ & Hne). injection E as <- <-.
      apply truthy_nonempty in Hne. congruence. }
  cbn [fst snd Interests.status].
  apply truthy_nonempty in Hto, Hd.
  split; [intros _; eauto | reflexivity].
  Unshelve.
  - unfold Interests.delete.
    destruct b as [[to_user_id|] [direction|]];
      cbn [Interests.b_to_user_id Interests.b_direction];
      try (cbn [fst snd Interests.status]; intros _; split; reflexivity).
    destruct (negb (truthy (Some to_user_id)) || negb (truthy (Some direction)));
      cbn [fst snd Interests.status]; [intros _; split; reflexivity | congruence].
  - intros t d -> Hto Hd i. now apply delete_interest_members.
Qed.

Lemma filter_all_true {A} (f : A -> bool) (l : list A) :
  (forall x, In x l -> f x = true) -> filter f l = l.
Proof.
  induction l as [|a l IH]; simpl; intros H; [reflexivity|].
  rewrite H by now left. f_equal. apply IH. intros x Hx. apply H. now right.
Qed.

(** Withdrawing an interest that was not there before it was posted
    restores the table: DELETE /api/interests after the accepted POST
    answers 200 with the table as it was before the POST. *)
Theorem interest_post_then_delete_restores :
  forall accounts interests fromUserId b to_user_id direction,
    valid_interest accounts fromUserId b to_user_id direction ->
    MatchList.interest_exists interests fromUserId to_user_id direction = false ->
    let posted :=
      snd (fst (Interests.post w mailer BASE_URL accounts interests fromUserId b)) in
    Interests.delete posted fromUserId b
    = ({| Interests.status := 200; Interests.json := Interests.OkBody |}, interests).
Proof.
  intros accounts interests fromUserId b to_user_id direction Hv Hnone. cbv zeta.
  destruct (post_valid accounts interests fromUserId b to_user_id direction Hv)
    as (target & _ & E).
  rewrite E. cbv zeta. cbn [fst snd].
  destruct Hv as (-> & Hto & Hdir & _).
  unfold Interests.delete. cbn [Interests.b_to_user_id Interests.b_direction].
  rewrite (proj2 (truthy_nonempty to_user_id) Hto).
  rewrite (In_truthy _ _ Hdir) by (simpl; intuition discriminate).
  cbn [negb orb]. f_equal.
  destruct (insert_interest_cases interests
              {| interest_id := uuidv4 w 0; from_user_id := fromUserId;
                 Tables.to_user_id := to_user_id; interest_direction := direction |})
    as [[He _] | [_ ->]]; [simpl in He; congruence|].
  rewrite filter_app. simpl. rewrite !String.eqb_refl. simpl. rewrite app_nil_r.
  apply filter_all_true. intros i Hi. apply negb_true_iff.
  destruct ((from_user_id i =? fromUserId) && (Tables.to_user_id i =? to_user_id)
            && (interest_direction i =? direction)) eqn:Ek; [|reflexivity].
  assert (MatchList.interest_exists interests fromUserId to_user_id direction = true)
    by (apply existsb_exists; exists i; split; assumption).
  congruence.
Qed.


(** ** The notification *)

Lemma string_app_assoc (a b c : string) : ((a ++ b) ++ c = a ++ (b ++ c))%string.
Proof. induction a as [|x a IH]; simpl; [reflexivity | now rewrite IH]. Qed.

Lemma ends_with_cons (a rest tail : string) :
  (exists intro, rest = intro ++ tail)%string ->
  (exists intro, a ++ rest = intro ++ tail)%string.
Proof.
  intros [intro ->]. exists (a ++ intro)%string. symmetry. apply string_app_assoc.
Qed.

Lemma body_of_ends_with_link (p : Email.InterestEmailParams) :
  exists intro,
    Email.body_of p = (intro ++ "View your matches: " ++ Email.appUrl p ++ "/matches")%string.
Proof.
  unfold Email.body_of.
  destruct (Email.isMutual p);
    repeat first [ now exists EmptyString | apply ends_with_cons ].
Qed.

Lemma sendInterestEmail_cases (p : Email.InterestEmailParams) :
  (truthy (Email.SENDGRID_API_KEY mailer) && truthy (Email.FROM_EMAIL mailer) = false
   /\ Email.sendInterestEmail mailer p = ([], true))
  \/ exists fromEmail,
       truthy (Email.SENDGRID_API_KEY mailer) = true
       /\ truthy (Email.FROM_EMAIL mailer) = true
       /\ Email.FROM_EMAIL mailer = Some fromEmail
       /\ let m := {| Email.to := Email.toEmail p; Email.from := fromEmail;
                      Email.subject := Email.subject_of p;
                      Email.text := Email.body_of p |} in
          Email.sendInterestEmail mailer p = ([m], Email.delivers mailer m).
Proof.
  unfold Email.sendInterestEmail.
  destruct (Email.SENDGRID_API_KEY mailer) as [k|]; [|left; split; reflexivity].
  destruct (Email.FROM_EMAIL mailer) as [f|];
    [|left; split; [apply andb_false_r | reflexivity]].
  destruct (truthy (Some k)) eqn:Hk; [|left; split; reflexivity].
  destruct (truthy (Some f)) eqn:Hf; [|left; split; reflexivity].
  right. exists f. repeat split.
Qed.

(** An accepted POST /api/interests hands at most one message to the mail
    service, and hands one exactly when the target has notifications on and
    both the API key and the sender address are configured.  The message
    goes to the address of the target, from the configured sender, with the
    mutual or the plain subject as the response says, and ends with the link
    to the matches page of the application; an error is logged exactly when
    the service rejects the message, and the response carries the mutual
    flag either way. *)
Theorem interest_notification_is_gated :
  forall accounts interests fromUserId b to_user_id direction,
    valid_interest accounts fromUserId b to_user_id direction ->
    let run := Interests.post w mailer BASE_URL accounts interests fromUserId b in
    exists target mutual,
      hd_error (select_account accounts to_user_id) = Some target
      /\ Interests.json (fst (fst run)) = Interests.MutualBody mutual
      /\ (sent_mail (snd run) <> []
          <-> notify_email target = true
              /\ truthy (Email.SENDGRID_API_KEY mailer) = true
              /\ truthy (Email.FROM_EMAIL mailer) = true)
      /\ (List.length (sent_mail (snd run)) <= 1)%nat
      /\ (forall m, In m (sent_mail (snd run)) ->
            Email.to m = email target
            /\ Email.FROM_EMAIL mailer = Some (Email.from m)
            /\ (exists name,
                  Email.subject m
                  = if mutual then ("Mutual carpool match with " ++ name ++ "!")%string
                    else (name ++ " is interested in carpooling with you")%string)
            /\ exists intro,
                 Email.text m
                 = (intro ++ "View your matches: "
                          ++ or_default BASE_URL "http://localhost:3000" ++ "/matches")%string)
      /\ (In Interests.EvConsoleError (snd run)
          <-> exists m, In m (sent_mail (snd run)) /\ Email.delivers mailer m = false).
Proof.
  intros accounts interests fromUserId b to_user_id direction Hv. cbv zeta.
  destruct (post_valid accounts interests fromUserId b to_user_id direction Hv)
    as (target & Ht & E).
  rewrite E. cbv zeta. cbn [fst snd Interests.json].
  eexists target, _. split; [exact Ht|]. split; [reflexivity|].
  unfold notification.
  destruct (notify_email target).
  2:{ cbn [sent_mail flat_map].
      split; [split; [intros H; now elim H | intros (H & _); discriminate]|].
      split; [simpl; lia|]. split; [intros m []|].
      split; [intros [] | intros (m & [] & _)]. }
  match goal with
  | |- context [Email.sendInterestEmail mailer ?p] =>
      destruct (sendInterestEmail_cases p) as [(Hoff & ->) | (f & Hk & Hf & Ef & Es)];
      [|cbv zeta in Es; rewrite Es; pose proof (body_of_ends_with_link p) as Hlink]
  end.
  - cbn [map app sent_mail flat_map].
    split; [split; [intros H; now elim H|]|].
    { intros (_ & Hk & Hf). rewrite Hk, Hf in Hoff. discriminate. }
    split; [simpl; lia|]. split; [intros m []|].
    split; [intros [] | intros (m & [] & _)].
  - cbn [map app sent_mail flat_map].
    assert (Hs : forall tail : list Interests.event,
               (forall e, In e tail -> e = Interests.EvConsoleError) ->
               flat_map (fun e => match e with Interests.EvSend m => [m] | _ => [] end) tail
               = []).
    { induction tail as [|e tail IH]; simpl; intros H; [reflexivity|].
      rewrite (H e) by now left. simpl. apply IH. intros e' He'. apply H. now right. }
    rewrite Hs by (intros e He; destruct (Email.delivers mailer _); simpl in He; intuition).
    simpl.
    split; [split; [intros _; repeat split; assumption | discriminate]|].
    split; [lia|].
    split.
    + intros m [<- | []]. cbn [Email.to Email.from Email.subject Email.text].
      split; [reflexivity|]. split; [exact Ef|]. split.
      * eexists. unfold Email.subject_of. cbn [Email.isMutual Email.fromName]. reflexivity.
      * destruct Hlink as [intro Hlink]. exists intro. exact Hlink.
    + split.
      * intros [H | H]; [discriminate|].
        destruct (Email.delivers mailer _) eqn:Ed; simpl in H; [contradiction|].
        eexists. split; [now left | exact Ed].
      * intros (m & [<- | []] & Hd). right. rewrite Hd. now left.
Qed.

End InterestsFacts.

(* ================================================================== *)
(** * routes/matches.ts: GET /                                         *)
(* ================================================================== *)

Section MatchListFacts.

Import Tables.
Local Open Scope string_scope.
Local Open Scope list_scope.

(** *** ORDER BY *)

Lemma float8_lt_asym (a b : float) :
  MatchList.float8_lt a b = true -> MatchList.float8_lt b a = false.
Proof.
  unfold MatchList.float8_lt.
  destruct (is_nan a) eqn:Ha; [discriminate|].
  destruct (is_nan b) eqn:Hb; [reflexivity|].
  apply ltb_asym.
Qed.

Section OrderByFacts.
Context {A : Type}.
Variable column : A -> float.

Lemma insert_row_Permutation (x : A) (l : list A) :
  Permutation (MatchList.insert_row column x l) (x :: l).
Proof.
  induction l as [|y l IH]; simpl; [apply Permutation_refl|].
  destruct (MatchList.float8_lt (column y) (column x)).
  - eapply Permutation_trans; [apply perm_skip, IH | apply perm_swap].
  - apply Permutation_refl.
Qed.

Lemma order_by_Permutation (l : list A) : Permutation (MatchList.order_by column l) l.
Proof.
  induction l as [|x l IH]; simpl; [constructor|].
  eapply Permutation_trans; [apply insert_row_Permutation|].
  now apply perm_skip.
Qed.

Lemma insert_row_Sorted (x : A) (l : list A) :
  Sorted (fun a b => MatchList.float8_lt (column b) (column a) = false) l ->
  Sorted (fun a b => MatchList.float8_lt (column b) (column a) = false)
         (MatchList.insert_row column x l).
Proof.
  induction l as [|y l IH]; simpl; intros Hs.
  - repeat constructor.
  - destruct (MatchList.float8_lt (column y) (column x)) eqn:E.
    + inversion Hs as [|? ? Hs' Hhd]; subst.
      constructor; [now apply IH|].
      destruct l as [|z l]; simpl.
      * constructor. now apply float8_lt_asym.
      * destruct (MatchList.float8_lt (column z) (column x)).
        -- inversion Hhd; subst. now constructor.
        -- constructor. now apply float8_lt_asym.
    + constructor; [exact Hs|]. constructor. exact E.
Qed.

Lemma order_by_Sorted (l : list A) :
  Sorted (fun a b => MatchList.float8_lt (column b) (column a) = false)
         (MatchList.order_by column l).
Proof.
  induction l as [|x l IH]; simpl; [constructor|]. now apply insert_row_Sorted.
Qed.

End OrderByFacts.

Lemma Sorted_map {A B} (f : A -> B) (R : B -> B -> Prop) (l : list A) :
  Sorted (fun a b => R (f a) (f b)) l -> Sorted R (map f l).
Proof.
  induction 1 as [|a l Hs IH Hhd]; simpl; constructor; [assumption|].
  destruct Hhd; simpl; constructor. assumption.
Qed.

(** *** The join *)

Lemma filter_unique_key (accounts : list account) (a : account) :
  NoDup (map account_id accounts) -> In a accounts ->
  filter (fun u => account_id a =? account_id u) accounts = [a].
Proof.
  induction accounts as [|x l IH]; simpl; [contradiction|].
  intros Hnd Hin. inversion Hnd as [|? ? Hn Hnd']; subst.
  destruct Hin as [-> | Hin].
  - rewrite String.eqb_refl. f_equal.
    apply filter_nil_iff. intros u Hu.
    destruct (String.eqb_spec (account_id a) (account_id u)) as [E | _]; [|reflexivity].
    elim Hn. rewrite E. now apply in_map.
  - destruct (String.eqb_spec (account_id a) (account_id x)) as [E | _].
    + elim Hn. rewrite <- E. now apply in_map.
    + now apply IH.
Qed.

Lemma flat_map_if {A B} (p : A -> bool) (f : A -> list B) (l : list A) :
  flat_map (fun x => if p x then f x else []) l = flat_map f (filter p l).
Proof.
  induction l as [|x l IH]; simpl; [reflexivity|].
  destruct (p x); simpl; now rewrite IH.
Qed.

Lemma flat_map_nil {A B} (l : list A) : flat_map (fun _ : A => @nil B) l = [].
Proof. induction l; simpl; auto. Qed.

Lemma joined_app accounts l1 l2 userId :
  MatchList.joined accounts (l1 ++ l2) userId
  = MatchList.joined accounts l1 userId ++ MatchList.joined accounts l2 userId.
Proof. unfold MatchList.joined. apply flat_map_app. Qed.

Lemma joined_cons accounts r l userId :
  MatchList.joined accounts (r :: l) userId
  = joined_row accounts userId r ++ MatchList.joined accounts l userId.
Proof.
  unfold joined_row, MatchList.joined. simpl. now rewrite app_nil_r.
Qed.

Lemma joined_row_other accounts userId r :
  involves userId r = false -> joined_row accounts userId r = [].
Proof.
  intros H. unfold joined_row, MatchList.joined, involves in *. simpl.
  rewrite H, app_nil_r.
  erewrite flat_map_ext; [apply flat_map_nil|].
  intros u1. cbv beta.
  erewrite flat_map_ext; [apply flat_map_nil|].
  intros u2. cbv beta. now rewrite andb_false_r.
Qed.

Lemma joined_row_one accounts userId r u1 u2 :
  NoDup (map account_id accounts) ->
  In u1 accounts -> In u2 accounts ->
  user_a_id r = account_id u1 -> user_b_id r = account_id u2 ->
  involves userId r = true ->
  joined_row accounts userId r = [(r, u1, u2)].
Proof.
  intros Hnd H1 H2 Ea Eb Hi.
  unfold joined_row, MatchList.joined, involves in *. simpl.
  rewrite Hi, app_nil_r, Ea, Eb.
  assert (Hinner : forall u,
             flat_map (fun v =>
               if (account_id u1 =? account_id u) && (account_id u2 =? account_id v) && true
               then [(r, u, v)] else []) accounts
             = if account_id u1 =? account_id u then [(r, u, u2)] else []).
  { intros u.
    destruct (account_id u1 =? account_id u); cbn [andb].
    - erewrite flat_map_ext
        with (g := fun v => if account_id u2 =? account_id v then [(r, u, v)] else [])
        by (intros v; now rewrite andb_true_r).
      rewrite flat_map_if, (filter_unique_key accounts u2 Hnd H2). reflexivity.
    - apply flat_map_nil. }
  change (flat_map
            (fun a => flat_map (fun v =>
               if (account_id u1 =? account_id a) && (account_id u2 =? account_id v) && true
               then [(r, a, v)] else []) accounts) accounts
          = [(r, u1, u2)]).
  erewrite flat_map_ext by apply Hinner.
  rewrite flat_map_if, (filter_unique_key accounts u1 Hnd H1). reflexivity.
Qed.

Lemma joined_sound accounts matches userId r u1 u2 :
  In (r, u1, u2) (MatchList.joined accounts matches userId) ->
  In r matches /\ In u1 accounts /\ In u2 accounts
  /\ user_a_id r = account_id u1 /\ user_b_id r = account_id u2
  /\ involves userId r = true.
Proof.
  unfold MatchList.joined. intros H.
  apply in_flat_map in H. destruct H as (r' & Hr & H).
  apply in_flat_map in H. destruct H as (a & Ha & H).
  apply in_flat_map in H. destruct H as (b & Hb & H).
  destruct (_ && _) eqn:E; [|contradiction].
  destruct H as [H | []]. injection H as <- <- <-.
  apply andb_prop in E. destruct E as [E E3]. apply andb_prop in E. destruct E as [E1 E2].
  apply String.eqb_eq in E1, E2. unfold involves, account_id. tauto.
Qed.

Lemma joined_rows accounts matches userId :
  NoDup (map account_id accounts) ->
  (forall r, In r matches -> involves userId r = true ->
             In (user_a_id r) (map account_id accounts)
             /\ In (user_b_id r) (map account_id accounts)) ->
  map (fun j => fst (fst j)) (MatchList.joined accounts matches userId)
  = filter (involves userId) matches.
Proof.
  intros Hnd. induction matches as [|r l IH]; intros Href; [reflexivity|].
  rewrite joined_cons, map_app, IH by (intros; apply Href; [now right | assumption]).
  simpl. destruct (involves userId r) eqn:Hi.
  - destruct (Href r (or_introl eq_refl) Hi) as [Ha Hb].
    apply in_map_iff in Ha, Hb. destruct Ha as (u1 & E1 & H1), Hb as (u2 & E2 & H2).
    rewrite (joined_row_one accounts userId r u1 u2) by auto. reflexivity.
  - now rewrite joined_row_other.
Qed.

Lemma select_item_spec interests userId r u1 u2 :
  let it := MatchList.select_item interests userId (r, u1, u2) in
  let p := if user_a_id r =? userId then u2 else u1 in
  MatchList.mr it = r
  /\ MatchList.partner_id it = partner_of userId r
  /\ MatchList.partner_name it = display_name (user p)
  /\ MatchList.partner_avatar it = avatar_url p
  /\ MatchList.partner_address it = or_null (home_neighborhood p)
  /\ MatchList.i_expressed_interest it
     = MatchList.interest_exists interests userId (partner_of userId r) (match_direction r)
  /\ MatchList.they_expressed_interest it
     = MatchList.interest_exists interests (partner_of userId r) userId (match_direction r).
Proof. simpl. unfold partner_of. repeat split. Qed.

Lemma get_matches_items accounts matches interests userId it :
  In it (MatchList.get_matches accounts matches interests userId) ->
  exists r u1 u2,
    In (r, u1, u2) (MatchList.joined accounts matches userId)
    /\ it = MatchList.select_item interests userId (r, u1, u2).
Proof.
  unfold MatchList.get_matches. intros H.
  apply in_map_iff in H. destruct H as ([[r u1] u2] & <- & H).
  exists r, u1, u2. split; [|reflexivity].
  eapply Permutation_in; [apply order_by_Permutation | exact H].
Qed.

Lemma get_matches_Sorted accounts matches interests userId :
  Sorted (fun x y =>
            MatchList.float8_lt (rank_score (MatchList.mr y))
                                (rank_score (MatchList.mr x)) = false)
         (MatchList.get_matches accounts matches interests userId).
Proof.
  unfold MatchList.get_matches.
  pose proof (order_by_Sorted (fun j : match_row * account * account =>
                                 rank_score (fst (fst j)))
                (MatchList.joined accounts matches userId)) as Hs.
  induction Hs as [|j l Hs IH Hhd]; simpl; constructor; [exact IH|].
  destruct Hhd as [|j' l' Hr]; simpl; constructor.
  destruct j as [[r u1] u2], j' as [[r' u1'] u2']. exact Hr.
Qed.

(** GET /api/matches, on accounts with distinct ids and match rows that
    refer to accounts, lists exactly the match rows that involve the user
    (a permutation of them), by ascending rank score (in the order of the database on
    floats), each with the other user of the pair: id, display name, avatar,
    and the neighborhood in the place of an address. *)
Theorem get_matches_lists_rows_of_user :
  forall (accounts : list account) (matches : list match_row)
         (interests : list interest_row) (userId : string),
    NoDup (map account_id accounts) ->
    (forall r, In r matches ->
               In (user_a_id r) (map account_id accounts)
               /\ In (user_b_id r) (map account_id accounts)) ->
    let items := MatchList.get_matches accounts matches interests userId in
    Permutation (map MatchList.mr items) (filter (involves userId) matches)
    /\ Sorted (fun x y =>
                 MatchList.float8_lt (rank_score (MatchList.mr y))
                                     (rank_score (MatchList.mr x)) = false)
              items
    /\ Forall (fun it =>
                 MatchList.partner_id it = partner_of userId (MatchList.mr it)
                 /\ exists p,
                      In p accounts
                      /\ account_id p = MatchList.partner_id it
                      /\ MatchList.partner_name it = display_name (user p)
                      /\ MatchList.partner_avatar it = avatar_url p
                      /\ MatchList.partner_address it = or_null (home_neighborhood p))
              items.
Proof.
  intros accounts matches interests userId Hnd Href. cbv zeta.
  split; [|split].
  - unfold MatchList.get_matches. rewrite map_map.
    erewrite map_ext
      with (g := fun j => fst (fst j)) by (intros [[r u1] u2]; reflexivity).
    rewrite <- (joined_rows accounts matches userId Hnd)
      by (intros r Hr _; now apply Href).
    apply Permutation_map, order_by_Permutation.
  - apply get_matches_Sorted.
  - apply Forall_forall. intros it Hit.
    destruct (get_matches_items _ _ _ _ _ Hit) as (r & u1 & u2 & Hj & ->).
    destruct (joined_sound _ _ _ _ _ _ Hj) as (_ & H1 & H2 & Ea & Eb & _).
    split; [reflexivity|].
    simpl. unfold partner_of.
    destruct (user_a_id r =? userId); [exists u2 | exists u1]; repeat split; auto.
Qed.

End MatchListFacts.

Section ComputeNames.

Context {M : MathImpl}.
Variable w : World.

Import Tables.
Local Open Scope string_scope.
Local Open Scope list_scope.

Lemma pair_step_named pool userId other detourMinutes myPref otherPref st :
  In other pool -> names_kept pool st ->
  names_kept pool (pair_step w userId other detourMinutes myPref otherPref st).
Proof.
  intros Hin Hst. unfold pair_step.
  destruct (negb (direction myPref =? direction otherPref)); [exact Hst|].
  destruct (negb (rolesCompatible (role myPref) (role otherPref))); [exact Hst|].
  destruct (_ || _); [exact Hst|].
  unfold names_kept in *. cbn [newMatches trace].
  rewrite inserted_rows_app. apply Forall2_app; [exact Hst|].
  simpl. constructor; [|constructor].
  exists other. repeat split; assumption.
Qed.

Lemma pairing_loops_named pool userId other detourMinutes myPrefs otherPrefs st :
  In other pool -> names_kept pool st ->
  names_kept pool (pairing_loops w userId other detourMinutes myPrefs otherPrefs st).
Proof.
  intros Hin. unfold pairing_loops.
  revert st. induction myPrefs as [|mp mps IH]; simpl; intros st Hst; [exact Hst|].
  apply IH. clear IH.
  revert st Hst. induction otherPrefs as [|op ops IH]; simpl; intros st Hst; [exact Hst|].
  apply IH. now apply pair_step_named.
Qed.

Lemma candidate_step_named pool userId currentUser myPrefs t i other st :
  In other pool -> names_kept pool st ->
  names_kept pool (candidate_step w userId currentUser myPrefs t i other st).
Proof.
  intros Hin Hst. unfold candidate_step.
  assert (H0 : names_kept pool
                 {| newMatches := newMatches st; cur_db := cur_db st;
                    trace := trace st ++ [EvQuery (QPrefsByUser (id other))];
                    uuid_count := uuid_count st |}).
  { unfold names_kept in *. cbn [newMatches trace].
    rewrite inserted_rows_app. simpl. now rewrite app_nil_r. }
  destruct (PrimFloat.ltb _ _); [exact H0|].
  now apply pairing_loops_named.
Qed.

Lemma candidate_loop_named pool userId currentUser myPrefs t rest :
  forall i st,
    incl rest pool -> names_kept pool st ->
    names_kept pool (candidate_loop w userId currentUser myPrefs t i rest st).
Proof.
  induction rest as [|other rest IH]; simpl; intros i st Hincl Hst; [exact Hst|].
  apply IH.
  - intros x Hx. apply Hincl. now right.
  - apply candidate_step_named; [apply Hincl; now left | exact Hst].
Qed.

Lemma compute_names db userId currentUser :
  preconditions db userId currentUser ->
  exists summaries : list match_summary,
    json (fst (fst (compute w db userId)))
    = (let sorted :=
         Array_sort (fun a b => (s_rank_score a - s_rank_score b)%float) summaries in
       ComputeBody (List.length sorted) sorted)
    /\ Forall2 (named (prefilter w currentUser (select_other_users db userId)))
               summaries (inserted_rows (snd (compute w db userId))).
Proof.
  intros (Hu & Hlat & Hlng & Hp).
  unfold compute.
  destruct (select_user db userId) as [|cu rest] eqn:Eu; [discriminate|].
  simpl in Hu. injection Hu as ->.
  rewrite Hlat, Hlng. simpl orb. cbv iota.
  destruct (select_prefs db userId) as [|p ps] eqn:Ep; [congruence|].
  change ((List.length (p :: ps) =? 0)%nat) with false. cbv iota.
  pose proof (fetch_drive_times_no_rows w currentUser
                (prefilter w currentUser (select_other_users db userId))) as [Hnr _].
  destruct (fetch_drive_times w currentUser
              (prefilter w currentUser (select_other_users db userId)))
    as [t0 fetched] eqn:Ef.
  cbn [snd] in Hnr. cbv zeta.
  match goal with
  | |- context [candidate_loop w userId currentUser ?mp t0 0 ?cands ?s0] =>
      pose proof (candidate_loop_named cands userId currentUser mp t0 cands 0 s0
                    (incl_refl _)) as Hn;
      remember (candidate_loop w userId currentUser mp t0 0 cands s0) as st' eqn:Est
  end.
  clear Est.
  exists (newMatches st'). cbn [fst snd json]. split; [reflexivity|].
  apply Hn. unfold names_kept. cbn [newMatches trace].
  rewrite !inserted_rows_app, Hnr. simpl. constructor.
Qed.

End ComputeNames.

Section AfterCompute.

Context {M : MathImpl}.
Variable w : World.

Import Tables.
Local Open Scope string_scope.
Local Open Scope list_scope.

Lemma joined_others accounts userId rows :
  Forall (fun r => involves userId r = false) rows ->
  MatchList.joined accounts rows userId = [].
Proof.
  induction 1 as [|r l Hr _ IH]; [reflexivity|].
  now rewrite joined_cons, IH, joined_row_other.
Qed.

Lemma in_users_account accounts (u : user_row) :
  In u (map user accounts) -> exists a, In a accounts /\ user a = u.
Proof. intros H. apply in_map_iff in H. destruct H as (a & E & Ha). eauto. Qed.

Lemma joined_named accounts userId (acc : account) pool summaries rows :
  NoDup (map account_id accounts) ->
  In acc accounts -> account_id acc = userId ->
  incl pool (map user accounts) ->
  Forall (fun r => user_a_id r = userId) rows ->
  Forall2 (named pool) summaries rows ->
  map (fun j => fst (fst j)) (MatchList.joined accounts rows userId) = rows
  /\ forall interests,
       map (fun j =>
              let it := MatchList.select_item interests userId j in
              summary_of (MatchList.partner_name it) (MatchList.mr it))
           (MatchList.joined accounts rows userId)
       = summaries.
Proof.
  intros Hnd Hacc Hid Hpool Ha Hn.
  induction Hn as [|s r summaries rows (other & Hother & Eb & ->) Hn IH].
  - split; [reflexivity | intros; reflexivity].
  - pose proof (Forall_inv Ha) as Hr. pose proof (Forall_inv_tail Ha) as Ha'.
    cbv beta in Hr.
    destruct (IH Ha') as [IH1 IH2]. clear IH.
    destruct (in_users_account accounts other (Hpool other Hother)) as (u2 & Hu2 & Eu2).
    assert (Hj : joined_row accounts userId r = [(r, acc, u2)]).
    { apply joined_row_one; try assumption.
      - congruence.
      - unfold account_id. now rewrite Eu2.
      - unfold involves. now rewrite Hr, String.eqb_refl. }
    rewrite joined_cons, Hj. cbn [app map fst].
    split; [now rewrite IH1|].
    intros interests. rewrite IH2. f_equal.
    cbn [MatchList.select_item MatchList.partner_name MatchList.mr].
    rewrite Hr, String.eqb_refl, Eu2. reflexivity.
Qed.

(** After a successful run of POST /compute, GET /api/matches of the same
    user lists exactly the rows the run inserted, by ascending stored score;
    rounded as the run reports them and with the name of the partner, they
    are the summaries of the response of the run, up to order. *)
Theorem get_matches_after_compute :
  forall (db : DB) (userId : string) (currentUser : user_row)
         (accounts : list account) (interests : list interest_row),
    preconditions db userId currentUser ->
    map user accounts = users db ->
    NoDup (map account_id accounts) ->
    let run := compute w db userId in
    let items :=
      MatchList.get_matches accounts (match_results (snd (fst run))) interests userId in
    exists reported,
      json (fst (fst run)) = ComputeBody (List.length reported) reported
      /\ Permutation
           (map (fun it => summary_of (MatchList.partner_name it) (MatchList.mr it)) items)
           reported
      /\ Permutation (map MatchList.mr items) (inserted_rows (snd run))
      /\ Sorted (fun x y =>
                   MatchList.float8_lt (rank_score (MatchList.mr y))
                                       (rank_score (MatchList.mr x)) = false)
                items.
Proof.
  intros db userId currentUser accounts interests Hpre Husers Hnd. cbv zeta.
  destruct (compute_names w db userId currentUser Hpre) as (summaries & Hjson & Hnamed).
  destruct (compute_inserted_rows w db userId currentUser Hpre) as [Hrows Hmatches].
  cbv zeta in Hjson.
  exists (Array_sort (fun a b => (s_rank_score a - s_rank_score b)%float) summaries).
  split; [exact Hjson|].
  set (rows := inserted_rows (snd (compute w db userId))) in *.
  assert (Hcu : exists acc, In acc accounts /\ account_id acc = userId).
  { destruct Hpre as (Hu & _).
    unfold select_user in Hu.
    destruct (filter (fun u => id u =? userId) (users db)) as [|cu l] eqn:E; [discriminate|].
    assert (Hin : In cu (filter (fun u => id u =? userId) (users db)))
      by (rewrite E; now left).
    apply filter_In in Hin. destruct Hin as [Hin Hid]. apply String.eqb_eq in Hid.
    rewrite <- Husers in Hin.
    destruct (in_users_account accounts cu Hin) as (acc & Hacc & Eacc).
    exists acc. split; [assumption|]. unfold account_id. now rewrite Eacc. }
  destruct Hcu as (acc & Hacc & Hid).
  assert (Hpool : incl (prefilter w currentUser (select_other_users db userId))
                       (map user accounts)).
  { intros u Hu. rewrite Husers. unfold prefilter, select_other_users in Hu.
    apply filter_In in Hu. destruct Hu as [Hu _].
    apply filter_In in Hu. tauto. }
  assert (Ha : Forall (fun r => user_a_id r = userId) rows).
  { eapply Forall_impl; [|exact Hrows]. intros r (H & _). exact H. }
  destruct (joined_named accounts userId acc _ summaries rows Hnd Hacc Hid Hpool Ha Hnamed)
    as [Hj1 Hj2].
  assert (Hjoined : MatchList.joined accounts
                      (match_results (snd (fst (compute w db userId)))) userId
                    = MatchList.joined accounts rows userId).
  { rewrite Hmatches, joined_app, joined_others; [reflexivity|].
    unfold delete_matches. cbn [match_results].
    apply Forall_forall. intros r Hr. apply filter_In in Hr. destruct Hr as [_ Hr].
    unfold involves. now apply negb_true_iff in Hr. }
  split; [|split; [|apply get_matches_Sorted]].
  all: unfold MatchList.get_matches; rewrite Hjoined.
  all: set (col := fun j : match_row * account * account => rank_score (fst (fst j))).
  all: pose proof (order_by_Permutation col (MatchList.joined accounts rows userId))
    as Hperm.
  - rewrite map_map.
    eapply Permutation_trans;
      [apply Permutation_map; exact Hperm|].
    rewrite <- (Hj2 interests).
    apply Permutation_sym.
    apply (Array_sort_Permutation
             (fun a b : match_summary => (s_rank_score a - s_rank_score b)%float)).
  - rewrite map_map.
    erewrite map_ext
      with (g := fun j => fst (fst j)) by (intros [[r u1] u2]; reflexivity).
    rewrite <- Hj1 at 2. apply Permutation_map. exact Hperm.
Qed.

End AfterCompute.

Section InterestFlags.

Import Tables.
Local Open Scope string_scope.
Local Open Scope list_scope.

Variable w : World.
Variable mailer : Email.Mailer.
Variable BASE_URL : option string.

Lemma get_matches_flags accounts matches interests userId it :
  In it (MatchList.get_matches accounts matches interests userId) ->
  MatchList.i_expressed_interest it
  = MatchList.interest_exists interests userId (MatchList.partner_id it)
      (match_direction (MatchList.mr it))
  /\ MatchList.they_expressed_interest it
     = MatchList.interest_exists interests (MatchList.partner_id it) userId
         (match_direction (MatchList.mr it)).
Proof.
  intros H. destruct (get_matches_items _ _ _ _ _ H) as (r & u1 & u2 & _ & ->).
  split; reflexivity.
Qed.

Lemma get_matches_rows_any_interests accounts matches interests interests' userId :
  map (fun it => (MatchList.mr it, MatchList.partner_id it, MatchList.partner_name it,
                  MatchList.partner_avatar it, MatchList.partner_address it))
      (MatchList.get_matches accounts matches interests userId)
  = map (fun it => (MatchList.mr it, MatchList.partner_id it, MatchList.partner_name it,
                    MatchList.partner_avatar it, MatchList.partner_address it))
        (MatchList.get_matches accounts matches interests' userId).
Proof.
  unfold MatchList.get_matches. rewrite !map_map.
  apply map_ext. intros [[r u1] u2]. reflexivity.
Qed.

(** An accepted interest shows in the match lists: in the list of the
    sender the rows with the target for the direction have
    [i_expressed_interest], in the list of the target the rows with the
    sender have [they_expressed_interest]; after the withdrawal the flag of
    the sender is off again.  Posting an interest changes nothing else in
    any list. *)
Theorem match_list_shows_interest :
  forall accounts matches interests fromUserId b to_user_id direction,
    valid_interest accounts fromUserId b to_user_id direction ->
    let posted :=
      snd (fst (Interests.post w mailer BASE_URL accounts interests fromUserId b)) in
    let withdrawn := snd (Interests.delete posted fromUserId b) in
    (forall it,
        In it (MatchList.get_matches accounts matches posted fromUserId) ->
        MatchList.partner_id it = to_user_id ->
        match_direction (MatchList.mr it) = direction ->
        MatchList.i_expressed_interest it = true)
    /\ (forall it,
          In it (MatchList.get_matches accounts matches posted to_user_id) ->
          MatchList.partner_id it = fromUserId ->
          match_direction (MatchList.mr it) = direction ->
          MatchList.they_expressed_interest it = true)
    /\ (forall it,
          In it (MatchList.get_matches accounts matches withdrawn fromUserId) ->
          MatchList.partner_id it = to_user_id ->
          match_direction (MatchList.mr it) = direction ->
          MatchList.i_expressed_interest it = false)
    /\ (forall userId,
          map (fun it => (MatchList.mr it, MatchList.partner_id it,
                          MatchList.partner_name it, MatchList.partner_avatar it,
                          MatchList.partner_address it))
              (MatchList.get_matches accounts matches posted userId)
          = map (fun it => (MatchList.mr it, MatchList.partner_id it,
                            MatchList.partner_name it, MatchList.partner_avatar it,
                            MatchList.partner_address it))
                (MatchList.get_matches accounts matches interests userId)).
Proof.
  intros accounts matches interests fromUserId b to_user_id direction Hv. cbv zeta.
  destruct (post_valid w mailer BASE_URL accounts interests fromUserId b
              to_user_id direction Hv) as (target & _ & E).
  rewrite E. cbv zeta. cbn [fst snd].
  set (i := {| interest_id := uuidv4 w 0; from_user_id := fromUserId;
               Tables.to_user_id := to_user_id; interest_direction := direction |}).
  assert (Hin : MatchList.interest_exists (Interests.insert_interest interests i)
                  fromUserId to_user_id direction = true).
  { rewrite interest_exists_insert. simpl. rewrite !String.eqb_refl. apply orb_true_r. }
  split; [|split; [|split]].
  - intros it Hit Hp Hd.
    destruct (get_matches_flags _ _ _ _ _ Hit) as [-> _]. now rewrite Hp, Hd.
  - intros it Hit Hp Hd.
    destruct (get_matches_flags _ _ _ _ _ Hit) as [_ ->]. now rewrite Hp, Hd.
  - intros it Hit Hp Hd.
    destruct (get_matches_flags _ _ _ _ _ Hit) as [-> _]. rewrite Hp, Hd.
    destruct (MatchList.interest_exists (snd (Interests.delete _ _ _))
                fromUserId to_user_id direction) eqn:Ex; [|reflexivity].
    exfalso. apply interest_exists_In in Ex. destruct Ex as (j & Hj & Hk).
    destruct Hv as (Eb & Hto & Hdir & _).
    subst b.
    apply (delete_interest_members (Interests.insert_interest interests i)
             fromUserId to_user_id direction j Hto) in Hj.
    + tauto.
    + intros ->. destruct Hdir as [Hx | [Hx | []]]; discriminate.
  - intros userId. apply get_matches_rows_any_interests.
Qed.

End InterestFlags.

(* ================================================================== *)
(** * routes/profile.ts                                                *)
(* ================================================================== *)

Section ProfileFacts.

Import Tables.
Local Open Scope string_scope.
Local Open Scope list_scope.

Variable geocode : Profile.geocode_request -> Profile.geocode_result.
Variable apiKey : option string.
Variable now : nat.

Lemma put_unfold accounts userId b :
  Profile.put geocode apiKey now accounts userId b
  = let r := Profile.resolve geocode apiKey b in
    let accounts' :=
      Profile.update_home now accounts userId (or_null (Profile.b_home_address b))
        (Profile.coordinate_or_null (fst (fst (fst r))))
        (Profile.coordinate_or_null (snd (fst (fst r))))
        (snd (fst r)) in
    ({| Profile.status := 200;
        Profile.json := Profile.UserBody (hd_error (select_account accounts' userId)) |},
     accounts', snd r).
Proof.
  unfold Profile.put. destruct (Profile.resolve geocode apiKey b) as [[[lat lng] nb] evs].
  reflexivity.
Qed.

Lemma select_account_update accounts userId address lat lng nb :
  select_account (Profile.update_home now accounts userId address lat lng nb) userId
  = map (fun a =>
           {| user := {| id := id (user a); display_name := display_name (user a);
                         home_lat := lat; home_lng := lng |};
              google_id := google_id a; email := email a; avatar_url := avatar_url a;
              home_address := address; home_neighborhood := nb;
              notify_email := notify_email a; updated_at := now |})
        (select_account accounts userId).
Proof.
  unfold select_account, Profile.update_home.
  induction accounts as [|a l IH]; simpl; [reflexivity|].
  destruct (id (user a) =? userId) eqn:E; simpl; rewrite E; simpl; now rewrite IH.
Qed.

Lemma homes_update accounts userId address lat lng nb :
  homes (Profile.update_home now accounts userId address lat lng nb) userId
  = map (fun _ => (address, lat, lng, nb)) (select_account accounts userId).
Proof.
  unfold homes. rewrite select_account_update, map_map. reflexivity.
Qed.

(** ** What a PUT changes *)

(** PUT /api/profile always answers 200.  It changes neither the identity,
    mail, avatar or notification setting of any account nor any column of
    another user; the row of the user gets the time of the update and the
    address sent (null when none or empty), and the response is what
    GET /api/profile answers afterwards.  For an unknown user it writes
    nothing and answers null. *)
Theorem put_profile_writes_only_the_home_of_the_user :
  forall accounts userId b,
    let run := Profile.put geocode apiKey now accounts userId b in
    let accounts' := snd (fst run) in
    Profile.status (fst (fst run)) = 200
    /\ map identity_columns accounts' = map identity_columns accounts
    /\ filter (fun a => negb (id (user a) =? userId)) accounts'
       = filter (fun a => negb (id (user a) =? userId)) accounts
    /\ Forall (fun a => updated_at a = now
                        /\ home_address a = or_null (Profile.b_home_address b))
              (select_account accounts' userId)
    /\ (select_account accounts userId <> [] ->
        fst (fst run) = Profile.get accounts' userId)
    /\ (select_account accounts userId = [] ->
        fst (fst run) = {| Profile.status := 200; Profile.json := Profile.UserBody None |}
        /\ accounts' = accounts).
Proof.
  intros accounts userId b. cbv zeta. rewrite put_unfold. cbv zeta. cbn [fst snd].
  set (r := Profile.resolve geocode apiKey b).
  split; [reflexivity|]. split; [|split; [|split; [|split]]].
  - unfold Profile.update_home. rewrite map_map. apply map_ext.
    intros a. destruct (id (user a) =? userId); reflexivity.
  - unfold Profile.update_home.
    induction accounts as [|a l IH]; simpl; [reflexivity|].
    destruct (id (user a) =? userId) eqn:E; simpl; rewrite E; simpl; now rewrite IH.
  - rewrite select_account_update. apply Forall_forall.
    intros a Ha. apply in_map_iff in Ha. destruct Ha as (a0 & <- & _). split; reflexivity.
  - intros Hne. unfold Profile.get. rewrite select_account_update.
    destruct (select_account accounts userId); [congruence | reflexivity].
  - intros Hnone. rewrite select_account_update, Hnone. split; [reflexivity|].
    unfold Profile.update_home. rewrite <- (map_id accounts) at 2.
    apply map_ext_in. intros a Ha.
    destruct (id (user a) =? userId) eqn:E; [|reflexivity].
    assert (In a (select_account accounts userId))
      by (apply filter_In; split; assumption).
    rewrite Hnone in *. contradiction.
Qed.

(** ** Geocoding *)

Lemma resolve_cases b :
  (needs_geocoding b = false
   /\ Profile.resolve geocode apiKey b
      = (Profile.b_home_lat b, Profile.b_home_lng b, None, []))
  \/ exists home_address,
       needs_geocoding b = true
       /\ Profile.b_home_address b = Some home_address
       /\ let req := {| Profile.address := home_address;
                        Profile.geocode_key := apiKey |} in
          Profile.resolve geocode apiKey b
          = match geocode req with
            | Profile.GeocodeRejected =>
                (Profile.b_home_lat b, Profile.b_home_lng b, None,
                 [Profile.EvGeocode req; Profile.EvConsoleError])
            | Profile.GeocodeJson data =>
                match Profile.results data with
                | Some (result :: _) =>
                    (Some (lat (Profile.location result)),
                     Some (lng (Profile.location result)),
                     Profile.neighborhood_of
                       (match Profile.address_components result with
                        | Some cs => cs
                        | None => []
                        end),
                     [Profile.EvGeocode req])
                | _ => (Profile.b_home_lat b, Profile.b_home_lng b, None,
                        [Profile.EvGeocode req])
                end
            end.
Proof.
  unfold Profile.resolve, needs_geocoding.
  destruct (Profile.b_home_address b) as [home_address|]; [|left; split; reflexivity].
  destruct (truthy (Some home_address)
            && (falsy (Profile.b_home_lat b) || falsy (Profile.b_home_lng b))) eqn:E.
  - right. exists home_address. repeat split.
  - left. split; reflexivity.
Qed.

Lemma put_homes accounts userId b :
  homes (snd (fst (Profile.put geocode apiKey now accounts userId b))) userId
  = let r := Profile.resolve geocode apiKey b in
    map (fun _ => (or_null (Profile.b_home_address b),
                   Profile.coordinate_or_null (fst (fst (fst r))),
                   Profile.coordinate_or_null (snd (fst (fst r))),
                   snd (fst r)))
        (select_account accounts userId).
Proof. rewrite put_unfold. cbv zeta. cbn [fst snd]. apply homes_update. Qed.

Lemma needs_geocoding_address b home_address :
  needs_geocoding b = true -> Profile.b_home_address b = Some home_address ->
  or_null (Profile.b_home_address b) = Some home_address.
Proof.
  unfold needs_geocoding, or_null, or_else. intros H E. rewrite E in *.
  apply andb_prop in H. destruct H as [H _]. now rewrite H.
Qed.

(** PUT /api/profile calls the geocoder exactly when an address is given
    and a coordinate is missing, null or zero, once, with the address and
    the configured key.  Without the call the coordinates stored are those
    sent (zero and absent as null) and the neighborhood is null; with a
    first result the coordinates stored are its location and the
    neighborhood is read from its components; with no result, or a failing
    transport (which is logged), the address is still saved with the
    coordinates sent and no neighborhood. *)
Theorem put_profile_geocodes_when_a_coordinate_is_missing :
  forall accounts userId b,
    let run := Profile.put geocode apiKey now accounts userId b in
    let accounts' := snd (fst run) in
    let evs := snd run in
    (needs_geocoding b = false ->
     evs = []
     /\ homes accounts' userId
        = map (fun _ => (or_null (Profile.b_home_address b),
                         Profile.coordinate_or_null (Profile.b_home_lat b),
                         Profile.coordinate_or_null (Profile.b_home_lng b),
                         None))
              (select_account accounts userId))
    /\ (forall home_address,
          needs_geocoding b = true ->
          Profile.b_home_address b = Some home_address ->
          let req := {| Profile.address := home_address;
                        Profile.geocode_key := apiKey |} in
          match geocode req with
          | Profile.GeocodeJson {| Profile.results := Some (result :: _) |} =>
              evs = [Profile.EvGeocode req]
              /\ homes accounts' userId
                 = map (fun _ => (Some home_address,
                                  Profile.coordinate_or_null
                                    (Some (lat (Profile.location result))),
                                  Profile.coordinate_or_null
                                    (Some (lng (Profile.location result))),
                                  Profile.neighborhood_of
                                    (match Profile.address_components result with
                                     | Some cs => cs
                                     | None => []
                                     end)))
                       (select_account accounts userId)
          | answer =>
              evs = Profile.EvGeocode req
                    :: match answer with
                       | Profile.GeocodeRejected => [Profile.EvConsoleError]
                       | _ => []
                       end
              /\ homes accounts' userId
                 = map (fun _ => (Some home_address,
                                  Profile.coordinate_or_null (Profile.b_home_lat b),
                                  Profile.coordinate_or_null (Profile.b_home_lng b),
                                  None))
                       (select_account accounts userId)
          end).
Proof.
  intros accounts userId b. cbv zeta.
  rewrite put_homes. rewrite put_unfold. cbv zeta. cbn [fst snd].
  destruct (resolve_cases b) as [[Hn E] | (a & Hn & Ea & E)]; cbv zeta in E.
  - split; [|intros; congruence].
    intros _. rewrite E. cbn [fst snd]. split; reflexivity.
  - split; [intros; congruence|].
    intros home_address _ Eh. assert (home_address = a) by congruence. subst a.
    rewrite (needs_geocoding_address b home_address Hn Eh). rewrite E.
    destruct (geocode _) as [|[[[|result rest]|]]]; cbn [fst snd Profile.results];
      split; reflexivity.
Qed.

(** ** The neighborhood *)

(** The neighborhood of a geocoding result is the first non-empty name
    found in the order neighborhood, sublocality_level_1, sublocality,
    locality, where each type is looked up in the first component that has
    it; a neighborhood returned is the non-empty name of a component of one
    of these types. *)
Theorem neighborhood_is_first_named_component_by_priority :
  forall components : list Profile.address_component,
    Profile.neighborhood_of components
    = hd None (filter truthy
                 (map (Profile.find_component components) neighborhood_types))
    /\ (forall n, Profile.neighborhood_of components = Some n ->
                  n <> EmptyString
                  /\ exists c t,
                       In c components /\ In t neighborhood_types
                       /\ In t (Profile.types c) /\ Profile.long_name c = n)
    /\ (forall type n,
          Profile.find_component components type = Some n ->
          exists before c after,
            components = before ++ c :: after
            /\ In type (Profile.types c) /\ Profile.long_name c = n
            /\ Forall (fun c' => ~ In type (Profile.types c')) before).
Proof.
  intros components.
  assert (Hfirst : Profile.neighborhood_of components
                   = hd None (filter truthy
                                (map (Profile.find_component components)
                                     neighborhood_types))).
  { unfold Profile.neighborhood_of, neighborhood_types, or_null, or_else.
    cbn [map filter].
    destruct (truthy (Profile.find_component components "neighborhood")) eqn:E1;
      cbv iota; [now rewrite E1|].
    destruct (truthy (Profile.find_component components "sublocality_level_1")) eqn:E2;
      cbv iota; [now rewrite E2|].
    destruct (truthy (Profile.find_component components "sublocality")) eqn:E3;
      cbv iota; [now rewrite E3|].
    destruct (truthy (Profile.find_component components "locality")) eqn:E4;
      cbv iota; reflexivity. }
  assert (Hfind : forall type n,
             Profile.find_component components type = Some n ->
             exists before c after,
               components = before ++ c :: after
               /\ In type (Profile.types c) /\ Profile.long_name c = n
               /\ Forall (fun c' => ~ In type (Profile.types c')) before).
  { clear Hfirst. intros type n. unfold Profile.find_component.
    induction components as [|c l IH]; simpl; [discriminate|].
    destruct (existsb (String.eqb type) (Profile.types c)) eqn:E.
    - simpl. intros H. injection H as <-.
      exists [], c, l. repeat split; [|constructor].
      apply existsb_exists in E. destruct E as (x & Hx & Ex).
      apply String.eqb_eq in Ex. now subst.
    - intros H. destruct (IH H) as (before & c' & after & -> & Hin & Hn & Hb).
      exists (c :: before), c', after. repeat split; try assumption.
      constructor; [|assumption].
      intros Hc. assert (existsb (String.eqb type) (Profile.types c) = true); [|congruence].
      apply existsb_exists. exists type. split; [assumption | apply String.eqb_refl]. }
  split; [exact Hfirst|]. split; [|exact Hfind].
  intros n Hn. rewrite Hfirst in Hn.
  assert (Hin : In (Some n) (filter truthy (map (Profile.find_component components)
                                              neighborhood_types))).
  { destruct (filter truthy _) as [|v l]; [discriminate|]. simpl in Hn. subst v. now left. }
  apply filter_In in Hin. destruct Hin as [Hin Ht].
  apply truthy_nonempty in Ht. split; [exact Ht|].
  apply in_map_iff in Hin. destruct Hin as (t & Hf & Htype).
  destruct (Hfind t n Hf) as (before & c & after & -> & Hc & Hname & _).
  exists c, t. repeat split; try assumption.
  apply in_or_app. right. now left.
Qed.

End ProfileFacts.

Section ProfileThenCompute.

Context {M : MathImpl}.
Variable w : World.
Variable geocode : Profile.geocode_request -> Profile.geocode_result.
Variable apiKey : option string.
Variable now : nat.

Import Tables.
Local Open Scope string_scope.
Local Open Scope list_scope.

Lemma select_user_view accounts preferences matches userId :
  select_user (view accounts preferences matches) userId
  = map user (select_account accounts userId).
Proof.
  unfold select_user, select_account, view. cbn [users].
  induction accounts as [|a l IH]; simpl; [reflexivity|].
  destruct (id (user a) =? userId); simpl; now rewrite IH.
Qed.

Lemma compute_by_home accounts preferences matches userId :
  let db := view accounts preferences matches in
  match homes accounts userId with
  | [] =>
      compute w db userId
      = ({| status := 400; json := ErrorBody "Please set your home address first" |},
         db, [EvQuery (QUserById userId)])
  | (_, la, ln, _) :: _ =>
      if falsy la || falsy ln then
        compute w db userId
        = ({| status := 400; json := ErrorBody "Please set your home address first" |},
           db, [EvQuery (QUserById userId)])
      else
        select_prefs db userId <> [] -> status (fst (fst (compute w db userId))) = 200
  end.
Proof.
  cbv zeta. unfold homes.
  pose proof (select_user_view accounts preferences matches userId) as Hsel.
  destruct (select_account accounts userId) as [|a l] eqn:Ea; cbn [map].
  - unfold compute. now rewrite Hsel.
  - destruct (falsy (home_lat (user a)) || falsy (home_lng (user a))) eqn:Ef.
    + unfold compute. rewrite Hsel. cbn [map]. now rewrite Ef.
    + intros Hp. apply orb_false_iff in Ef. destruct Ef as [Hlat Hlng].
      destruct (compute_success w (view accounts preferences matches) userId (user a))
        as (added & evs & E & _).
      { unfold preconditions. rewrite Hsel. repeat split; assumption. }
      rewrite E. reflexivity.
Qed.

(** How the profile route feeds POST /compute.  After a PUT without an
    address and without both coordinates, or with an address the geocoder
    does not resolve, a run for the user answers 400 'Please set your home
    address first' after the one lookup; after a PUT of both coordinates
    (not zero) by a known user who has preferences, it answers 200. *)
Theorem compute_after_put_profile :
  forall accounts preferences matches userId b,
    let accounts' := snd (fst (Profile.put geocode apiKey now accounts userId b)) in
    let db := view accounts' preferences matches in
    let no_home :=
      ({| status := 400; json := ErrorBody "Please set your home address first" |},
       db, [EvQuery (QUserById userId)]) in
    (* no address, and a coordinate missing or zero *)
    (needs_geocoding b = false ->
     falsy (Profile.b_home_lat b) || falsy (Profile.b_home_lng b) = true ->
     compute w db userId = no_home)
    (* an address that the geocoder does not resolve *)
    /\ (forall home_address,
          needs_geocoding b = true ->
          Profile.b_home_address b = Some home_address ->
          let answer :=
            geocode {| Profile.address := home_address; Profile.geocode_key := apiKey |} in
          answer = Profile.GeocodeRejected
          \/ answer = Profile.GeocodeJson {| Profile.results := None |}
          \/ answer = Profile.GeocodeJson {| Profile.results := Some [] |} ->
          compute w db userId = no_home)
    (* both coordinates given *)
    /\ (falsy (Profile.b_home_lat b) = false ->
        falsy (Profile.b_home_lng b) = false ->
        select_account accounts userId <> [] ->
        select_prefs db userId <> [] ->
        status (fst (fst (compute w db userId))) = 200).
Proof.
  intros accounts preferences matches userId b. cbv zeta.
  pose proof (compute_by_home
                (snd (fst (Profile.put geocode apiKey now accounts userId b)))
                preferences matches userId) as Hc.
  cbv zeta in Hc. rewrite put_homes in Hc. cbv zeta in Hc.
  assert (Hnull : forall v, falsy (Profile.coordinate_or_null v) = falsy v).
  { intros v. unfold Profile.coordinate_or_null. destruct (falsy v) eqn:E; [reflexivity | exact E]. }
  destruct (resolve_cases geocode apiKey b) as [[Hn E] | (a & Hn & Ea & E)]; cbv zeta in E.
  - rewrite E in Hc. cbn [fst snd] in Hc.
    split; [|split].
    + intros _ Hf. destruct (select_account accounts userId); cbn [map] in Hc; [exact Hc|].
      rewrite !Hnull in Hc. now rewrite Hf in Hc.
    + intros; congruence.
    + intros Hlat Hlng Hacc Hp.
      destruct (select_account accounts userId); [congruence|]. cbn [map] in Hc.
      rewrite !Hnull, Hlat, Hlng in Hc. now apply Hc.
  - split; [intros; congruence|]. split.
    + intros home_address _ Eh Hans. assert (home_address = a) by congruence. subst a.
      cbv zeta in Hans.
      assert (Er : fst (fst (Profile.resolve geocode apiKey b))
                   = (Profile.b_home_lat b, Profile.b_home_lng b)).
      { rewrite E. destruct Hans as [-> | [-> | ->]]; reflexivity. }
      unfold needs_geocoding in Hn. apply andb_prop in Hn. destruct Hn as [_ Hf].
      destruct (select_account accounts userId); cbn [map] in Hc; [exact Hc|].
      rewrite Er in Hc. cbn [fst snd] in Hc.
      rewrite !Hnull in Hc. now rewrite Hf in Hc.
    + intros Hlat Hlng. unfold needs_geocoding in Hn.
      rewrite Hlat, Hlng, andb_false_r in Hn. discriminate.
Qed.

End ProfileThenCompute.

(* ================================================================== *)
(** * Worked runs                                                      *)
(* ================================================================== *)

Section Worked.

Local Open Scope string_scope.
Local Open Scope list_scope.

Lemma compute_aborts_without_home_or_preferences_witness :
  compute (M := RefEngine.engine) Scenario.offline Scenario.db_no_home "user-1"
  = ({| status := 400; json := ErrorBody "Please set your home address first" |},
     Scenario.db_no_home, [EvQuery (QUserById "user-1")])
  /\ compute (M := RefEngine.engine) Scenario.offline Scenario.db_no_prefs "user-1"
     = ({| status := 400;
           json := ErrorBody "Please set your commute preferences first" |},
        Scenario.db_no_prefs,
        [EvQuery (QUserById "user-1"); EvQuery (QPrefsByUser "user-1")]).
Proof.
  split.
  - apply (proj1 (compute_aborts_without_home_or_preferences
                    (M := RefEngine.engine) Scenario.offline Scenario.db_no_home "user-1")).
    right. exists Scenario.homeless, []. split; [reflexivity | now left].
  - apply (proj1 (proj2 (compute_aborts_without_home_or_preferences
                    (M := RefEngine.engine) Scenario.offline Scenario.db_no_prefs "user-1"))
             Scenario.requester); reflexivity.
Defined.

(** The end-to-end cases of the specification, without a routing key: a
    candidate 0.7 miles away with overlapping preferences yields exactly one
    match, with a small positive detour and 90 minutes of overlap, and the
    stale row of the user is gone; a candidate sixteen miles north yields
    none. *)
Example compute_nearby_candidate :
  compute (M := RefEngine.engine) Scenario.offline Scenario.db_near "user-1"
  = ({| status := 200;
        json := ComputeBody 1
          [{| s_id := "match-0"; partner_name := "Jane"; s_direction := "TO_WORK";
              s_detour_minutes := 2.3; s_time_overlap_minutes := 90;
              s_rank_score := -42.7 |}] |},
     {| users := users Scenario.db_near;
        commute_preferences := commute_preferences Scenario.db_near;
        match_results :=
          [{| match_id := "match-0"; user_a_id := "user-1"; user_b_id := "user-2";
              match_direction := "TO_WORK";
              detour_minutes := 2.2833325821729353;
              time_overlap_minutes := 90;
              rank_score := -42.716667417827068 |}] |},
     [EvQuery (QUserById "user-1"); EvQuery (QPrefsByUser "user-1");
      EvQuery (QOtherUsers "user-1"); EvQuery (QDeleteMatches "user-1");
      EvQuery (QPrefsByUser "user-2");
      EvQuery (QInsertMatch
        {| match_id := "match-0"; user_a_id := "user-1"; user_b_id := "user-2";
           match_direction := "TO_WORK";
           detour_minutes := 2.2833325821729353;
           time_overlap_minutes := 90;
           rank_score := -42.716667417827068 |})]).
Proof. vm_compute. reflexivity. Qed.

Example compute_far_candidate :
  compute (M := RefEngine.engine) Scenario.offline Scenario.db_far "user-1"
  = ({| status := 200; json := ComputeBody 0 [] |},
     {| users := users Scenario.db_far;
        commute_preferences := commute_preferences Scenario.db_far;
        match_results := [] |},
     [EvQuery (QUserById "user-1"); EvQuery (QPrefsByUser "user-1");
      EvQuery (QOtherUsers "user-1"); EvQuery (QDeleteMatches "user-1");
      EvQuery (QPrefsByUser "user-2")]).
Proof. vm_compute. reflexivity. Qed.

Lemma preconditions_db_two :
  preconditions Scenario.db_two "user-1" Scenario.requester.
Proof. unfold preconditions. repeat split; try reflexivity. discriminate. Defined.

Lemma detour_gate_drops_candidate_witness :
  PrimFloat.ltb (DETOUR_THRESHOLD Scenario.offline)
    (detourMinutes_of (M := RefEngine.engine) Scenario.offline no_drive_times
       Scenario.requester Scenario.jane_far 0) = true
  /\ candidate_step (M := RefEngine.engine) Scenario.offline "user-1" Scenario.requester
       [Scenario.to_work "user-1" "EITHER"] no_drive_times 0 Scenario.jane_far
       (Scenario.start Scenario.db_far [])
     = {| newMatches := []; cur_db := Scenario.db_far;
          trace := [EvQuery (QPrefsByUser "user-2")]; uuid_count := 0 |}.
Proof.
  assert (H : PrimFloat.ltb (DETOUR_THRESHOLD Scenario.offline)
                (detourMinutes_of (M := RefEngine.engine) Scenario.offline no_drive_times
                   Scenario.requester Scenario.jane_far 0) = true)
    by (vm_compute; reflexivity).
  split; [exact H|].
  exact (proj1 (detour_gate_drops_candidate (M := RefEngine.engine) Scenario.offline)
           "user-1" Scenario.requester [Scenario.to_work "user-1" "EITHER"]
           no_drive_times 0%nat Scenario.jane_far (Scenario.start Scenario.db_far []) H).
Defined.

Lemma estimated_detour_is_twice_extra_haversine_miles_witness :
  fetch_drive_times Scenario.offline Scenario.requester
    [Scenario.jane] = (no_drive_times, [])
  /\ detourMinutes_of (M := RefEngine.engine) Scenario.offline
       (fst (fetch_drive_times Scenario.offline
               Scenario.requester [Scenario.jane]))
       Scenario.requester Scenario.jane 0
     = estimated_detour (M := RefEngine.engine) Scenario.offline
         Scenario.requester Scenario.jane.
Proof.
  exact (proj1 (proj2 (estimated_detour_is_twice_extra_haversine_miles
                         (M := RefEngine.engine) Scenario.offline))
           eq_refl Scenario.requester [Scenario.jane] Scenario.jane 0%nat).
Defined.



Lemma computeOverlap_intersection_and_width_witness :
  overlapMinutes (computeOverlap "07:00" "08:00" [0%Z] "08:00" "09:00" [0%Z]) = 0%float.
Proof.
  apply (proj2 (proj2 (proj2
           (computeOverlap_intersection_and_width
              "07:00" "08:00" [0%Z] "08:00" "09:00" [0%Z])))).
  - exists 0%Z. simpl. tauto.
  - reflexivity.
  - reflexivity.
  - left. reflexivity.
Defined.

(** Jane, 0.7 miles away, passes the prefilter; Milo, 75 miles away, does
    not. *)
Lemma prefilter_keeps_users_within_distance_threshold_witness :
  In Scenario.jane
     (prefilter (M := RefEngine.engine) Scenario.offline Scenario.requester
        [Scenario.jane; Scenario.sam; Scenario.milo])
  /\ ~ In Scenario.milo
       (prefilter (M := RefEngine.engine) Scenario.offline Scenario.requester
          [Scenario.jane; Scenario.sam; Scenario.milo]).
Proof.
  pose proof (proj1 (prefilter_keeps_users_within_distance_threshold
                       (M := RefEngine.engine) Scenario.offline)
                Scenario.requester [Scenario.jane; Scenario.sam; Scenario.milo]) as H.
  split.
  - refine (proj2 (H Scenario.jane) (conj (or_introl eq_refl) _)).
    vm_compute. reflexivity.
  - intros Hin. destruct (proj1 (H Scenario.milo) Hin) as [_ Hle].
    vm_compute in Hle. discriminate Hle.
Defined.

Lemma compute_reports_sorted_by_rounded_score_witness :
  let run := compute (M := RefEngine.engine) Scenario.tie Scenario.db_two "user-1" in
  exists reported : list match_summary,
    json (fst (fst run)) = ComputeBody (List.length reported) reported
    /\ Forall (fun s => is_finite (s_rank_score s) = true) reported
    /\ StronglySorted
         (fun a b => PrimFloat.leb (s_rank_score a) (s_rank_score b) = true)
         reported.
Proof.
  destruct (compute_reports_sorted_by_rounded_score (M := RefEngine.engine)
              Scenario.tie Scenario.db_two "user-1" Scenario.requester
              preconditions_db_two)
    as (added & reported & Hj & _ & _ & _ & _ & _ & Hs).
  assert (Hf : Forall (fun s => is_finite (s_rank_score s) = true) reported).
  { vm_compute in Hj. injection Hj as _ <-. repeat constructor. }
  exists reported. split; [now rewrite Hj | split; [exact Hf | apply Hs, Hf]].
Defined.

(** C7 (as stated) fails: the order of the reported list comes from
    comparing rounded scores, not raw ones.  Jane's raw score is
    602/60 + 15 - 20 - 45 = -39.966..., Sam's is -40; both round to -40, so
    the comparison sees a tie and Jane, generated first, stays first although
    her raw score is the greater one. *)
Lemma compute_orders_by_rounded_score_not_raw :
  let run := compute (M := RefEngine.engine) Scenario.tie Scenario.db_two "user-1" in
  json (fst (fst run))
  = ComputeBody 2
      [{| s_id := "match-0"; partner_name := "Jane"; s_direction := "TO_WORK";
          s_detour_minutes := 5; s_time_overlap_minutes := 90; s_rank_score := -40 |};
       {| s_id := "match-1"; partner_name := "Sam"; s_direction := "TO_WORK";
          s_detour_minutes := 5; s_time_overlap_minutes := 90; s_rank_score := -40 |}]
  /\ map (fun r => (match_id r, user_b_id r, rank_score r))
         (match_results (snd (fst run)))
     = [("match-0", "user-2", (-39.966666666666669)%float);
        ("match-1", "user-3", (-40)%float)]
  /\ PrimFloat.ltb (-40) (-39.966666666666669) = true.
Proof. vm_compute. repeat split; reflexivity. Qed.

Lemma compute_replaces_matches_of_user_witness :
  let ids := fun n => ("second-" ++ Scenario.uuid n)%string in
  let first := compute (M := RefEngine.engine) Scenario.tie Scenario.db_two "user-1" in
  let again :=
    compute (M := RefEngine.engine) (with_uuid Scenario.tie ids) (snd (fst first))
      "user-1" in
  status (fst (fst again)) = 200
  /\ map row_content (inserted_rows (snd again))
     = map row_content (inserted_rows (snd first))
  /\ map match_id (inserted_rows (snd again))
     = map ids (seq 0 (List.length (inserted_rows (snd first))))
  /\ match_results (snd (fst again))
     = filter (fun r => negb (involves "user-1" r)) (match_results Scenario.db_two)
       ++ inserted_rows (snd again).
Proof.
  exact (proj2 (compute_replaces_matches_of_user (M := RefEngine.engine)
                  Scenario.tie (fun n => ("second-" ++ Scenario.uuid n)%string)
                  Scenario.db_two "user-1" Scenario.requester
                  preconditions_db_two)).
Defined.

Lemma inserted_rows_come_from_accepted_pairs_witness :
  Forall (fun r =>
            user_a_id r = "user-1"
            /\ rank_score r
               = (detour_minutes r * W_DETOUR - time_overlap_minutes r * W_OVERLAP)%float
            /\ exists other myPref otherPref,
                 In other (prefilter (M := RefEngine.engine) Scenario.tie Scenario.requester
                             (select_other_users Scenario.db_two "user-1"))
                 /\ user_b_id r = id other
                 /\ In myPref (select_prefs Scenario.db_two "user-1")
                 /\ In otherPref (select_prefs Scenario.db_two (id other))
                 /\ accepted_pair myPref otherPref r)
         (inserted_rows
            (snd (compute (M := RefEngine.engine) Scenario.tie Scenario.db_two "user-1"))).
Proof.
  exact (inserted_rows_come_from_accepted_pairs (M := RefEngine.engine)
           Scenario.tie Scenario.db_two "user-1" Scenario.requester
           preconditions_db_two).
Defined.

(** The first case of the test suite of [haversine]. *)
Lemma haversine_identical_points_witness :
  @haversine RefEngine.engine 43 (-89.4) 43 (-89.4) = 0%float.
Proof.
  apply (haversine_identical_points (M := RefEngine.engine)); vm_compute; reflexivity.
Defined.


Lemma haversine_symmetric_witness :
  @haversine RefEngine.engine 43.1 (-89.5) 43.0 (-89.4)
  = @haversine RefEngine.engine 43.0 (-89.4) 43.1 (-89.5).
Proof.
  apply (haversine_symmetric (M := RefEngine.engine)); vm_compute; reflexivity.
Defined.



End Worked.

(** * Worked cases of the other routes *)

Section WorkedRoutes.

Import Tables.
Local Open Scope string_scope.
Local Open Scope list_scope.

Lemma accounts_distinct : NoDup (map account_id Fixtures.accounts).
Proof.
  repeat constructor; simpl; intuition discriminate.
Defined.

Lemma valid_to_work (role : string) :
  In role ["DRIVER"; "RIDER"; "EITHER"] ->
  valid_preference "TO_WORK" "07:00" "08:30" [0; 1; 2]%Z role.
Proof.
  intros Hr. split; [now left | split; [exact Hr | split; [discriminate|]]].
  exists 420%Z, 510%Z. repeat split; reflexivity.
Defined.

Lemma preferences_wellformed : Forall wellformed (map pref Fixtures.preferences).
Proof.
  constructor; [apply valid_to_work; simpl; tauto|].
  constructor; [apply valid_to_work; simpl; tauto|].
  constructor.
Defined.

Lemma valid_toJane :
  valid_interest Fixtures.accounts "user-1" Fixtures.toJane "user-2" "TO_WORK".
Proof.
  split; [reflexivity | split; [discriminate | split; [now left | split; discriminate]]].
Defined.

Lemma valid_toRequester :
  valid_interest Fixtures.accounts "user-2" Fixtures.toRequester "user-1" "TO_WORK".
Proof.
  split; [reflexivity | split; [discriminate | split; [now left | split; discriminate]]].
Defined.

Lemma get_matches_lists_rows_of_user_witness :
  Permutation
    (map MatchList.mr (MatchList.get_matches Fixtures.accounts Fixtures.matches [] "user-1"))
    (filter (involves "user-1") Fixtures.matches).
Proof.
  apply (get_matches_lists_rows_of_user Fixtures.accounts Fixtures.matches [] "user-1").
  - exact accounts_distinct.
  - intros r [<- | [<- | [<- | []]]]; split; simpl; tauto.
Defined.

Lemma get_matches_after_compute_witness :
  let run := compute (M := RefEngine.engine) Scenario.offline Scenario.db_two "user-1" in
  Permutation
    (map MatchList.mr
       (MatchList.get_matches Fixtures.accounts (match_results (snd (fst run))) [] "user-1"))
    (inserted_rows (snd run)).
Proof.
  destruct (get_matches_after_compute (M := RefEngine.engine) Scenario.offline
              Scenario.db_two "user-1" Scenario.requester Fixtures.accounts []
              preconditions_db_two eq_refl accounts_distinct)
    as (reported & _ & _ & H & _).
  exact H.
Defined.

Lemma put_preference_upserts_by_user_and_direction_witness :
  let run :=
    Preferences.put Scenario.offline Fixtures.preferences "user-1"
      (preference_body "TO_WORK" "07:00" "08:30" [0; 1; 2]%Z "DRIVER") in
  NoDup (map pref_key (snd run))
  /\ fst run = Returned (Preferences.get (snd run) "user-1").
Proof.
  destruct (put_preference_upserts_by_user_and_direction Scenario.offline
              Fixtures.preferences "user-1" "TO_WORK" "07:00" "08:30" [0; 1; 2]%Z "DRIVER")
    as (H1 & _ & _ & H4).
  - apply valid_to_work. simpl. tauto.
  - repeat constructor; simpl; intuition discriminate.
  - repeat constructor; simpl; intuition discriminate.
  - split; assumption.
Defined.

Lemma put_preference_twice_and_delete_witness :
  let b := preference_body "TO_WORK" "07:00" "08:30" [0; 1; 2]%Z "RIDER" in
  let run := Preferences.put Scenario.offline Fixtures.preferences "user-3" b in
  Preferences.put Scenario.offline (snd run) "user-3" b = run
  /\ snd (Preferences.delete (snd run) "user-3" "TO_WORK") = Fixtures.preferences.
Proof.
  destruct (put_preference_twice_and_delete Scenario.offline
              Fixtures.preferences "user-3" "TO_WORK" "07:00" "08:30" [0; 1; 2]%Z "RIDER")
    as (H1 & _ & H3).
  - apply valid_to_work. simpl. tauto.
  - simpl. intuition discriminate.
  - split; [exact H1 | apply H3; reflexivity].
Defined.

Lemma stored_preferences_stay_well_formed_witness :
  Forall wellformed
    (map pref (snd (Preferences.put Scenario.offline Fixtures.preferences "user-3"
                      Fixtures.validPref))).
Proof.
  apply (stored_preferences_stay_well_formed Scenario.offline Fixtures.preferences "user-3").
  exact preferences_wellformed.
Defined.

Lemma overlap_of_stored_preferences_is_whole_minutes_witness :
  exists ep lp eq lq : Z,
    Spec.minutesOfDay "07:00" = Spec.MinutesOfDay ep
    /\ Spec.minutesOfDay "08:30" = Spec.MinutesOfDay lp
    /\ Spec.minutesOfDay "07:00" = Spec.MinutesOfDay eq
    /\ Spec.minutesOfDay "08:30" = Spec.MinutesOfDay lq
    /\ let r := computeOverlap "07:00" "08:30" [0; 1; 2]%Z "07:00" "08:30" [0; 1; 2]%Z in
       let width := Z.max 0 (Z.min lp lq - Z.max ep eq) in
       overlapMinutes r = match commonDays r with [] => 0%float | _ :: _ => of_Z width end
       /\ (0 <= width <= 6039)%Z.
Proof.
  apply (overlap_of_stored_preferences_is_whole_minutes
           (Scenario.to_work "user-1" "EITHER") (Scenario.to_work "user-2" "DRIVER"));
    apply valid_to_work; simpl; tauto.
Defined.

Lemma matches_of_stored_preferences_overlap_whole_minutes_witness :
  Forall (fun r =>
            exists n : Z,
              (0 < n <= 6039)%Z
              /\ time_overlap_minutes r = of_Z n
              /\ rank_score r = (detour_minutes r * W_DETOUR - of_Z n * W_OVERLAP)%float)
         (inserted_rows
            (snd (compute (M := RefEngine.engine) Scenario.offline Scenario.db_two "user-1"))).
Proof.
  apply (matches_of_stored_preferences_overlap_whole_minutes (M := RefEngine.engine)
           Scenario.offline Scenario.db_two "user-1").
  repeat (constructor; [apply valid_to_work; simpl; tauto|]). constructor.
Defined.

Lemma post_interest_records_once_witness :
  let run :=
    Interests.post Scenario.offline Fixtures.mailer None Fixtures.accounts [] "user-1"
      Fixtures.toJane in
  NoDup (map interest_key (snd (fst run)))
  /\ MatchList.interest_exists (snd (fst run)) "user-1" "user-2" "TO_WORK" = true
  /\ Interests.post Scenario.offline Fixtures.mailer None Fixtures.accounts (snd (fst run))
       "user-1" Fixtures.toJane = run.
Proof.
  destruct (post_interest_records_once Scenario.offline Fixtures.mailer None
              Fixtures.accounts [] "user-1" Fixtures.toJane "user-2" "TO_WORK"
              valid_toJane (NoDup_nil _))
    as (H1 & H2 & _ & _ & H5).
  repeat split; assumption.
Defined.

Lemma interest_is_mutual_when_returned_witness :
  let first :=
    Interests.post Scenario.offline Fixtures.mailer None Fixtures.accounts [] "user-1"
      Fixtures.toJane in
  Interests.json (fst (fst first)) = Interests.MutualBody false
  /\ Interests.json
       (fst (fst (Interests.post Scenario.offline Fixtures.mailer None Fixtures.accounts
                    (snd (fst first)) "user-2" Fixtures.toRequester)))
     = Interests.MutualBody true.
Proof.
  exact (interest_is_mutual_when_returned Scenario.offline Fixtures.mailer None
           Fixtures.accounts [] "user-1" "user-2" "TO_WORK" Fixtures.toJane
           Fixtures.toRequester valid_toJane valid_toRequester).
Defined.

Lemma interest_post_then_delete_restores_witness :
  Interests.delete
    (snd (fst (Interests.post Scenario.offline Fixtures.mailer None Fixtures.accounts []
                 "user-1" Fixtures.toJane)))
    "user-1" Fixtures.toJane
  = ({| Interests.status := 200; Interests.json := Interests.OkBody |}, []).
Proof.
  exact (interest_post_then_delete_restores Scenario.offline Fixtures.mailer None
           Fixtures.accounts [] "user-1" Fixtures.toJane "user-2" "TO_WORK"
           valid_toJane eq_refl).
Defined.

Lemma interest_notification_is_gated_witness :
  let run :=
    Interests.post Scenario.offline Fixtures.mailer None Fixtures.accounts [] "user-1"
      Fixtures.toJane in
  (List.length (sent_mail (snd run)) <= 1)%nat
  /\ (In Interests.EvConsoleError (snd run)
      <-> exists m, In m (sent_mail (snd run)) /\ Email.delivers Fixtures.mailer m = false).
Proof.
  destruct (interest_notification_is_gated Scenario.offline Fixtures.mailer None
              Fixtures.accounts [] "user-1" Fixtures.toJane "user-2" "TO_WORK"
              valid_toJane)
    as (target & mutual & _ & _ & _ & H4 & _ & H6).
  split; assumption.
Defined.

Lemma match_list_shows_interest_witness :
  let posted :=
    snd (fst (Interests.post Scenario.offline Fixtures.mailer None Fixtures.accounts []
                "user-1" Fixtures.toJane)) in
  map (fun it => (MatchList.mr it, MatchList.partner_id it, MatchList.partner_name it,
                  MatchList.partner_avatar it, MatchList.partner_address it))
      (MatchList.get_matches Fixtures.accounts Fixtures.matches posted "user-2")
  = map (fun it => (MatchList.mr it, MatchList.partner_id it, MatchList.partner_name it,
                    MatchList.partner_avatar it, MatchList.partner_address it))
        (MatchList.get_matches Fixtures.accounts Fixtures.matches [] "user-2").
Proof.
  exact (proj2 (proj2 (proj2
           (match_list_shows_interest Scenario.offline Fixtures.mailer None
              Fixtures.accounts Fixtures.matches [] "user-1" Fixtures.toJane
              "user-2" "TO_WORK" valid_toJane))) "user-2").
Defined.

End WorkedRoutes.
